(* Verification of pkg/bpf/collection.go (Cilium): normalisation of a parsed
   eBPF collection specification and the kernel-load transaction.

   The development is a shallow embedding.  Go maps are stdpp [gmap]s, the
   unspecified iteration order of a Go [range] over a map is supplied by a
   [GoRuntime], unsigned 32-bit and signed 64-bit integers are [Z] with the
   truncation written out, and strings are byte strings. *)

From Stdlib Require Import ZArith Ascii String Lia Bool.
From stdpp Require Import gmap strings list fin_maps.

Local Open Scope Z_scope.

(* ===================================================================== *)
(** * Go's standard library, as far as [fmt.Sscanf(s, "%d/%v", &id, &slot)]
      with two [*uint32] operands uses it *)
(* ===================================================================== *)

Module utf8.

Definition RuneError : Z := 65533.

(** A Go string is a sequence of bytes. *)
Definition bytes (s : string) : list Z :=
  map (fun a => Z.of_N (N_of_ascii a)) (list_ascii_of_string s).

(** [first] and [acceptRanges] of unicode/utf8: for a leading byte, the
    length of the encoding and the range allowed for the second byte;
    [None] stands for the entries [xx] (invalid leading byte). *)
Definition first (p0 : Z) : option (nat * Z * Z) :=
  if p0 <? 194 then None                                 (* 0x80..0xC1 *)
  else if p0 <=? 223 then Some (2%nat, 128, 191)         (* s1 *)
  else if p0 =? 224 then Some (3%nat, 160, 191)          (* s2 *)
  else if p0 <=? 236 then Some (3%nat, 128, 191)         (* s3 *)
  else if p0 =? 237 then Some (3%nat, 128, 159)          (* s4 *)
  else if p0 <=? 239 then Some (3%nat, 128, 191)         (* s3 *)
  else if p0 =? 240 then Some (4%nat, 144, 191)          (* s5 *)
  else if p0 <=? 243 then Some (4%nat, 128, 191)         (* s6 *)
  else if p0 =? 244 then Some (4%nat, 128, 143)          (* s7 *)
  else None.                                             (* 0xF5..0xFF *)

Definition locb : Z := 128.
Definition hicb : Z := 191.

(** [utf8.DecodeRune]: the rune at the head of [p] and its width. *)
Definition DecodeRune (p : list Z) : Z * nat :=
  match p with
  | [] => (RuneError, 0%nat)
  | p0 :: _ =>
    if p0 <? 128 then (p0, 1%nat)
    else
      match first p0 with
      | None => (RuneError, 1%nat)
      | Some (sz, lo, hi) =>
        if (length p <? sz)%nat then (RuneError, 1%nat)
        else
          let b1 := nth 1 p 0 in
          if (b1 <? lo) || (hi <? b1) then (RuneError, 1%nat)
          else if (sz <=? 2)%nat then
            (Z.lor (Z.shiftl (Z.land p0 31) 6) (Z.land b1 63), 2%nat)
          else
            let b2 := nth 2 p 0 in
            if (b2 <? locb) || (hicb <? b2) then (RuneError, 1%nat)
            else if (sz <=? 3)%nat then
              (Z.lor (Z.lor (Z.shiftl (Z.land p0 15) 12)
                            (Z.shiftl (Z.land b1 63) 6))
                     (Z.land b2 63), 3%nat)
            else
              let b3 := nth 3 p 0 in
              if (b3 <? locb) || (hicb <? b3) then (RuneError, 1%nat)
              else
                (Z.lor (Z.lor (Z.lor (Z.shiftl (Z.land p0 7) 18)
                                     (Z.shiftl (Z.land b1 63) 12))
                              (Z.shiftl (Z.land b2 63) 6))
                       (Z.land b3 63), 4%nat)
      end
  end.

(** The runes a reader delivers for the bytes [p], one [DecodeRune] after
    the other ([fuel] bounds the number of runes by the number of bytes). *)
Fixpoint decode (fuel : nat) (p : list Z) : list Z :=
  match fuel, p with
  | O, _ => []
  | _, [] => []
  | S fuel', _ :: _ =>
    let '(r, w) := DecodeRune p in
    r :: decode fuel' (drop w p)
  end.

Definition runes (s : string) : list Z :=
  let p := bytes s in decode (length p) p.

End utf8.

Module strconv.

Definition maxUint64 : Z := 2 ^ 64 - 1.

(** [lower(c)]: ASCII lower-casing by setting bit 0x20. *)
Definition lower (c : Z) : Z := Z.lor c 32.

(** [underscoreOK]: underscores must separate digits (or follow the base
    prefix).  [saw] is the last character class seen, as in the source:
    '^' 94, '0' 48, '_' 95, '!' 33. *)
Fixpoint underscoreOK_loop (hex : bool) (saw : Z) (s : list Z) : bool :=
  match s with
  | [] => negb (saw =? 95)
  | c :: s' =>
    if ((48 <=? c) && (c <=? 57))
       || (hex && (97 <=? lower c) && (lower c <=? 102))
    then underscoreOK_loop hex 48 s'
    else if c =? 95 then
      if negb (saw =? 48) then false else underscoreOK_loop hex 95 s'
    else if saw =? 95 then false
    else underscoreOK_loop hex 33 s'
  end.

Definition underscoreOK (s : list Z) : bool :=
  let s :=
    match s with
    | c :: s' => if (c =? 45) || (c =? 43) then s' else s
    | [] => s
    end in
  if (2 <=? length s)%nat && (nth 0 s 0 =? 48)
     && ((lower (nth 1 s 0) =? 98) || (lower (nth 1 s 0) =? 111)
         || (lower (nth 1 s 0) =? 120))
  then underscoreOK_loop (lower (nth 1 s 0) =? 120) 48 (drop 2 s)
  else underscoreOK_loop false 94 s.

(** The digit loop of [ParseUint]; arithmetic is that of [uint64]. *)
Fixpoint digits_loop (base0 : bool) (base cutoff maxVal : Z)
         (s : list Z) (n : Z) (underscores : bool) : option (Z * bool) :=
  match s with
  | [] => Some (n, underscores)
  | c :: s' =>
    if (c =? 95) && base0 then
      digits_loop base0 base cutoff maxVal s' n true
    else
      let d :=
        if (48 <=? c) && (c <=? 57) then Some (c - 48)
        else if (97 <=? lower c) && (lower c <=? 122)
             then Some (lower c - 97 + 10)
             else None in
      match d with
      | None => None                                   (* syntax error *)
      | Some d =>
        if base <=? d then None                        (* syntax error *)
        else if cutoff <=? n then None                 (* range error *)
        else
          let nb := (n * base) mod 2 ^ 64 in
          let n1 := (nb + d) mod 2 ^ 64 in
          if (n1 <? nb) || (maxVal <? n1) then None    (* range error *)
          else digits_loop base0 base cutoff maxVal s' n1 underscores
      end
  end.

(** The base an argument [base] of 0 stands for, and the digits after the
    prefix: "0b", "0o", "0x" or a leading "0" (octal). *)
Definition base_prefix (s0 : list Z) : Z * list Z :=
  if nth 0 s0 0 =? 48 then
    if (3 <=? length s0)%nat && (lower (nth 1 s0 0) =? 98)
    then (2, drop 2 s0)
    else if (3 <=? length s0)%nat && (lower (nth 1 s0 0) =? 111)
    then (8, drop 2 s0)
    else if (3 <=? length s0)%nat && (lower (nth 1 s0 0) =? 120)
    then (16, drop 2 s0)
    else (8, drop 1 s0)
  else (10, s0).

(** [strconv.ParseUint(s, base, 64)] for [base] 0 or 2..36. *)
Definition ParseUint (s0 : list Z) (base : Z) : option Z :=
  match s0 with
  | [] => None
  | _ :: _ =>
    let base0 := base =? 0 in
    let '(base, s) := if base0 then base_prefix s0 else (base, s0) in
    let cutoff := maxUint64 / base + 1 in
    match digits_loop base0 base cutoff maxUint64 s 0 false with
    | None => None
    | Some (n, underscores) =>
      if underscores && negb (underscoreOK s0) then None else Some n
    end
  end.

End strconv.

Module fmt.

(** [isSpace]: the Unicode white space table of package fmt. *)
Definition isSpace (r : Z) : bool :=
  if 65536 <=? r then false
  else ((9 <=? r) && (r <=? 13)) || (r =? 32) || (r =? 133) || (r =? 160)
       || (r =? 5760) || ((8192 <=? r) && (r <=? 8202))
       || ((8232 <=? r) && (r <=? 8233)) || (r =? 8239) || (r =? 8287)
       || (r =? 12288).

Definition indexRune (ok : string) (r : Z) : bool :=
  existsb (Z.eqb r) (utf8.runes ok).

Definition binaryDigits : string := "01".
Definition octalDigits : string := "01234567".
Definition decimalDigits : string := "0123456789".
Definition hexadecimalDigits : string := "0123456789aAbBcCdDeEfF".

(** [peek]: is the next rune one of [ok]?  Nothing is consumed. *)
Definition peek (ok : string) (rs : list Z) : bool :=
  match rs with
  | [] => false
  | r :: _ => indexRune ok r
  end.

(** [SkipSpace] with [nlIsSpace = false], as [Sscanf] sets it: white space
    is skipped, a newline is an error ([None]). *)
Fixpoint SkipSpace (rs : list Z) : option (list Z) :=
  match rs with
  | [] => Some []
  | r :: rest =>
    if (r =? 13) && peek (String "010" EmptyString) rest then SkipSpace rest
    else if r =? 10 then None
    else if negb (isSpace r) then Some rs
    else SkipSpace rest
  end.

(** [accept]: consume the next rune into the token buffer if it is one of
    [ok]. *)
Definition accept (ok : string) (buf rs : list Z)
  : option (list Z * list Z) :=
  match rs with
  | [] => None
  | r :: rest => if indexRune ok r then Some (buf ++ [r], rest) else None
  end.

(** The loop [for s.accept(digits) {}] of [scanNumber]. *)
Fixpoint accept_all (ok : string) (buf rs : list Z) : list Z * list Z :=
  match rs with
  | [] => (buf, rs)
  | r :: rest =>
    if indexRune ok r then accept_all ok (buf ++ [r]) rest else (buf, rs)
  end.

(** [scanNumber]: the token of digits; [None] is "expected integer" or an
    unexpected end of input. *)
Definition scanNumber (digits : string) (haveDigits : bool)
           (buf rs : list Z) : option (list Z * list Z) :=
  if haveDigits then Some (accept_all digits buf rs)
  else
    match accept digits buf rs with
    | None => None
    | Some (buf', rs') => Some (accept_all digits buf' rs')
    end.

(** [scanBasePrefix] (verb %v): digits allowed, whether a zero was already
    consumed, the token buffer and the rest of the input. *)
Definition scanBasePrefix (rs : list Z)
  : string * bool * list Z * list Z :=
  if negb (peek "0" rs) then ((decimalDigits ++ "_")%string, false, [], rs)
  else
    let rest := drop 1 rs in                              (* s.accept("0") *)
    match rest with
    | c :: rest' =>
      if indexRune "bB" c then
        ((binaryDigits ++ "_")%string, true, [48; c], rest')
      else if indexRune "oO" c then
        ((octalDigits ++ "_")%string, true, [48; c], rest')
      else if indexRune "xX" c then
        ((hexadecimalDigits ++ "_")%string, true, [48; c], rest')
      else ((octalDigits ++ "_")%string, true, [48], rest)
    | [] => ((octalDigits ++ "_")%string, true, [48], rest)
    end.

(** [scanUint(verb, 32)] for the verbs 'd' ([isV = false]) and 'v'. *)
Definition scanUint (isV : bool) (rs : list Z) : option (Z * list Z) :=
  match SkipSpace rs with
  | None => None
  | Some [] => None                                   (* notEOF *)
  | Some rs =>
    let '(base, digits, haveDigits, buf, rs) :=
      if isV then
        let '(digits, haveDigits, buf, rs') := scanBasePrefix rs in
        (0, digits, haveDigits, buf, rs')
      else (10, decimalDigits, false, [], rs) in
    match scanNumber digits haveDigits buf rs with
    | None => None
    | Some (tok, rs') =>
      match strconv.ParseUint tok base with
      | None => None
      | Some i =>
        if i mod 2 ^ 32 =? i then Some (i, rs')
        else None                          (* unsigned integer overflow *)
      end
    end
  end.

(** [fmt.Sscanf(s, "%d/%v", &id, &slot)] with [id, slot : uint32]:
    [Some (id, slot)] when the returned error is nil.  Input left over
    after the second operand is not an error.  (The scanner reads at most
    2^30 runes for an operand; section names are taken to be shorter.) *)
Definition Sscanf_d_slash_v (s : string) : option (Z * Z) :=
  match SkipSpace (utf8.runes s) with
  | None => None
  | Some rs =>
    match scanUint false rs with
    | None => None
    | Some (id, rs) =>
      match rs with
      | [] => None                                     (* unexpected EOF *)
      | r :: rs =>
        if negb (r =? 47) then None    (* input does not match format *)
        else
          match SkipSpace rs with
          | None => None
          | Some rs =>
            match scanUint true rs with
            | None => None
            | Some (slot, _) => Some (id, slot)
            end
          end
      end
    end
  end.

End fmt.


(* ===================================================================== *)
(** * The packages [asm] and [ebpf] of github.com/cilium/ebpf: the data
      the loader works on *)
(* ===================================================================== *)

Module asm.

(** [asm.Instruction]; [Reference] is what [ins.Reference()] returns (the
    symbol the instruction refers to, kept in its metadata). *)
Record Instruction := mkInstruction {
  OpCode : Z;
  Dst : Z;
  Src : Z;
  Offset : Z;
  Constant : Z;          (* int64 *)
  Reference : string
}.

#[global] Instance Instruction_inhabited : Inhabited Instruction :=
  populate (mkInstruction 0 0 0 0 0 "").

(** How the library splits an [OpCode] into its operation, and the three
    operations the loader looks for.  The bit layout of [asm.OpCode] is
    the library's own; the loader only compares the results. *)
Class OpCodes := {
  ALUOp : Z -> Z;
  JumpOp : Z -> Z;
  Mov : Z;
  Call : Z;
  LoadImmOp_DWord : Z
}.

Definition R0 : Z := 0.
Definition R1 : Z := 1.
Definition R3 : Z := 3.
Definition PseudoMapFD : Z := R1.
Definition FnTailCall : Z := 12.

Definition IsBuiltinCall `{OpCodes} (ins : Instruction) : bool :=
  (JumpOp (OpCode ins) =? Call) && (Src ins =? R0) && (Dst ins =? R0).

End asm.

Module binary.

Inductive ByteOrder := LittleEndian | BigEndian.

(** [order.Uint32(b)] on four bytes. *)
Definition Uint32 (order : ByteOrder) (b : list Z) : Z :=
  let b0 := nth 0 b 0 in let b1 := nth 1 b 0 in
  let b2 := nth 2 b 0 in let b3 := nth 3 b 0 in
  match order with
  | LittleEndian =>
    Z.lor (Z.lor (Z.lor b0 (Z.shiftl b1 8)) (Z.shiftl b2 16)) (Z.shiftl b3 24)
  | BigEndian =>
    Z.lor (Z.lor (Z.lor b3 (Z.shiftl b2 8)) (Z.shiftl b1 16)) (Z.shiftl b0 24)
  end.

End binary.

(** A Go value of type [any], as far as map contents and constants hold
    one. *)
Inductive any :=
| AnyUint32 (n : Z)
| AnyString (s : string)
| AnyBytes (b : list Z).

Module ProgramSpec.
Record t := mk {
  Name : string;
  SectionName : string;
  Type_ : Z;                                  (* ebpf.ProgramType *)
  Instructions : list asm.Instruction
}.
Definition set_Type (ty : Z) (p : t) : t :=
  mk (Name p) (SectionName p) ty (Instructions p).
End ProgramSpec.

Module MapKV.
Record t := mk { Key : any; Value : any }.
End MapKV.

Module MapSpec.
(** [Extra] is a [*bytes.Reader]: [None] is nil, [Some b] a reader with
    the bytes [b] still unread. *)
Record t := mk {
  Name : string;
  Extra : option (list Z);
  Pinning : Z;                                (* ebpf.PinType, uint32 *)
  Contents : list MapKV.t
}.
Definition set_Name (n : string) (m : t) : t :=
  mk n (Extra m) (Pinning m) (Contents m).
Definition set_Extra (e : option (list Z)) (m : t) : t :=
  mk (Name m) e (Pinning m) (Contents m).
Definition set_Pinning (p : Z) (m : t) : t :=
  mk (Name m) (Extra m) p (Contents m).
Definition set_Contents (c : list MapKV.t) (m : t) : t :=
  mk (Name m) (Extra m) (Pinning m) c.
End MapSpec.

Module VariableSpec.
(** [MapName] is what [v.MapName()] returns, the section the variable
    lives in; [size] is the size in bytes of the variable, [Value] its
    current bytes. *)
Record t := mk {
  Name : string;
  MapName : string;
  size : nat;
  Value : list Z
}.
(** [v.Set(in)]: refused when the size of the value is not the size of
    the variable. *)
Definition Set_ (v : t) (value : list Z) : option t :=
  if (length value =? size v)%nat
  then Some (mk (Name v) (MapName v) (size v) value)
  else None.
End VariableSpec.

Module CollectionSpec.
Record t := mk {
  Programs : gmap string ProgramSpec.t;
  Maps : gmap string MapSpec.t;
  Variables : gmap string VariableSpec.t;
  ByteOrder : binary.ByteOrder
}.
Definition set_Programs (ps : gmap string ProgramSpec.t) (s : t) : t :=
  mk ps (Maps s) (Variables s) (ByteOrder s).
Definition set_Maps (ms : gmap string MapSpec.t) (s : t) : t :=
  mk (Programs s) ms (Variables s) (ByteOrder s).
Definition set_Variables (vs : gmap string VariableSpec.t) (s : t) : t :=
  mk (Programs s) (Maps s) vs (ByteOrder s).
End CollectionSpec.

Definition UnspecifiedProgram : Z := 0.
Definition SchedCLS : Z := 3.
Definition XDP : Z := 6.

(* ===================================================================== *)
(** * Errors and loops *)
(* ===================================================================== *)

(** An error of the kernel loader (package ebpf).  The loader's caller only
    asks whether it is [ebpf.ErrMapIncompatible] ([errors.Is]). *)
Record KernelError := mkKernelError {
  is_ErrMapIncompatible : bool;
  message : string
}.

(** The errors of collection.go, one constructor per [fmt.Errorf] or
    [errors.New], with the operands of the format. *)
Inductive Error :=
| ErrDuplicateTailCall (slot : Z)
| ErrUnknownTailCall (section name : string) (index : Z) (at_ : nat)
| ErrReadingMapDefinition
| ErrDuplicateMapID (m m2 : string) (id : Z)
| ErrNoMapWithID (id : Z)
| ErrUnclassified
| ErrNilCollectionSpec
| ErrUnknownMap (name rename : string)
| ErrStructToMap
| ErrNonExistentVariable (name : string)
| ErrVariableSection (mapName name : string)
| ErrSettingVariable (name : string)
| ErrApplyingOverrides (e : Error)
| ErrFindingIncompatible (e : KernelError)
| ErrCollectingPins (key : string)
| ErrKernel (e : KernelError).

(** The iteration order of a [range] over a map is not specified in Go and
    may differ from one loop to the next.  The runtime chooses it: [range
    line round m] is the order in which the loop at source line [line]
    meets the entries of [m] the [round]-th time it is entered. *)
Class GoRuntime := {
  range : forall {K} `{Countable K} {A}, nat -> nat -> gmap K A -> list (K * A);
  range_permutation :
    forall K `(Countable K) A (line round : nat) (m : gmap K A),
      range line round m ≡ₚ map_to_list m
}.

(** A loop over [l] that threads the state [s] and stops at the first
    error; the state reached is returned with the error, as the loop
    mutates its objects in place. *)
Fixpoint for_each {S A E : Type} (body : A -> S -> S * option E)
         (l : list A) (s : S) : S * option E :=
  match l with
  | [] => (s, None)
  | a :: l' =>
    match body a s with
    | (s', None) => for_each body l' s'
    | (s', Some e) => (s', Some e)
    end
  end.

(* ===================================================================== *)
(** * Stage A: normalising the specification *)
(* ===================================================================== *)

Section Normalize.

Context `{RT : GoRuntime} `{OPS : asm.OpCodes}.

(** ** removeUnreachableTailcalls (collection.go, lines 50-183) *)

Record TailCall := mkTailCall {
  referenced : bool;
  visited : bool;
  spec : ProgramSpec.t
}.

Definition set_referenced (tc : TailCall) : TailCall :=
  mkTailCall true (visited tc) (spec tc).
Definition set_visited (tc : TailCall) : TailCall :=
  mkTailCall (referenced tc) true (spec tc).

(** Corresponds to CILIUM_MAP_CALLS. *)
Definition cilium_calls_map : Z := 2.

(** The body of the loop of lines 65-83; the state is the slice
    [entrypoints] and the map [tailcalls]. *)
Definition partition_body (kp : string * ProgramSpec.t)
           (st : list ProgramSpec.t * gmap Z TailCall)
  : (list ProgramSpec.t * gmap Z TailCall) * option Error :=
  let '(entrypoints, tailcalls) := st in
  let prog := kp.2 in
  match fmt.Sscanf_d_slash_v (ProgramSpec.SectionName prog) with
  | Some (id, slot) =>
    if negb (id =? cilium_calls_map) then
      ((entrypoints ++ [prog], tailcalls), None)
    else
      match tailcalls !! slot with
      | Some _ => (st, Some (ErrDuplicateTailCall slot))
      | None =>
        ((entrypoints, <[slot := mkTailCall false false prog]> tailcalls),
         None)
      end
  | None => ((entrypoints ++ [prog], tailcalls), None)
  end.

(** The body of the loop of [visit] (lines 88-141) at index [i], with
    [3 <= i < len(prog.Instructions)]. *)
Definition visit_body (prog : ProgramSpec.t) (i : nat)
           (tailcalls : gmap Z TailCall) : gmap Z TailCall * option Error :=
  let insns := ProgramSpec.Instructions prog in
  let inst := insns !!! i in
  if negb (asm.IsBuiltinCall inst)
     || negb (asm.Constant inst =? asm.FnTailCall)
  then (tailcalls, None)
  else
    let movIdx := insns !!! (i - 1)%nat in
    if negb (asm.ALUOp (asm.OpCode movIdx) =? asm.Mov)
       || negb (asm.Dst movIdx =? asm.R3)
    then (tailcalls, None)
    else
      let movR2 := insns !!! (i - 2)%nat in
      if negb (asm.OpCode movR2 =? asm.LoadImmOp_DWord)
         || negb (asm.Src movR2 =? asm.PseudoMapFD)
      then (tailcalls, None)
      else
        let ref := asm.Reference movR2 in
        if negb (String.eqb ref "cilium_calls") then (tailcalls, None)
        else
          let slot := asm.Constant movIdx mod 2 ^ 32 in  (* uint32(...) *)
          match tailcalls !! slot with
          | None =>
            (tailcalls,
             Some (ErrUnknownTailCall (ProgramSpec.SectionName prog)
                                      (ProgramSpec.Name prog)
                                      (asm.Constant movIdx) i))
          | Some tc => (<[slot := set_referenced tc]> tailcalls, None)
          end.

(** [visit]: [for i := 3; i < len(prog.Instructions); i++]. *)
Definition visit (prog : ProgramSpec.t) (tailcalls : gmap Z TailCall)
  : gmap Z TailCall * option Error :=
  for_each (visit_body prog)
           (seq 3 (length (ProgramSpec.Instructions prog) - 3))
           tailcalls.

Definition pending (e : Z * TailCall) : bool :=
  referenced e.2 && negb (visited e.2).

(** The loop at the label [reset] (lines 154-167): one pass over
    [tailcalls] finds the first entry referenced and not yet visited,
    visits its program, marks it visited and starts over.  [fuel] bounds
    the number of passes; [None] is fuel exhausted. *)
Fixpoint reset_loop (fuel round : nat) (tailcalls : gmap Z TailCall)
  : option (gmap Z TailCall * option Error) :=
  match fuel with
  | O => None
  | S fuel' =>
    match find pending (range 155 round tailcalls) with
    | None => Some (tailcalls, None)
    | Some (slot, tailcall) =>
      match visit (spec tailcall) tailcalls with
      | (tailcalls', Some e) => Some (tailcalls', Some e)
      | (tailcalls', None) =>
        reset_loop fuel' (S round) (alter set_visited slot tailcalls')
      end
    end
  end.

(** The body of the loop of lines 170-180. *)
Definition delete_body (e : Z * TailCall)
           (programs : gmap string ProgramSpec.t)
  : gmap string ProgramSpec.t * option Error :=
  if negb (referenced e.2)
  then (delete (ProgramSpec.Name (spec e.2)) programs, None)
  else (programs, None).

(** The table of tail calls when the scan is over: the three loops of
    lines 65-167.  The specification is only read. *)
Definition resolve_tailcalls (cs : CollectionSpec.t)
  : option (gmap Z TailCall * option Error) :=
  match for_each partition_body
                 (range 65 0 (CollectionSpec.Programs cs)) ([], ∅) with
  | ((_, tailcalls), Some e) => Some (tailcalls, Some e)
  | ((entrypoints, tailcalls), None) =>
    match for_each visit entrypoints tailcalls with
    | (tailcalls, Some e) => Some (tailcalls, Some e)
    | (tailcalls, None) =>
      reset_loop (S (size tailcalls)) 0 tailcalls
    end
  end.

(** [removeUnreachableTailcalls]: the specification as the call leaves it
    and the error returned.  [None]: the loop at [reset] did not come to
    an end within its bound. *)
Definition removeUnreachableTailcalls (cs : CollectionSpec.t)
  : option (CollectionSpec.t * option Error) :=
  match resolve_tailcalls cs with
  | None => None
  | Some (_, Some e) => Some (cs, Some e)
  | Some (tailcalls, None) =>
    let '(programs, _) :=
      for_each (E := Error) delete_body (range 170 0 tailcalls)
               (CollectionSpec.Programs cs) in
    Some (CollectionSpec.set_Programs programs cs, None)
  end.

(** ** iproute2Compat (lines 195-242) *)

(** The body of the loop of lines 198-220.  The state is [spec.Maps] and
    the local table [maps], which holds for an iproute2 id the key of the
    map specification registered under it. *)
Definition trailer_body (order : binary.ByteOrder)
           (km : string * MapSpec.t)
           (st : gmap string MapSpec.t * gmap Z string)
  : (gmap string MapSpec.t * gmap Z string) * option Error :=
  let '(Maps, maps) := st in
  let '(key, m) := km in
  match MapSpec.Extra m with
  | None => (st, None)
  | Some extra =>
    if negb (0 <? length extra)%nat then (st, None)
    else if (length extra <? 16)%nat then
      (* binary.Read takes what is left of the reader and fails *)
      ((<[key := MapSpec.set_Extra (Some []) m]> Maps, maps),
       Some ErrReadingMapDefinition)
    else
      let ID := binary.Uint32 order (take 4 extra) in
      let Pinning := binary.Uint32 order (take 4 (drop 4 extra)) in
      let m' :=
        MapSpec.set_Pinning Pinning
          (MapSpec.set_Extra (Some (drop 16 extra)) m) in
      let Maps' := <[key := m']> Maps in
      if negb (ID =? 0) then
        match maps !! ID with
        | Some key2 =>
          ((Maps', maps),
           Some (ErrDuplicateMapID
                   (MapSpec.Name m')
                   (from_option MapSpec.Name "" (Maps' !! key2)) ID))
        | None => ((Maps', <[ID := key]> maps), None)
        end
      else ((Maps', maps), None)
  end.

Definition append_content (slot : Z) (n : string) (m : MapSpec.t)
  : MapSpec.t :=
  MapSpec.set_Contents
    (MapSpec.Contents m ++ [MapKV.mk (AnyUint32 slot) (AnyString n)]) m.

(** The body of the loop of lines 222-239. *)
Definition slot_body (maps : gmap Z string)
           (np : string * ProgramSpec.t) (Maps : gmap string MapSpec.t)
  : gmap string MapSpec.t * option Error :=
  let '(n, p) := np in
  match fmt.Sscanf_d_slash_v (ProgramSpec.SectionName p) with
  | Some (id, slot) =>
    match maps !! id with
    | None => (Maps, Some (ErrNoMapWithID id))
    | Some key => (alter (append_content slot n) key Maps, None)
    end
  | None => (Maps, None)
  end.

Definition iproute2Compat (cs : CollectionSpec.t)
  : CollectionSpec.t * option Error :=
  match for_each (trailer_body (CollectionSpec.ByteOrder cs))
                 (range 198 0 (CollectionSpec.Maps cs))
                 (CollectionSpec.Maps cs, ∅) with
  | ((Maps, _), Some e) => (CollectionSpec.set_Maps Maps cs, Some e)
  | ((Maps, maps), None) =>
    let '(Maps', e) :=
      for_each (slot_body maps)
               (range 222 0 (CollectionSpec.Programs cs)) Maps in
    (CollectionSpec.set_Maps Maps' cs, e)
  end.

(** ** classifyProgramTypes (lines 373-417) *)

(** The [switch name] of lines 383-401: the type a recognised function
    name stands for. *)
Definition known_entrypoint (name : string) : option Z :=
  if String.eqb name "cil_xdp_entry" then Some XDP
  else if existsb (String.eqb name)
            ["cil_from_container"; "cil_to_container";
             "cil_from_netdev"; "cil_from_host";
             "cil_to_netdev"; "cil_to_host";
             "cil_from_network";
             "cil_to_overlay"; "cil_from_overlay";
             "cil_to_wireguard"; "cil_from_wireguard"]%string
       then Some SchedCLS
       else None.

(** The loop of lines 375-404, which ends at its first [break]; [t] is
    the variable [t] of the function. *)
Fixpoint infer_type (l : list (string * ProgramSpec.t)) (t : Z) : Z :=
  match l with
  | [] => t
  | (name, p) :: l' =>
    if negb (ProgramSpec.Type_ p =? UnspecifiedProgram)
    then ProgramSpec.Type_ p
    else
      match known_entrypoint name with
      | Some ty => ty
      | None => infer_type l' t
      end
  end.

(** The body of the loop of lines 406-410. *)
Definition assign_body (t : Z) (np : string * ProgramSpec.t)
           (programs : gmap string ProgramSpec.t)
  : gmap string ProgramSpec.t * option Error :=
  if ProgramSpec.Type_ np.2 =? UnspecifiedProgram
  then (<[np.1 := ProgramSpec.set_Type t np.2]> programs, None)
  else (programs, None).

Definition classifyProgramTypes (cs : CollectionSpec.t)
  : CollectionSpec.t * option Error :=
  let t :=
    infer_type (range 375 0 (CollectionSpec.Programs cs))
               UnspecifiedProgram in
  let '(programs, _) :=
    for_each (E := Error) (assign_body t)
             (range 406 0 (CollectionSpec.Programs cs))
             (CollectionSpec.Programs cs) in
  (CollectionSpec.set_Programs programs cs,
   if t =? UnspecifiedProgram then Some ErrUnclassified else None).

End Normalize.

Section Pipeline.

Context `{RT : GoRuntime} `{OPS : asm.OpCodes}.

(** ** LoadCollectionSpec (lines 29-48) *)

(** [parsed] is what [ebpf.LoadCollectionSpec(path)] returned: the
    specification read from the ELF file, or the error of the parser,
    which is returned as it is.  [None]: the loop at [reset] did not come
    to an end within its bound. *)
Definition LoadCollectionSpec (parsed : CollectionSpec.t + KernelError)
  : option (CollectionSpec.t + Error) :=
  match parsed with
  | inr err => Some (inr (ErrKernel err))
  | inl spec =>
    match removeUnreachableTailcalls spec with
    | None => None
    | Some (_, Some err) => Some (inr err)
    | Some (spec, None) =>
      match iproute2Compat spec with
      | (_, Some err) => Some (inr err)
      | (spec, None) =>
        match classifyProgramTypes spec with
        | (_, Some err) => Some (inr err)
        | (spec, None) => Some (inl spec)
        end
      end
    end
  end.

End Pipeline.

(* ===================================================================== *)
(** * Stage B: loading the specification into the kernel *)
(* ===================================================================== *)

(** What collection.go calls and this file does not define: the kernel
    loader of package ebpf, package config, and the helpers of package bpf
    that live in other files.  Functions that take a [*CollectionSpec] and
    write through it are transformers of the object pointed to. *)
Class Externals := {
  (** the kernel: its objects and the pins on the bpf file system *)
  Kernel : Type;
  (** [*ebpf.Map], a live map *)
  MapHandle : Type;
  (** [ebpf.CollectionOptions] and its zero value *)
  ebpfCollectionOptions : Type;
  zero_options : ebpfCollectionOptions;
  (** the dynamic type of a non-nil [Constants] value *)
  Obj : Type;
  (** [config.StructToMap]: field name to value, each value as the bytes
      [VariableSpec.Set] would store; [None] is an error *)
  StructToMap : Obj -> option (gmap string (list Z));
  (** [config.ConstantPrefix] and [config.Section] *)
  ConstantPrefix : string;
  Section_ : string;
  (** [ebpf.NewCollectionWithOptions]; a live collection is represented by
      its maps *)
  NewCollectionWithOptions :
    CollectionSpec.t -> ebpfCollectionOptions -> Kernel ->
    (gmap string MapHandle + KernelError) * Kernel;
  (** [consumePinReplace]: strips the CILIUM_PIN_REPLACE flags and returns
      the keys of the maps that carried one *)
  consumePinReplace : CollectionSpec.t -> CollectionSpec.t * list string;
  (** [incompatibleMaps]: strips the pinning flags of the maps that are
      incompatible with their pins and returns their keys, or fails *)
  incompatibleMaps :
    CollectionSpec.t -> ebpfCollectionOptions -> Kernel ->
    CollectionSpec.t * (list string + KernelError);
  (** [commitMapPins] on the pins collected by [mapsToReplace] *)
  commitMapPins :
    list (string * MapHandle) -> Kernel -> option KernelError * Kernel
}.

Section Load.

Context `{RT : GoRuntime} `{EXT : Externals}.

Record CollectionOptions := mkCollectionOptions {
  CollectionOptions_ : ebpfCollectionOptions; (* the embedded struct *)
  Constants : option Obj;                     (* any; [None] is nil *)
  MapRenames : gmap string string
}.

(** ** renameMaps (lines 420-431) *)

Definition rename_body (nr : string * string)
           (Maps : gmap string MapSpec.t)
  : gmap string MapSpec.t * option Error :=
  let '(name, rename) := nr in
  match Maps !! name with
  | None => (Maps, Some (ErrUnknownMap name rename))
  | Some mapSpec => (<[name := MapSpec.set_Name rename mapSpec]> Maps, None)
  end.

Definition renameMaps (coll : CollectionSpec.t)
           (renames : gmap string string)
  : CollectionSpec.t * option Error :=
  let '(Maps, e) :=
    for_each rename_body (range 421 0 renames) (CollectionSpec.Maps coll)
  in (CollectionSpec.set_Maps Maps coll, e).

(** ** applyConstants (lines 435-463) *)

Definition constant_body (nv : string * list Z)
           (Variables : gmap string VariableSpec.t)
  : gmap string VariableSpec.t * option Error :=
  let '(name, value) := nv in
  let constName := (ConstantPrefix ++ name)%string in
  match Variables !! constName with
  | None => (Variables, Some (ErrNonExistentVariable name))
  | Some v =>
    if negb (String.eqb (VariableSpec.MapName v) Section_) then
      (Variables, Some (ErrVariableSection (VariableSpec.MapName v) name))
    else
      match VariableSpec.Set_ v value with
      | None => (Variables, Some (ErrSettingVariable name))
      | Some v' => (<[constName := v']> Variables, None)
      end
  end.

Definition applyConstants (cs : CollectionSpec.t) (obj : option Obj)
  : CollectionSpec.t * option Error :=
  match obj with
  | None => (cs, None)
  | Some o =>
    match StructToMap o with
    | None => (cs, Some ErrStructToMap)
    | Some constants =>
      let '(Variables, e) :=
        for_each constant_body (range 445 0 constants)
                 (CollectionSpec.Variables cs)
      in (CollectionSpec.set_Variables Variables cs, e)
    end
  end.

(** ** LoadCollection (lines 297-362) *)

(** Modelled from the spec: [mapsToReplace] is defined in another file of
    the package.  It resolves each name of the to-replace set to its
    live map in the collection just loaded, and fails on a name the
    collection does not hold. *)
Fixpoint mapsToReplace (toReplace : list string)
         (coll : gmap string MapHandle)
  : list (string * MapHandle) + Error :=
  match toReplace with
  | [] => inl []
  | key :: rest =>
    match coll !! key with
    | None => inr (ErrCollectingPins key)
    | Some m =>
      match mapsToReplace rest coll with
      | inl pins => inl ((key, m) :: pins)
      | inr e => inr e
      end
    end
  end.

(** The memory LoadCollection works in: the specifications allocated so
    far, the kernel, and the record of the calls made to the kernel
    loader (the specification each one was given). *)
Record World := mkWorld {
  heap : gmap positive CollectionSpec.t;
  kernel : Kernel;
  loads : list CollectionSpec.t
}.

(** What a successful LoadCollection returns: the collection and the
    pins the function [commit] closes over. *)
Record Loaded := mkLoaded {
  coll : gmap string MapHandle;
  pins : list (string * MapHandle)
}.

Definition commit (r : Loaded) (k : Kernel) : option KernelError * Kernel :=
  commitMapPins (pins r) k.

Definition M (A : Type) : Type := World -> (A + Error) * World.

Definition ret {A} (a : A) : M A := fun w => (inl a, w).
Definition fail {A} (e : Error) : M A := fun w => (inr e, w).
Definition bind {A B} (m : M A) (f : A -> M B) : M B :=
  fun w =>
    match m w with
    | (inl a, w') => f a w'
    | (inr e, w') => (inr e, w')
    end.

Notation "'let*' x ':=' m 'in' k" := (bind m (fun x => k))
  (at level 10, x pattern, m at level 100, k at level 200).

(** [spec.Copy()]: a new object with the contents of the one [l] points
    to.  A pointer to no object is nil. *)
Definition Copy (l : positive) : M positive :=
  fun w =>
    match heap w !! l with
    | None => (inr ErrNilCollectionSpec, w)
    | Some v =>
      let l' := fresh (dom (heap w)) in
      (inl l', mkWorld (<[l' := v]> (heap w)) (kernel w) (loads w))
    end.

(** A call [f(spec, ...)] that writes through the pointer [l] and returns
    a value. *)
Definition through {A} (l : positive)
           (f : CollectionSpec.t -> CollectionSpec.t * A) : M A :=
  fun w =>
    match heap w !! l with
    | None => (inr ErrNilCollectionSpec, w)
    | Some v =>
      let '(v', a) := f v in
      (inl a, mkWorld (<[l := v']> (heap w)) (kernel w) (loads w))
    end.

(** A call that returns only an error. *)
Definition check (wrap : Error -> Error) (m : M (option Error)) : M unit :=
  let* e := m in
  match e with
  | None => ret tt
  | Some e => fail (wrap e)
  end.

(** [ebpf.NewCollectionWithOptions(spec, opts)] *)
Definition load (l : positive) (opts : ebpfCollectionOptions)
  : M (gmap string MapHandle + KernelError) :=
  fun w =>
    match heap w !! l with
    | None => (inr ErrNilCollectionSpec, w)
    | Some v =>
      let '(r, k) := NewCollectionWithOptions v opts (kernel w) in
      (inl r, mkWorld (heap w) k (loads w ++ [v]))
    end.

(** [incompatibleMaps(spec, opts)] *)
Definition find_incompatible (l : positive) (opts : ebpfCollectionOptions)
  : M (list string + KernelError) :=
  fun w =>
    match heap w !! l with
    | None => (inr ErrNilCollectionSpec, w)
    | Some v =>
      let '(v', r) := incompatibleMaps v opts (kernel w) in
      (inl r, mkWorld (<[l := v']> (heap w)) (kernel w) (loads w))
    end.

(** Lines 298-325: everything before the first call to the kernel; the
    result is the pointer to the copy and [toReplace]. *)
Definition prepare (spec : option positive)
           (opts : option CollectionOptions)
  : M (positive * CollectionOptions * list string) :=
  match spec with
  | None => fail ErrNilCollectionSpec
  | Some spec =>
    let opts :=
      default (mkCollectionOptions zero_options None ∅) opts in
    let* spec := Copy spec in
    let* _ := check id
          (through spec (fun v => renameMaps v (MapRenames opts))) in
    let* _ := check ErrApplyingOverrides
          (through spec (fun v => applyConstants v (Constants opts))) in
    let* toReplace := through spec consumePinReplace in
    ret (spec, opts, toReplace)
  end.

(** Lines 327-361: the load, the retry, the pins. *)
Definition load_prepared (spec : positive) (opts : CollectionOptions)
           (toReplace : list string) : M Loaded :=
  let* r := load spec (CollectionOptions_ opts) in
  let* (r, toReplace) :=
    match r with
    | inr err =>
      if is_ErrMapIncompatible err then
        let* inc := find_incompatible spec (CollectionOptions_ opts) in
        match inc with
        | inr err => fail (ErrFindingIncompatible err)
        | inl incompatible =>
          let* r := load spec (CollectionOptions_ opts) in
          ret (r, toReplace ++ incompatible)
        end
      else ret (r, toReplace)
    | inl _ => ret (r, toReplace)
    end in
  match r with
  | inr err => fail (ErrKernel err)
  | inl coll =>
    match mapsToReplace toReplace coll with
    | inr e => fail e
    | inl pins => ret (mkLoaded coll pins)
    end
  end.

Definition LoadCollection (spec : option positive)
           (opts : option CollectionOptions) : M Loaded :=
  let* (spec, opts, toReplace) := prepare spec opts in
  load_prepared spec opts toReplace.

End Load.

(* ===================================================================== *)
(** * Notions the statements about Stage A are written with *)
(* ===================================================================== *)

Section NormalizeSpec.

Context `{OPS : asm.OpCodes}.

(** The slot a program is a candidate tail call for: its section name
    reads as "<id>/<slot>" with the id of the calls map.  Every other
    program is an entrypoint. *)
Definition candidate (prog : ProgramSpec.t) : option Z :=
  match fmt.Sscanf_d_slash_v (ProgramSpec.SectionName prog) with
  | Some (id, slot) => if id =? cilium_calls_map then Some slot else None
  | None => None
  end.

(** The static tail call into the calls map that ends at instruction [i]:
    the constant moved into R3. *)
Definition tail_call_at (prog : ProgramSpec.t) (i : nat) : option Z :=
  let insns := ProgramSpec.Instructions prog in
  let inst := insns !!! i in
  let movIdx := insns !!! (i - 1)%nat in
  let movR2 := insns !!! (i - 2)%nat in
  if asm.IsBuiltinCall inst && (asm.Constant inst =? asm.FnTailCall)
     && (asm.ALUOp (asm.OpCode movIdx) =? asm.Mov)
     && (asm.Dst movIdx =? asm.R3)
     && (asm.OpCode movR2 =? asm.LoadImmOp_DWord)
     && (asm.Src movR2 =? asm.PseudoMapFD)
     && String.eqb (asm.Reference movR2) "cilium_calls"
  then Some (asm.Constant movIdx)
  else None.

(** [prog] makes a static tail call to [slot] that the scan of [visit]
    meets at instruction [i] with the constant [c]. *)
Definition calls_at (prog : ProgramSpec.t) (i : nat) (c slot : Z) : Prop :=
  (3 <= i < length (ProgramSpec.Instructions prog))%nat
  /\ tail_call_at prog i = Some c /\ slot = c mod 2 ^ 32.

Definition calls (prog : ProgramSpec.t) (slot : Z) : Prop :=
  exists i c, calls_at prog i c slot.

(** The slots reachable from an entrypoint through static tail calls. *)
Inductive reachable (cs : CollectionSpec.t) : Z -> Prop :=
| reach_entry k p s :
    CollectionSpec.Programs cs !! k = Some p -> candidate p = None ->
    calls p s -> reachable cs s
| reach_step k p s' s :
    CollectionSpec.Programs cs !! k = Some p -> candidate p = Some s' ->
    reachable cs s' -> calls p s -> reachable cs s.

(** The parser files every program under its own name. *)
Definition keyed_by_name (cs : CollectionSpec.t) : Prop :=
  forall k p, CollectionSpec.Programs cs !! k = Some p ->
              ProgramSpec.Name p = k.

(** No two programs are candidates for the same slot. *)
Definition distinct_slots (cs : CollectionSpec.t) : Prop :=
  forall k1 p1 k2 p2 s,
    CollectionSpec.Programs cs !! k1 = Some p1 ->
    CollectionSpec.Programs cs !! k2 = Some p2 ->
    candidate p1 = Some s -> candidate p2 = Some s -> k1 = k2.

(** A program the scan looks at: an entrypoint, or a candidate whose slot
    is reachable. *)
Definition scanned (cs : CollectionSpec.t) (p : ProgramSpec.t) : Prop :=
  candidate p = None \/ exists s, candidate p = Some s /\ reachable cs s.

(** One pass of the loop at [reset] that ends in [goto reset]. *)
Definition reset_step `{RT : GoRuntime} (round : nat)
           (tailcalls tailcalls' : gmap Z TailCall) : Prop :=
  exists slot tailcall t,
    find pending (range 155 round tailcalls) = Some (slot, tailcall)
    /\ visit (spec tailcall) tailcalls = (t, None)
    /\ tailcalls' = alter set_visited slot t.

(** The slots whose entry is not yet visited. *)
Definition unvisited (tailcalls : gmap Z TailCall) : gset Z :=
  dom (filter (fun e => visited e.2 = false) tailcalls).

(** The default program type as the claim describes it: the type of the
    first program the parser classified, and only when there is none the
    type the table gives for the first recognised name. *)
Definition infer_type_as_claimed (l : list (string * ProgramSpec.t)) : Z :=
  match find (fun np => negb (ProgramSpec.Type_ np.2 =? UnspecifiedProgram))
             l with
  | Some (_, p) => ProgramSpec.Type_ p
  | None =>
    match omap (fun np => known_entrypoint np.1) l with
    | ty :: _ => ty
    | [] => UnspecifiedProgram
    end
  end.

(** What classifyProgramTypes does to one program. *)
Definition with_default (t : Z) (p : ProgramSpec.t) : ProgramSpec.t :=
  if ProgramSpec.Type_ p =? UnspecifiedProgram
  then ProgramSpec.set_Type t p else p.

(** A program that decides nothing: not classified and not named in the
    table. *)
Definition undecided (np : string * ProgramSpec.t) : Prop :=
  ProgramSpec.Type_ np.2 = UnspecifiedProgram
  /\ known_entrypoint np.1 = None.

(** The legacy trailer of [m] decodes, in the byte order [order], to
    [{id, pinning, reserved: 0}]. *)
Definition has_trailer (order : binary.ByteOrder) (m : MapSpec.t)
           (id pinning : Z) : Prop :=
  exists extra,
    MapSpec.Extra m = Some extra /\ (16 <= length extra)%nat
    /\ binary.Uint32 order (take 4 extra) = id
    /\ binary.Uint32 order (take 4 (drop 4 extra)) = pinning
    /\ Forall (eq 0) (take 8 (drop 8 extra)).

(** The id under which the first loop of iproute2Compat registers [m]. *)
Definition trailer_id (order : binary.ByteOrder) (m : MapSpec.t)
  : option Z :=
  match MapSpec.Extra m with
  | Some extra =>
    if (0 <? length extra)%nat && (16 <=? length extra)%nat then
      let id := binary.Uint32 order (take 4 extra) in
      if id =? 0 then None else Some id
    else None
  | None => None
  end.

(** [m] after the first loop of iproute2Compat has read its trailer. *)
Definition decoded (order : binary.ByteOrder) (m : MapSpec.t)
  : MapSpec.t :=
  match MapSpec.Extra m with
  | Some extra =>
    if (0 <? length extra)%nat then
      MapSpec.set_Pinning
        (binary.Uint32 order (take 4 (drop 4 extra)))
        (MapSpec.set_Extra (Some (drop 16 extra)) m)
    else m
  | None => m
  end.

(** [m'] is [m] with more contents. *)
Definition grows (m m' : MapSpec.t) : Prop :=
  MapSpec.Name m' = MapSpec.Name m /\ MapSpec.Extra m' = MapSpec.Extra m
  /\ MapSpec.Pinning m' = MapSpec.Pinning m
  /\ exists more, MapSpec.Contents m' = MapSpec.Contents m ++ more.

End NormalizeSpec.

(** ** Numerals, for the statements about the scanner *)

(** The rune of a digit: '0'..'9', 'a'..'f'. *)
Definition digit_rune (d : Z) : Z := if d <? 10 then 48 + d else 87 + d.

(** The number a list of digits, most significant first, stands for. *)
Definition numeral_value (base : Z) (ds : list Z) : Z :=
  fold_left (fun n d => n * base + d) ds 0.

(** A numeral: at least one digit, every digit below the base. *)
Definition numeral (base : Z) (ds : list Z) : Prop :=
  ds <> [] /\ Forall (fun d => 0 <= d < base) ds.

(** The string made of the ASCII characters [rs]. *)
Definition string_of_runes (rs : list Z) : string :=
  string_of_list_ascii (map (fun r => ascii_of_N (Z.to_N r)) rs).

(** The input [rest] does not go on with a rune of [ok]. *)
Definition not_in (ok : string) (rest : list Z) : Prop :=
  match rest with
  | [] => True
  | r :: _ => fmt.indexRune ok r = false
  end.

(** A section name "<id>/<slot>" with both numbers in decimal, and one
    with the slot in hexadecimal after "0x". *)
Definition decimal_section (id slot : list Z) : string :=
  string_of_runes (map digit_rune id ++ 47 :: map digit_rune slot).
Definition hex_section (id slot : list Z) : string :=
  string_of_runes (map digit_rune id ++ 47 :: 48 :: 120 :: map digit_rune slot).


(* ===================================================================== *)
(** * A runtime, an instruction encoding and a bundle to run the model on *)
(* ===================================================================== *)

(** A runtime that meets the entries of a map in the order of its keys. *)
Definition key_order_runtime : GoRuntime :=
  {| range := fun K _ _ A _ _ m => map_to_list m;
     range_permutation := fun K _ _ A _ _ m => reflexivity (map_to_list m) |}.

(** The eBPF instruction encoding: the class is in the low three bits, the
    operation of an ALU or jump instruction in the high four. *)
Definition ebpf_opcodes : asm.OpCodes :=
  {| asm.ALUOp := fun op =>
       if (Z.land op 7 =? 4) || (Z.land op 7 =? 7)
       then Z.land op 240 else 65535;
     asm.JumpOp := fun op =>
       if (Z.land op 7 =? 5) || (Z.land op 7 =? 6)
       then Z.land op 240 else 65535;
     asm.Mov := 176;
     asm.Call := 128;
     asm.LoadImmOp_DWord := 24 |}.

Module Example.

Definition mov_r1_r6 := asm.mkInstruction 191 1 6 0 0 "".
Definition ld_calls_map := asm.mkInstruction 24 2 1 0 0 "cilium_calls".
Definition mov_r3 (n : Z) := asm.mkInstruction 183 3 0 0 n "".
Definition call_tail_call := asm.mkInstruction 133 0 0 0 12 "".
Definition exit_ := asm.mkInstruction 149 0 0 0 0 "".

(** An entrypoint with the static tail call to slot 7. *)
Definition entry : ProgramSpec.t :=
  ProgramSpec.mk "cil_from_netdev" "tc" SchedCLS
    [mov_r1_r6; ld_calls_map; mov_r3 7; call_tail_call; exit_].

Definition tail (name section : string) : ProgramSpec.t :=
  ProgramSpec.mk name section UnspecifiedProgram [mov_r1_r6; exit_].

Definition bundle_of (ps : list ProgramSpec.t) : CollectionSpec.t :=
  CollectionSpec.mk
    (list_to_map (map (fun p => (ProgramSpec.Name p, p)) ps))
    ∅ ∅ binary.LittleEndian.

(** The entrypoint and candidates at the slots 7 and 9. *)
Definition bundle : CollectionSpec.t :=
  bundle_of [entry; tail "tail_7" "2/7"; tail "tail_9" "2/9"].

Definition bundle_pruned : CollectionSpec.t :=
  bundle_of [entry; tail "tail_7" "2/7"].

(** Two candidates for slot 7, one written in hexadecimal. *)
Definition bundle_dup : CollectionSpec.t :=
  bundle_of [entry; tail "tail_7" "2/7"; tail "tail_7x" "2/0x7"].

(** The entrypoint calls slot 7, for which there is no candidate. *)
Definition bundle_missing : CollectionSpec.t :=
  bundle_of [entry; tail "tail_9" "2/9"].

(** An entrypoint that is the idiom and nothing else: the call is its
    third instruction. *)
Definition short_entry : ProgramSpec.t :=
  ProgramSpec.mk "cil_to_netdev" "tc" SchedCLS
    [ld_calls_map; mov_r3 9; call_tail_call].

Definition bundle_short : CollectionSpec.t :=
  bundle_of [short_entry; tail "tail_9" "2/9"].

(** A bundle no parser produces: the candidate for slot 9 carries the name
    of the entrypoint and is filed under another key. *)
Definition plain_entry : ProgramSpec.t :=
  ProgramSpec.mk "cil_to_host" "tc" SchedCLS [mov_r1_r6; exit_].

Definition bundle_misfiled : CollectionSpec.t :=
  CollectionSpec.mk
    (<["tail_9"%string := tail "cil_to_host" "2/9"]>
       {["cil_to_host"%string := plain_entry]})
    ∅ ∅ binary.LittleEndian.

(** A program named in the table that the parser did not classify, and
    a program it classified as a socket filter (type 1). *)
Definition bundle_types : CollectionSpec.t :=
  bundle_of [ProgramSpec.mk "cil_xdp_entry" "prog" UnspecifiedProgram
               [exit_];
             ProgramSpec.mk "handle_policy" "socket" 1 [exit_]].

(** A prog array with the legacy trailer {id: 3, pinning: 1, reserved: 0}
    in little-endian bytes. *)
Definition calls_map : MapSpec.t :=
  MapSpec.mk "cilium_calls_3"
    (Some [3; 0; 0; 0; 1; 0; 0; 0; 0; 0; 0; 0; 0; 0; 0; 0]) 0 [].

Definition bundle_compat (ps : list ProgramSpec.t) : CollectionSpec.t :=
  CollectionSpec.mk
    (list_to_map (map (fun p => (ProgramSpec.Name p, p)) ps))
    {["cilium_calls_3"%string := calls_map]} ∅ binary.LittleEndian.

End Example.

(** A small kernel to run the load on.  Its state is the set of map names
    that have a pin on the bpf file system which no specification of that
    name is compatible with, and whether pins can be opened at all.  A map
    is pinned by name when its pin type is 1; the flag CILIUM_PIN_REPLACE
    is bit 4 of the pin type. *)
Module Toy.

Record kernel := mkKernel { stale_pins : list string; readable : bool }.

Definition clashes (k : kernel) (m : MapSpec.t) : bool :=
  (MapSpec.Pinning m =? 1)
  && bool_decide (MapSpec.Name m ∈ stale_pins k).

Definition new_collection (cs : CollectionSpec.t) (_ : unit) (k : kernel)
  : (gmap string string + KernelError) * kernel :=
  if bool_decide (map_Exists (fun _ m => clashes k m = true)
                             (CollectionSpec.Maps cs))
  then (inr (mkKernelError true "map incompatible with its pin"), k)
  else (inl (MapSpec.Name <$> CollectionSpec.Maps cs), k).

Definition consume_pin_replace (cs : CollectionSpec.t)
  : CollectionSpec.t * list string :=
  (CollectionSpec.set_Maps
     ((fun m => MapSpec.set_Pinning (Z.ldiff (MapSpec.Pinning m) 16) m)
        <$> CollectionSpec.Maps cs) cs,
   (map_to_list
      (filter (fun e => Z.testbit (MapSpec.Pinning e.2) 4 = true)
              (CollectionSpec.Maps cs))).*1).

Definition incompatible_maps (cs : CollectionSpec.t) (_ : unit)
           (k : kernel) : CollectionSpec.t * (list string + KernelError) :=
  if readable k then
    (CollectionSpec.set_Maps
       ((fun m => if clashes k m then MapSpec.set_Pinning 0 m else m)
          <$> CollectionSpec.Maps cs) cs,
     inl (map_to_list
            (filter (fun e => clashes k e.2 = true)
                    (CollectionSpec.Maps cs))).*1)
  else (cs, inr (mkKernelError false "cannot open the pin")).

Definition commit_map_pins (pins : list (string * string)) (k : kernel)
  : option KernelError * kernel :=
  (None,
   mkKernel (filter (fun n => n ∉ pins.*2) (stale_pins k)) (readable k)).

Definition externals : Externals :=
  {| Kernel := kernel;
     MapHandle := string;
     ebpfCollectionOptions := unit;
     zero_options := tt;
     Obj := gmap string (list Z);
     StructToMap := Some;
     ConstantPrefix := "__config_";
     Section_ := ".rodata.config";
     NewCollectionWithOptions := new_collection;
     consumePinReplace := consume_pin_replace;
     incompatibleMaps := incompatible_maps;
     commitMapPins := commit_map_pins |}.

(** A specification with one map pinned by name and one configuration
    variable of four bytes. *)
Definition spec : CollectionSpec.t :=
  CollectionSpec.mk ∅
    {["cilium_policy"%string := MapSpec.mk "cilium_policy" None 1 []]}
    {["__config_mtu"%string :=
        VariableSpec.mk "__config_mtu" ".rodata.config" 4 [0; 0; 0; 0]]}
    binary.LittleEndian.

(** The caller holds [spec] at location 1; the kernel has a stale pin for
    its map. *)
Definition world (readable : bool) : @World externals :=
  @mkWorld externals {[1%positive := spec]}
           (mkKernel ["cilium_policy"%string] readable) [].

End Toy.

(* ===================================================================== *)
(** * Notions the statements about Stage B are written with *)
(* ===================================================================== *)

Section LoadSpec.

Context `{RT : GoRuntime} `{EXT : Externals}.


(** Every object of the memory [w] is in [w'] as it was. *)
Definition unchanged (w w' : World) : Prop :=
  forall l v, heap w !! l = Some v -> heap w' !! l = Some v.

(** The computation [m] writes to no object but the one at [l], and
    allocates none. *)
Definition writes_only {A} (l : positive) (m : M A) : Prop :=
  forall w l', l' <> l -> heap (m w).2 !! l' = heap w !! l'.

(** The computation [m] leaves the kernel and the record of loads alone
    and keeps the object at [l] allocated. *)
Definition local (l : positive) {A} (m : M A) : Prop :=
  forall w,
    kernel (m w).2 = kernel w /\ loads (m w).2 = loads w
    /\ (is_Some (heap w !! l) -> is_Some (heap (m w).2 !! l)).

(** [prepare] after the copy is made. *)
Definition prepare_rest (spec : positive) (opts : CollectionOptions)
  : M (positive * CollectionOptions * list string) :=
  bind (check id (through spec (fun v => renameMaps v (MapRenames opts))))
    (fun _ =>
  bind (check ErrApplyingOverrides
          (through spec (fun v => applyConstants v (Constants opts))))
    (fun _ =>
  bind (through spec consumePinReplace)
    (fun toReplace => ret (spec, opts, toReplace)))).

End LoadSpec.

(* ===================================================================== *)
(** * Notions the further statements are written with *)
(* ===================================================================== *)

(** A trailer that [binary.Read] cannot read: some bytes, fewer than 16. *)
Definition short_trailer (m : MapSpec.t) : Prop :=
  exists extra, MapSpec.Extra m = Some extra
                /\ (0 < length extra < 16)%nat.

(** [m'] is [m] under the same name, with its contents and more. *)
Definition extends (m m' : MapSpec.t) : Prop :=
  MapSpec.Name m' = MapSpec.Name m
  /\ exists more, MapSpec.Contents m' = MapSpec.Contents m ++ more.

Definition maps_extend (Maps Maps' : gmap string MapSpec.t) : Prop :=
  forall key,
    match Maps !! key with
    | None => Maps' !! key = None
    | Some m => exists m', Maps' !! key = Some m' /\ extends m m'
    end.

(** Every static tail call of a scanned program goes to a slot that some
    program is a candidate for. *)
Definition calls_resolve `{OPS : asm.OpCodes} (cs : CollectionSpec.t)
  : Prop :=
  forall k p i c s,
    CollectionSpec.Programs cs !! k = Some p -> scanned cs p ->
    calls_at p i c s ->
    exists k' p', CollectionSpec.Programs cs !! k' = Some p'
                  /\ candidate p' = Some s.

(** [m'] is [m] under a name that may be another. *)
Definition renamed (m m' : MapSpec.t) : Prop :=
  MapSpec.Extra m' = MapSpec.Extra m
  /\ MapSpec.Pinning m' = MapSpec.Pinning m
  /\ MapSpec.Contents m' = MapSpec.Contents m.

(** [v'] is [v] with a value that may be another. *)
Definition same_variable (v v' : VariableSpec.t) : Prop :=
  VariableSpec.Name v' = VariableSpec.Name v
  /\ VariableSpec.MapName v' = VariableSpec.MapName v
  /\ VariableSpec.size v' = VariableSpec.size v.

Section Refusal.

Context `{EXT : Externals}.

(** Why [constant_body] refuses the field [name] with the error [e]. *)
Definition refused (vars : gmap string VariableSpec.t) (name : string)
           (value : list Z) (e : Error) : Prop :=
  match vars !! (ConstantPrefix ++ name)%string with
  | None => e = ErrNonExistentVariable name
  | Some v =>
    if decide (VariableSpec.MapName v = Section_) then
      length value <> VariableSpec.size v /\ e = ErrSettingVariable name
    else e = ErrVariableSection (VariableSpec.MapName v) name
  end.

End Refusal.

(** ** Another runtime and more bundles *)

(** A runtime that meets the entries of a map in the reverse order of its
    keys. *)
Definition reverse_order_runtime : GoRuntime :=
  {| range := fun K _ _ A _ _ m => reverse (map_to_list m);
     range_permutation :=
       fun K _ _ A _ _ m => reverse_Permutation (map_to_list m) |}.

(** The calls map of the datapath: a prog array with the legacy trailer
    {id: 2, pinning: 2, reserved: 0} in little-endian bytes. *)
Definition cilium_calls : MapSpec.t :=
  MapSpec.mk "cilium_calls"
    (Some [2; 0; 0; 0; 2; 0; 0; 0; 0; 0; 0; 0; 0; 0; 0; 0]) 0 [].

(** The bundle of the entrypoint and the candidates at the slots 7 and 9,
    with the calls map. *)
Definition bundle_with_calls : CollectionSpec.t :=
  CollectionSpec.mk (CollectionSpec.Programs Example.bundle)
    {["cilium_calls"%string := cilium_calls]} ∅ binary.LittleEndian.

(** What LoadCollectionSpec makes of it: the candidate at slot 9 is gone,
    the one at slot 7 has the type of the entrypoint and its slot in the
    calls map, whose trailer is read. *)
Definition bundle_normalised : CollectionSpec.t :=
  CollectionSpec.mk
    (list_to_map
       [("cil_from_netdev"%string, Example.entry);
        ("tail_7"%string,
         ProgramSpec.set_Type SchedCLS (Example.tail "tail_7" "2/7"))])
    {["cilium_calls"%string :=
        MapSpec.mk "cilium_calls" (Some []) 2
          [MapKV.mk (AnyUint32 7) (AnyString "tail_7")]]}
    ∅ binary.LittleEndian.


(* ===================================================================== *)
(** * Loops and iteration orders *)
(* ===================================================================== *)

Section Loops.

Context `{RT : GoRuntime}.

Lemma range_lookup `{Countable K} {A} (line round : nat) (m : gmap K A)
      (k : K) (a : A) :
  (k, a) ∈ range line round m <-> m !! k = Some a.
Proof.
  rewrite (range_permutation _ _ _ line round m).
  apply elem_of_map_to_list.
Qed.

Lemma range_NoDup_fst `{Countable K} {A} (line round : nat)
      (m : gmap K A) :
  NoDup (range line round m).*1.
Proof.
  rewrite (range_permutation _ _ _ line round m).
  apply NoDup_fst_map_to_list.
Qed.

Lemma range_length `{Countable K} {A} (line round : nat) (m : gmap K A) :
  length (range line round m) = size m.
Proof.
  rewrite (range_permutation _ _ _ line round m).
  by rewrite length_map_to_list.
Qed.

Lemma for_each_app {S A E} (body : A -> S -> S * option E) l1 l2 s :
  for_each body (l1 ++ l2) s =
  match for_each body l1 s with
  | (s', None) => for_each body l2 s'
  | r => r
  end.
Proof.
  revert s. induction l1 as [|a l1 IH]; intros s; simpl; [done|].
  destruct (body a s) as [s' [e|]]; [done|]. apply IH.
Qed.

(** A loop whose body keeps an invariant, and whose errors satisfy [Q],
    keeps the invariant and fails only with [Q]. *)
Lemma for_each_ind {S A E} (body : A -> S -> S * option E)
      (P : S -> Prop) (Q : E -> Prop) l s :
  P s ->
  (forall a s s' e, a ∈ l -> P s -> body a s = (s', e) ->
                    P s' /\ from_option Q True e) ->
  P (for_each body l s).1 /\ from_option Q True (for_each body l s).2.
Proof.
  revert s. induction l as [|a l IH]; intros s Hs Hbody; simpl; [done|].
  destruct (body a s) as [s' e] eqn:Hb.
  destruct (Hbody a s s' e) as [Hs' He]; [left|done|done|].
  destruct e as [e|]; simpl; [done|].
  apply IH; [done|]. intros. eapply Hbody; [by right|done..].
Qed.

End Loops.

(* ===================================================================== *)
(** * removeUnreachableTailcalls *)
(* ===================================================================== *)

Section Tailcalls.

Context `{RT : GoRuntime} `{OPS : asm.OpCodes}.

Implicit Types (tcs : gmap Z TailCall) (prog p : ProgramSpec.t).

(** ** The partition into entrypoints and candidates *)

Lemma partition_body_eq kp eps tcs :
  partition_body kp (eps, tcs) =
  match candidate kp.2 with
  | None => ((eps ++ [kp.2], tcs), None)
  | Some slot =>
    match tcs !! slot with
    | Some _ => ((eps, tcs), Some (ErrDuplicateTailCall slot))
    | None => ((eps, <[slot := mkTailCall false false kp.2]> tcs), None)
    end
  end.
Proof.
  unfold partition_body, candidate.
  destruct (fmt.Sscanf_d_slash_v _) as [[id slot]|]; [|done].
  by destruct (id =? cilium_calls_map).
Qed.

Definition slots_of (l : list (string * ProgramSpec.t)) : list Z :=
  omap (fun kp => candidate kp.2) l.

Lemma elem_of_slots_of l s :
  s ∈ slots_of l <-> exists kp, kp ∈ l /\ candidate kp.2 = Some s.
Proof. unfold slots_of. by rewrite list_elem_of_omap. Qed.

Lemma partition_ok l eps tcs eps' tcs' :
  for_each partition_body l (eps, tcs) = ((eps', tcs'), None) ->
  NoDup (slots_of l)
  /\ (forall s, s ∈ slots_of l -> tcs !! s = None)
  /\ (forall p, p ∈ eps' <->
                p ∈ eps \/ exists k, (k, p) ∈ l /\ candidate p = None)
  /\ (forall s tc, tcs' !! s = Some tc <->
                   tcs !! s = Some tc
                   \/ exists k, (k, spec tc) ∈ l
                                /\ candidate (spec tc) = Some s
                                /\ tc = mkTailCall false false (spec tc)).
Proof.
  revert eps tcs. induction l as [|[k p] l IH]; intros eps tcs.
  - simpl. intros [= <- <-]. split_and!; [constructor|set_solver|..].
    + intros p. split; [by left|]. intros [?|(?&H&_)]; [done|].
      by apply elem_of_nil in H.
    + intros s tc. split; [by left|]. intros [?|(?&H&_)]; [done|].
      by apply elem_of_nil in H.
  - cbn [for_each]. rewrite partition_body_eq. unfold slots_of.
    cbn [omap list_omap snd].
    destruct (candidate p) as [slot|] eqn:Hc.
    + destruct (tcs !! slot) eqn:Hslot; [done|].
      intros Hrec. apply IH in Hrec as (Hnd & Hfresh & Heps & Htcs).
      split_and!.
      * constructor; [|done]. intros Hin. apply Hfresh in Hin.
        by rewrite lookup_insert_eq in Hin.
      * intros s [->|Hin]%elem_of_cons; [done|].
        apply Hfresh in Hin. rewrite lookup_insert in Hin.
        by case_decide.
      * intros q. rewrite Heps. split.
        -- intros [?|(k'&Hin&Hq)]; [by left|]. right. exists k'.
           split; [by right|done].
        -- intros [?|(k'&Hin&Hq)]; [by left|]. right. exists k'.
           apply elem_of_cons in Hin as [[= -> ->]|Hin]; [congruence|done].
      * intros s tc. rewrite Htcs. rewrite lookup_insert.
        case_decide as Hs; subst.
        -- split.
           ++ intros [[= <-]|(k'&Hin&Hq&_)].
              ** right. exists k. simpl. split; [left|done].
              ** exfalso. assert (s ∈ slots_of l) as Hs
                   by (apply elem_of_slots_of; eauto).
                 apply Hfresh in Hs. by rewrite lookup_insert_eq in Hs.
           ++ intros [?|(k'&Hin&Hq&Htc)]; [congruence|].
              apply elem_of_cons in Hin as [[= -> Hp]|Hin].
              ** left. by rewrite Htc, <- Hp.
              ** right. eauto.
        -- split.
           ++ intros [?|(k'&Hin&Hq&?)]; [by left|]. right. exists k'.
              split; [by right|done].
           ++ intros [?|(k'&Hin&Hq&?)]; [by left|]. right. exists k'.
              apply elem_of_cons in Hin as [[= -> Hp]|Hin];
                [rewrite Hp in Hq; congruence|done].
    + intros Hrec. apply IH in Hrec as (Hnd & Hfresh & Heps & Htcs).
      split_and!; [done|done|..].
      * intros q. rewrite Heps, elem_of_app, list_elem_of_singleton.
        split.
        -- intros [[?| ->]|(k'&Hin&Hq)]; [by left|..].
           ++ right. exists k. split; [left|done].
           ++ right. exists k'. split; [by right|done].
        -- intros [?|(k'&Hin&Hq)]; [by left; left|].
           apply elem_of_cons in Hin as [[= -> ->]|Hin];
             [by left; right|right; eauto].
      * intros s tc. rewrite Htcs. split.
        -- intros [?|(k'&Hin&?)]; [by left|]. right. exists k'.
           split; [by right|done].
        -- intros [?|(k'&Hin&Hq&?)]; [by left|]. right. exists k'.
           apply elem_of_cons in Hin as [[= -> Hp]|Hin];
             [rewrite Hp in Hq; congruence|done].
Qed.

Lemma slots_of_NoDup_inj l x y s :
  NoDup (slots_of l) -> NoDup l.*1 -> x ∈ l -> y ∈ l ->
  candidate x.2 = Some s -> candidate y.2 = Some s -> x = y.
Proof.
  induction l as [|a l IH]; [by intros _ _ ?%elem_of_nil|].
  unfold slots_of. cbn [omap list_omap fmap list_fmap].
  intros Hnd Hk Hx Hy Hcx Hcy.
  apply NoDup_cons in Hk as [_ Hk].
  assert (forall z, z ∈ l -> candidate z.2 = Some s ->
                    candidate a.2 = Some s -> False) as Hno.
  { intros z Hz Hcz Hca. rewrite Hca in Hnd.
    apply NoDup_cons in Hnd as [Hnd _]. apply Hnd.
    apply elem_of_slots_of. eauto. }
  assert (NoDup (slots_of l)) as Hnd'.
  { destruct (candidate a.2); [by apply NoDup_cons in Hnd as [_ ?]|done]. }
  apply elem_of_cons in Hx as [->|Hx], Hy as [->|Hy]; [done|..].
  - exfalso. eauto.
  - exfalso. eauto.
  - by apply IH.
Qed.

Lemma partition_err l eps tcs st e :
  for_each partition_body l (eps, tcs) = (st, Some e) ->
  exists s j y,
    e = ErrDuplicateTailCall s /\ l !! j = Some y
    /\ candidate y.2 = Some s
    /\ (is_Some (tcs !! s)
        \/ exists i x, (i < j)%nat /\ l !! i = Some x
                       /\ candidate x.2 = Some s).
Proof.
  revert eps tcs. induction l as [|[k p] l IH]; intros eps tcs; [done|].
  cbn [for_each]. rewrite partition_body_eq. cbn [snd].
  destruct (candidate p) as [slot|] eqn:Hc.
  - destruct (tcs !! slot) eqn:Hslot.
    + intros [= <- <-]. exists slot, 0%nat, (k, p). eauto 10.
    + intros (s & j & y & -> & Hj & Hy & Hdup)%IH.
      exists s, (S j), y. split_and!; [done..|].
      rewrite lookup_insert in Hdup. case_decide as Hs.
      * subst. right. exists 0%nat, (k, p).
        split_and!; [lia|done..].
      * destruct Hdup as [?|(i & x & ? & ? & ?)]; [by left|].
        right. exists (S i), x. split_and!; [lia|done..].
  - intros (s & j & y & -> & Hj & Hy & Hdup)%IH.
    exists s, (S j), y. split_and!; [done..|].
    destruct Hdup as [?|(i & x & ? & ? & ?)]; [by left|].
    right. exists (S i), x. split_and!; [lia|done..].
Qed.

(** ** The scan of one program *)

Lemma visit_body_eq prog i tcs :
  visit_body prog i tcs =
  match tail_call_at prog i with
  | None => (tcs, None)
  | Some c =>
    match tcs !! (c mod 2 ^ 32) with
    | None =>
      (tcs, Some (ErrUnknownTailCall (ProgramSpec.SectionName prog)
                                     (ProgramSpec.Name prog) c i))
    | Some tc => (<[c mod 2 ^ 32 := set_referenced tc]> tcs, None)
    end
  end.
Proof.
  unfold visit_body, tail_call_at.
  destruct (asm.IsBuiltinCall _); [|done].
  destruct (asm.Constant _ =? asm.FnTailCall); [|done].
  destruct (asm.ALUOp _ =? asm.Mov); [|done].
  destruct (asm.Dst _ =? asm.R3); [|done].
  destruct (asm.OpCode _ =? asm.LoadImmOp_DWord); [|done].
  destruct (asm.Src _ =? asm.PseudoMapFD); [|done].
  by destruct (String.eqb _ _).
Qed.

(** [tcs'] is [tcs] with more entries referenced, all of them among
    [S]. *)
Definition marks (S : Z -> Prop) tcs tcs' : Prop :=
  forall s, tcs' !! s = tcs !! s
            \/ exists tc, tcs !! s = Some tc
                          /\ tcs' !! s = Some (set_referenced tc) /\ S s.

Lemma marks_refl S tcs : marks S tcs tcs.
Proof. by left. Qed.

Lemma marks_trans (S : Z -> Prop) tcs1 tcs2 tcs3 :
  marks S tcs1 tcs2 -> marks S tcs2 tcs3 -> marks S tcs1 tcs3.
Proof.
  intros H12 H23 s. destruct (H12 s) as [E12|(a & Ha & Ha' & HS)],
    (H23 s) as [E23|(b & Hb & Hb' & HS')].
  - left. congruence.
  - right. exists b. split_and!; [congruence|done..].
  - right. exists a. split_and!; [congruence|congruence|done].
  - right. exists a. rewrite Ha' in Hb. injection Hb as <-.
    split_and!; [done| |done]. rewrite Hb'. by destruct a.
Qed.

Lemma marks_weaken (S S' : Z -> Prop) tcs tcs' :
  (forall s, S s -> S' s) -> marks S tcs tcs' -> marks S' tcs tcs'.
Proof.
  intros HS H s. destruct (H s) as [?|(a & ? & ? & ?)]; [by left|].
  right. eauto.
Qed.

Lemma marks_None S tcs tcs' s :
  marks S tcs tcs' -> tcs' !! s = None <-> tcs !! s = None.
Proof.
  intros H. destruct (H s) as [->|(a & -> & -> & _)]; [done|].
  split; discriminate.
Qed.

Lemma marks_referenced S tcs tcs' s tc :
  marks S tcs tcs' -> tcs !! s = Some tc -> referenced tc = true ->
  exists tc', tcs' !! s = Some tc' /\ referenced tc' = true.
Proof.
  intros H Hs Hr. destruct (H s) as [E|(a & Ha & Ha' & _)].
  - exists tc. by rewrite E.
  - eauto.
Qed.

Lemma scan_spec prog (idx : list nat) tcs :
  let S := fun s => exists i c, i ∈ idx /\ tail_call_at prog i = Some c
                                /\ s = c mod 2 ^ 32 in
  let r := for_each (visit_body prog) idx tcs in
  marks S tcs r.1
  /\ match r.2 with
     | None =>
       forall s, S s ->
                 exists tc, r.1 !! s = Some tc /\ referenced tc = true
     | Some e =>
       exists i c, i ∈ idx /\ tail_call_at prog i = Some c
                   /\ tcs !! (c mod 2 ^ 32) = None
                   /\ e = ErrUnknownTailCall (ProgramSpec.SectionName prog)
                                             (ProgramSpec.Name prog) c i
     end.
Proof.
  revert tcs. induction idx as [|i idx IH]; intros tcs S r.
  - subst r S. simpl. split; [apply marks_refl|].
    intros s (i & c & []%elem_of_nil & _).
  - subst r. cbn [for_each]. rewrite visit_body_eq.
    destruct (tail_call_at prog i) as [c|] eqn:Hc.
    + destruct (tcs !! (c mod 2 ^ 32)) as [tc|] eqn:Hs.
      * specialize (IH (<[c mod 2 ^ 32 := set_referenced tc]> tcs)).
        cbv zeta in IH. destruct IH as [Hm IH].
        assert (marks S tcs (<[c mod 2 ^ 32 := set_referenced tc]> tcs))
          as Hm1.
        { intros s. rewrite lookup_insert. case_decide; [|by left].
          subst s. right. exists tc. split_and!; [done..|].
          exists i, c. split_and!; [left|done..]. }
        assert (marks S tcs
                  (for_each (visit_body prog) idx
                     (<[c mod 2 ^ 32 := set_referenced tc]> tcs)).1) as Hm2.
        { eapply marks_trans; [done|]. eapply marks_weaken; [|done].
          intros s (i' & c' & ? & ? & ?). exists i', c'.
          split_and!; [by right|done..]. }
        split; [done|].
        destruct (for_each _ _ _) as [tcs' [e|]]; cbn [fst snd] in *.
        -- destruct IH as (i' & c' & Hi' & Hc' & Hn & ->).
           exists i', c'. split_and!; [by right|done| |done].
           by apply (marks_None _ _ _ _ Hm1).
        -- intros s (i' & c' & [->|Hi']%elem_of_cons & Hc' & ->).
           ++ rewrite Hc in Hc'. injection Hc' as <-.
              eapply marks_referenced; [apply Hm|apply lookup_insert_eq|].
              done.
           ++ apply IH. eauto.
      * cbn [fst snd]. split; [apply marks_refl|].
        exists i, c. split_and!; [left|done..].
    + specialize (IH tcs). cbv zeta in IH. destruct IH as [Hm IH]. split.
      * eapply marks_weaken; [|done].
        intros s (i' & c' & ? & ? & ?). exists i', c'.
        split_and!; [by right|done..].
      * destruct (for_each _ _ _) as [tcs' [e|]]; cbn [fst snd] in *.
        -- destruct IH as (i' & c' & Hi' & Hc' & Hn & ->).
           exists i', c'. split_and!; [by right|done..].
        -- intros s (i' & c' & [->|Hi']%elem_of_cons & Hc' & ->);
             [congruence|]. apply IH. eauto.
Qed.

Lemma calls_seq prog s :
  calls prog s <->
  exists i c, i ∈ seq 3 (length (ProgramSpec.Instructions prog) - 3)
              /\ tail_call_at prog i = Some c /\ s = c mod 2 ^ 32.
Proof.
  unfold calls, calls_at.
  split; intros (i & c & Hi & ?); exists i, c; (split; [|done]).
  - apply elem_of_seq. lia.
  - apply elem_of_seq in Hi. lia.
Qed.

Lemma visit_marks prog tcs :
  marks (calls prog) tcs (visit prog tcs).1.
Proof.
  eapply marks_weaken; [|apply (scan_spec prog)].
  intros s. by rewrite calls_seq.
Qed.

Lemma visit_ok prog tcs tcs' :
  visit prog tcs = (tcs', None) ->
  forall s, calls prog s ->
            exists tc, tcs' !! s = Some tc /\ referenced tc = true.
Proof.
  intros Hv s Hs%calls_seq.
  pose proof (scan_spec prog
    (seq 3 (length (ProgramSpec.Instructions prog) - 3)) tcs) as [_ H].
  cbv zeta in H. unfold visit in Hv. rewrite Hv in H. by apply H.
Qed.

Lemma visit_err prog tcs tcs' e :
  visit prog tcs = (tcs', Some e) ->
  exists i c s,
    calls_at prog i c s /\ tcs !! s = None
    /\ e = ErrUnknownTailCall (ProgramSpec.SectionName prog)
                              (ProgramSpec.Name prog) c i.
Proof.
  intros Hv.
  pose proof (scan_spec prog
    (seq 3 (length (ProgramSpec.Instructions prog) - 3)) tcs) as [_ H].
  cbv zeta in H. unfold visit in Hv. rewrite Hv in H.
  destruct H as (i & c & Hi & Hc & Hn & ->).
  exists i, c, (c mod 2 ^ 32). split; [|done].
  unfold calls_at. split; [|done]. apply elem_of_seq in Hi. lia.
Qed.

Lemma entry_visits (eps : list ProgramSpec.t) tcs :
  let r := for_each visit eps tcs in
  marks (fun s => exists p, p ∈ eps /\ calls p s) tcs r.1
  /\ match r.2 with
     | None =>
       forall p s, p ∈ eps -> calls p s ->
                   exists tc, r.1 !! s = Some tc /\ referenced tc = true
     | Some e =>
       exists p i c s,
         p ∈ eps /\ calls_at p i c s /\ tcs !! s = None
         /\ e = ErrUnknownTailCall (ProgramSpec.SectionName p)
                                   (ProgramSpec.Name p) c i
     end.
Proof.
  revert tcs. induction eps as [|p eps IH]; intros tcs r.
  - subst r. simpl. split; [apply marks_refl|].
    by intros p s ?%elem_of_nil.
  - subst r. cbn [for_each].
    pose proof (visit_marks p tcs) as Hm1.
    destruct (visit p tcs) as [t1 [e|]] eqn:Hv; cbn [fst snd] in *.
    + split.
      * eapply marks_weaken; [|done]. intros s ?. exists p.
        split; [left|done].
      * apply visit_err in Hv as (i & c & s & ? & ? & ->).
        exists p, i, c, s. split_and!; [left|done..].
    + specialize (IH t1). cbv zeta in IH. destruct IH as [Hm2 IH].
      split.
      * eapply marks_trans.
        -- eapply marks_weaken; [|apply Hm1]. intros s ?. exists p.
           split; [left|done].
        -- eapply marks_weaken; [|apply Hm2]. intros s (q & ? & ?).
           exists q. split; [by right|done].
      * destruct (for_each visit eps t1) as [t2 [e|]]; cbn [fst snd] in *.
        -- destruct IH as (q & i & c & s & ? & ? & Hn & ->).
           exists q, i, c, s. split_and!; [by right|done| |done].
           by apply (marks_None _ _ _ _ Hm1).
        -- intros q s [->|Hq]%elem_of_cons Hs; [|by eapply IH].
           destruct (visit_ok _ _ _ Hv s Hs) as (tc & Htc & Hr).
           eapply marks_referenced; done.
Qed.

(** ** The fixed point *)

Section Invariant.

Variable cs : CollectionSpec.t.
Variable eps : list ProgramSpec.t.
Variable T0 : gmap Z TailCall.
Hypothesis Hpart :
  for_each partition_body (range 65 0 (CollectionSpec.Programs cs))
           ([], ∅) = ((eps, T0), None).

Lemma entrypoints_spec p :
  p ∈ eps <->
  exists k, CollectionSpec.Programs cs !! k = Some p
            /\ candidate p = None.
Proof.
  destruct (partition_ok _ _ _ _ _ Hpart) as (_ & _ & H & _).
  rewrite H. setoid_rewrite range_lookup. split.
  - by intros [?%elem_of_nil|?].
  - by right.
Qed.

Lemma table_spec s tc :
  T0 !! s = Some tc <->
  exists k, CollectionSpec.Programs cs !! k = Some (spec tc)
            /\ candidate (spec tc) = Some s
            /\ tc = mkTailCall false false (spec tc).
Proof.
  destruct (partition_ok _ _ _ _ _ Hpart) as (_ & _ & _ & H).
  rewrite H. setoid_rewrite range_lookup. split.
  - by intros [?|?].
  - by right.
Qed.

Lemma table_candidate k p s :
  CollectionSpec.Programs cs !! k = Some p -> candidate p = Some s ->
  T0 !! s = Some (mkTailCall false false p).
Proof. intros. apply table_spec. simpl. eauto. Qed.

Lemma candidate_unique k1 p1 k2 p2 s :
  CollectionSpec.Programs cs !! k1 = Some p1 ->
  CollectionSpec.Programs cs !! k2 = Some p2 ->
  candidate p1 = Some s -> candidate p2 = Some s ->
  k1 = k2 /\ p1 = p2.
Proof.
  intros H1 H2 Hc1 Hc2.
  destruct (partition_ok _ _ _ _ _ Hpart) as (Hnd & _).
  assert ((k1, p1) = (k2, p2)) as [= -> ->]; [|done].
  eapply slots_of_NoDup_inj;
    [done|apply range_NoDup_fst|by apply range_lookup..|done|done].
Qed.

(** What holds of the table at the head of the loop at [reset]. *)
Record Inv tcs : Prop := {
  inv_shape : forall s, spec <$> tcs !! s = spec <$> T0 !! s;
  inv_sound : forall s tc,
      tcs !! s = Some tc -> referenced tc = true -> reachable cs s;
  inv_entry : forall p s,
      p ∈ eps -> calls p s ->
      exists tc, tcs !! s = Some tc /\ referenced tc = true;
  inv_closed : forall s tc,
      tcs !! s = Some tc -> visited tc = true ->
      referenced tc = true
      /\ forall s', calls (spec tc) s' ->
                    exists tc', tcs !! s' = Some tc'
                                /\ referenced tc' = true
}.

Lemma marks_lookup S tcs tcs' s tc' :
  marks S tcs tcs' -> tcs' !! s = Some tc' ->
  exists tc, tcs !! s = Some tc /\ spec tc' = spec tc
             /\ visited tc' = visited tc
             /\ (referenced tc' = referenced tc
                 \/ referenced tc' = true /\ S s).
Proof.
  intros H Hs. destruct (H s) as [E|(a & Ha & Ha' & HS)].
  - exists tc'. rewrite <- E. eauto.
  - exists a. rewrite Hs in Ha'. injection Ha' as ->. eauto 6.
Qed.

Lemma Inv_marks S tcs tcs' :
  Inv tcs -> marks S tcs tcs' -> (forall s, S s -> reachable cs s) ->
  Inv tcs'.
Proof.
  intros [Hsh Hso Hen Hcl] Hm HS. split.
  - intros s. rewrite <- Hsh.
    destruct (Hm s) as [->|(a & -> & -> & _)]; done.
  - intros s tc' Hs Hr.
    destruct (marks_lookup _ _ _ _ _ Hm Hs)
      as (tc & Htc & _ & _ & [E|[_ ?]]); [|by apply HS].
    eapply Hso; [done|congruence].
  - intros p s Hp Hc. destruct (Hen p s Hp Hc) as (tc & ? & ?).
    eapply marks_referenced; done.
  - intros s tc' Hs Hv.
    destruct (marks_lookup _ _ _ _ _ Hm Hs)
      as (tc & Htc & Hsp & Hvi & Href).
    destruct (Hcl s tc Htc) as [Hr Hcallee]; [congruence|]. split.
    + destruct Href as [?|[? _]]; congruence.
    + intros s' Hc. rewrite Hsp in Hc.
      destruct (Hcallee s' Hc) as (a & ? & ?).
      eapply marks_referenced; done.
Qed.

Lemma Inv_visited tcs slot tc :
  Inv tcs -> tcs !! slot = Some tc -> referenced tc = true ->
  (forall s', calls (spec tc) s' ->
              exists tc', tcs !! s' = Some tc'
                          /\ referenced tc' = true) ->
  Inv (alter set_visited slot tcs).
Proof.
  intros [Hsh Hso Hen Hcl] Hslot Hr Hcallee.
  assert (forall s a, tcs !! s = Some a -> referenced a = true ->
            exists a', alter set_visited slot tcs !! s = Some a'
                       /\ referenced a' = true) as Hkeep.
  { intros s a Hs Ha. rewrite lookup_alter. case_decide.
    - subst. rewrite Hs. simpl. eauto.
    - eauto. }
  split.
  - intros s. rewrite <- Hsh, lookup_alter. case_decide; [|done].
    subst. by destruct (tcs !! s).
  - intros s a. rewrite lookup_alter. case_decide.
    + subst. rewrite Hslot. intros [= <-] _. by eapply Hso.
    + apply Hso.
  - intros p s Hp Hc. destruct (Hen p s Hp Hc) as (a & ? & ?). eauto.
  - intros s a. rewrite lookup_alter. case_decide.
    + subst. rewrite Hslot. intros [= <-] _. split; [done|].
      intros s' Hc. destruct (Hcallee s' Hc) as (a & ? & ?). eauto.
    + intros Hs Hv. destruct (Hcl s a Hs Hv) as [? Hc]. split; [done|].
      intros s' Hs'. destruct (Hc s' Hs') as (a' & ? & ?). eauto.
Qed.

Lemma Inv_program tcs s tc :
  Inv tcs -> tcs !! s = Some tc ->
  exists k, CollectionSpec.Programs cs !! k = Some (spec tc)
            /\ candidate (spec tc) = Some s.
Proof.
  intros [Hsh _ _ _] Hs. specialize (Hsh s). rewrite Hs in Hsh.
  destruct (T0 !! s) as [t0|] eqn:Ht0; [|done].
  injection Hsh as Hsp. apply table_spec in Ht0 as (k & ? & ? & _).
  exists k. by rewrite Hsp.
Qed.

Lemma Inv_entry T1 :
  for_each visit eps T0 = (T1, None) -> Inv T1.
Proof.
  intros Hv. pose proof (entry_visits eps T0) as [Hm Hen].
  cbv zeta in Hm, Hen. rewrite Hv in Hm, Hen. cbn [fst snd] in *.
  split.
  - intros s. destruct (Hm s) as [->|(a & -> & -> & _)]; done.
  - intros s tc' Hs Hr.
    destruct (marks_lookup _ _ _ _ _ Hm Hs)
      as (tc & Htc & _ & _ & [E|[_ (p & Hp & Hc)]]).
    + apply table_spec in Htc as (_ & _ & _ & Htc).
      rewrite Htc, Hr in E. done.
    + apply entrypoints_spec in Hp as (k & ? & ?).
      by eapply reach_entry.
  - done.
  - intros s tc' Hs Hvi.
    destruct (marks_lookup _ _ _ _ _ Hm Hs) as (tc & Htc & _ & E & _).
    apply table_spec in Htc as (_ & _ & _ & Htc).
    rewrite Htc, Hvi in E. done.
Qed.

Lemma Inv_None tcs s : Inv tcs -> tcs !! s = None <-> T0 !! s = None.
Proof.
  intros [Hsh _ _ _]. specialize (Hsh s).
  destruct (tcs !! s), (T0 !! s); done.
Qed.

Lemma find_pending round tcs slot tc :
  find pending (range 155 round tcs) = Some (slot, tc) ->
  tcs !! slot = Some tc /\ referenced tc = true /\ visited tc = false.
Proof.
  intros [Hin Hp]%find_some.
  apply list_elem_of_In, range_lookup in Hin.
  unfold pending in Hp. cbn [snd] in Hp.
  apply andb_true_iff in Hp as [? ?%negb_true_iff]. done.
Qed.

Lemma find_no_pending round tcs s tc :
  find pending (range 155 round tcs) = None ->
  tcs !! s = Some tc -> referenced tc = true -> visited tc = true.
Proof.
  intros Hnone Hs Hr.
  pose proof (find_none _ _ Hnone (s, tc)) as Hp.
  unfold pending in Hp. cbn [snd] in Hp. rewrite Hr in Hp.
  destruct (visited tc); [done|]. discriminate Hp.
  by apply list_elem_of_In, range_lookup.
Qed.

Lemma reset_spec fuel round tcs r :
  Inv tcs -> reset_loop fuel round tcs = Some r ->
  match r.2 with
  | None =>
    Inv r.1
    /\ forall s tc, r.1 !! s = Some tc -> referenced tc = true ->
                    visited tc = true
  | Some e =>
    exists k p s0 i c s,
      CollectionSpec.Programs cs !! k = Some p
      /\ candidate p = Some s0 /\ reachable cs s0
      /\ calls_at p i c s /\ T0 !! s = None
      /\ e = ErrUnknownTailCall (ProgramSpec.SectionName p)
                                (ProgramSpec.Name p) c i
  end.
Proof.
  revert round tcs. induction fuel as [|fuel IH]; intros round tcs HI;
    [done|]. cbn [reset_loop].
  destruct (find pending _) as [[slot tc]|] eqn:Hf.
  - apply find_pending in Hf as (Hslot & Hr & Hvi).
    destruct (Inv_program _ _ _ HI Hslot) as (k & Hk & Hc).
    assert (reachable cs slot) as Hreach by (by eapply inv_sound).
    pose proof (visit_marks (spec tc) tcs) as Hm.
    destruct (visit (spec tc) tcs) as [t1 [e|]] eqn:Hv;
      cbn [fst] in Hm.
    + intros [= <-]. cbn [snd].
      apply visit_err in Hv as (i & c & s & ? & ? & ->).
      exists k, (spec tc), slot, i, c, s.
      split_and!; [done..| |done]. by apply (Inv_None tcs).
    + assert (Inv t1) as HI1.
      { eapply Inv_marks; [done..|]. intros s Hs.
        by eapply reach_step. }
      destruct (marks_referenced _ _ _ _ _ Hm Hslot Hr)
        as (tc1 & Hslot1 & Hr1).
      destruct (marks_lookup _ _ _ _ _ Hm Hslot1)
        as (tc' & Htc' & Hsp & _).
      assert (tc' = tc) as -> by congruence.
      apply IH. eapply Inv_visited; [done..|].
      intros s' Hs'. rewrite Hsp in Hs'. by eapply visit_ok.
  - intros [= <-]. cbn [fst snd]. split; [done|].
    intros s tc. by apply (find_no_pending round).
Qed.

(** When the loop at [reset] is over, the referenced entries are the
    reachable ones. *)
Lemma fixed_point tcs :
  Inv tcs ->
  (forall s tc, tcs !! s = Some tc -> referenced tc = true ->
                visited tc = true) ->
  forall s, reachable cs s ->
            exists tc, tcs !! s = Some tc /\ referenced tc = true.
Proof.
  intros HI Hdone s Hs. induction Hs as [k p s Hk Hc Hcall
                                        |k p s' s Hk Hc _ IH Hcall].
  - eapply inv_entry; [done| |done]. apply entrypoints_spec. eauto.
  - destruct IH as (tc' & Htc' & Hr').
    destruct (Inv_program _ _ _ HI Htc') as (k' & Hk' & Hc').
    destruct (candidate_unique _ _ _ _ _ Hk Hk' Hc Hc') as [_ ->].
    eapply inv_closed; [done..| |done]. by eapply Hdone.
Qed.

End Invariant.

(** ** Termination of the loop at [reset] *)

Lemma elem_of_unvisited tcs s :
  s ∈ unvisited tcs <-> exists tc, tcs !! s = Some tc /\ visited tc = false.
Proof.
  unfold unvisited. rewrite elem_of_dom. unfold is_Some.
  setoid_rewrite map_lookup_filter_Some. naive_solver.
Qed.

Lemma unvisited_marks S tcs tcs' :
  marks S tcs tcs' -> unvisited tcs' = unvisited tcs.
Proof.
  intros Hm. apply set_eq. intros s. rewrite !elem_of_unvisited.
  destruct (Hm s) as [->|(a & -> & -> & _)]; [done|].
  split; intros (tc & [= <-] & ?); eauto.
Qed.

Lemma unvisited_alter tcs slot :
  unvisited (alter set_visited slot tcs) = unvisited tcs ∖ {[slot]}.
Proof.
  apply set_eq. intros s.
  rewrite elem_of_difference, !elem_of_unvisited, elem_of_singleton.
  rewrite lookup_alter. case_decide.
  - subst. split; [|naive_solver]. intros (tc & Htc & Hv).
    destruct (tcs !! s); simplify_eq/=.
  - naive_solver.
Qed.

Lemma unvisited_size tcs : (size (unvisited tcs) <= size tcs)%nat.
Proof.
  unfold unvisited. rewrite <- (size_dom (D := gset Z) tcs).
  apply subseteq_size, dom_filter_subseteq.
Qed.

Lemma unvisited_step tcs slot tc :
  tcs !! slot = Some tc -> visited tc = false ->
  (size (unvisited (alter set_visited slot tcs)) < size (unvisited tcs))%nat.
Proof.
  intros Hs Hv. rewrite unvisited_alter.
  apply subset_size. apply strict_spec_alt. split; [set_solver|].
  intros E. assert (slot ∈ unvisited tcs) as Hin.
  { apply elem_of_unvisited. eauto. }
  set_solver.
Qed.

Lemma reset_step_spec round tcs tcs' :
  reset_step round tcs tcs' ->
  exists slot tc,
    tcs !! slot = Some tc /\ referenced tc = true /\ visited tc = false
    /\ unvisited tcs' = unvisited tcs ∖ {[slot]}
    /\ (size (unvisited tcs') < size (unvisited tcs))%nat
    /\ forall s a, tcs !! s = Some a ->
         exists a', tcs' !! s = Some a' /\ spec a' = spec a
                    /\ (referenced a = true -> referenced a' = true)
                    /\ (visited a = true -> visited a' = true).
Proof.
  intros (slot & tc & t & Hf & Hv & ->).
  apply find_pending in Hf as (Hs & Hr & Hvi).
  pose proof (visit_marks (spec tc) tcs) as Hm.
  rewrite Hv in Hm. cbn [fst] in Hm.
  exists slot, tc. split_and!; [done..| | |].
  - by rewrite unvisited_alter, (unvisited_marks _ _ _ Hm).
  - destruct (marks_referenced _ _ _ _ _ Hm Hs Hr) as (tc1 & Hs1 & _).
    destruct (marks_lookup _ _ _ _ _ Hm Hs1) as (tc' & ? & _ & Hv1 & _).
    assert (tc' = tc) as -> by congruence.
    rewrite <- (unvisited_marks _ _ _ Hm).
    eapply unvisited_step; [done|congruence].
  - intros s a Ha. rewrite lookup_alter.
    assert (exists a', t !! s = Some a' /\ spec a' = spec a
              /\ (referenced a = true -> referenced a' = true)
              /\ visited a' = visited a) as (a' & Ha' & ? & ? & ?).
    { destruct (Hm s) as [E|(b & Hb & Hb' & _)].
      - exists a. by rewrite E.
      - assert (b = a) as -> by congruence. eauto. }
    case_decide; subst; rewrite Ha'; simpl.
    + exists (set_visited a'). by destruct a'.
    + exists a'. split_and!; [done..|congruence].
Qed.

Lemma reset_terminates fuel round tcs :
  (size (unvisited tcs) < fuel)%nat -> is_Some (reset_loop fuel round tcs).
Proof.
  revert round tcs. induction fuel as [|fuel IH]; intros round tcs Hlt;
    [lia|]. cbn [reset_loop].
  destruct (find pending _) as [[slot tc]|] eqn:Hf; [|done].
  destruct (visit (spec tc) tcs) as [t [e|]] eqn:Hv; [done|].
  apply IH.
  assert (reset_step round tcs (alter set_visited slot t)) as Hstep.
  { exists slot, tc, t. done. }
  apply reset_step_spec in Hstep as (_ & _ & _ & _ & _ & _ & ? & _). lia.
Qed.

Lemma reset_fuel fuel1 fuel2 round tcs r :
  reset_loop fuel1 round tcs = Some r -> (fuel1 <= fuel2)%nat ->
  reset_loop fuel2 round tcs = Some r.
Proof.
  revert fuel2 round tcs.
  induction fuel1 as [|fuel1 IH]; intros fuel2 round tcs; [done|].
  destruct fuel2 as [|fuel2]; [lia|]. cbn [reset_loop].
  destruct (find pending _) as [[slot tc]|]; [|done].
  destruct (visit (spec tc) tcs) as [t [e|]]; [done|].
  intros. apply IH; [done|lia].
Qed.

Lemma resolve_terminates cs : is_Some (resolve_tailcalls cs).
Proof.
  unfold resolve_tailcalls.
  destruct (for_each partition_body _ _) as [[eps T0] [e|]]; [done|].
  destruct (for_each visit eps T0) as [T1 [e|]]; [done|].
  apply reset_terminates. pose proof (unvisited_size T1). lia.
Qed.

(** ** The deletion *)

Lemma delete_spec (l : list (Z * TailCall))
      (progs : gmap string ProgramSpec.t) k :
  let r := for_each (E := Error) delete_body l progs in
  r.2 = None
  /\ ((exists e, e ∈ l /\ referenced e.2 = false
                 /\ ProgramSpec.Name (spec e.2) = k) ->
      r.1 !! k = None)
  /\ ((forall e, e ∈ l -> referenced e.2 = false ->
                 ProgramSpec.Name (spec e.2) <> k) ->
      r.1 !! k = progs !! k).
Proof.
  revert progs. induction l as [|e l IH]; intros progs r; subst r.
  - simpl. split_and!; [done| |done]. by intros (e & ?%elem_of_nil & _).
  - cbn [for_each]. unfold delete_body at 1 3 5.
    destruct (referenced e.2) eqn:Hr; cbn [negb].
    + destruct (IH progs) as (H1 & H2 & H3). split_and!; [done|..].
      * intros (e' & [->|Hin]%elem_of_cons & Hr' & Hn);
          [congruence|]. apply H2. eauto.
      * intros Hno. apply H3. intros e' Hin. apply Hno. by right.
    + destruct (IH (delete (ProgramSpec.Name (spec e.2)) progs))
        as (H1 & H2 & H3). split_and!; [done|..].
      * intros (e' & Hin & Hr' & Hn).
        destruct (decide (Exists (fun e'' : Z * TailCall =>
                            referenced e''.2 = false
                            /\ ProgramSpec.Name (spec e''.2) = k) l))
          as [Hex|Hnex]; rewrite Exists_exists in *; [by apply H2|].
        rewrite H3.
        -- apply elem_of_cons in Hin as [->|Hin].
           ++ rewrite Hn. apply lookup_delete_eq.
           ++ exfalso. apply Hnex. eauto.
        -- intros e'' Hin'' Hr'' Hn''. apply Hnex. eauto.
      * intros Hno. rewrite H3.
        -- apply lookup_delete_ne. apply Hno; [left|done].
        -- intros e' Hin. apply Hno. by right.
Qed.

End Tailcalls.

Section TailcallTheorems.

Context `{RT : GoRuntime} `{OPS : asm.OpCodes}.

Implicit Types (tcs : gmap Z TailCall) (prog p : ProgramSpec.t).

(** What a run without error establishes. *)
Lemma resolve_ok cs tcs :
  resolve_tailcalls cs = Some (tcs, None) ->
  distinct_slots cs
  /\ (forall k p s,
        CollectionSpec.Programs cs !! k = Some p -> candidate p = Some s ->
        exists tc, tcs !! s = Some tc /\ spec tc = p
                   /\ (referenced tc = true <-> reachable cs s))
  /\ (forall s tc, tcs !! s = Some tc ->
        exists k, CollectionSpec.Programs cs !! k = Some (spec tc)
                  /\ candidate (spec tc) = Some s).
Proof.
  unfold resolve_tailcalls.
  destruct (for_each partition_body _ _) as [[eps T0] [e|]] eqn:Hp;
    [done|].
  destruct (for_each visit eps T0) as [T1 [e|]] eqn:Hv; [done|].
  intros Hr. pose proof (Inv_entry _ _ _ Hp _ Hv) as HI.
  pose proof (reset_spec _ _ _ Hp _ _ _ _ HI Hr) as [HI' Hdone].
  cbn [fst snd] in *. split_and!.
  - intros k1 p1 k2 p2 s H1 H2 Hc1 Hc2.
    by destruct (candidate_unique _ _ _ Hp _ _ _ _ _ H1 H2 Hc1 Hc2).
  - intros k p s Hk Hc.
    pose proof (table_candidate _ _ _ Hp _ _ _ Hk Hc) as Ht0.
    pose proof (inv_shape _ _ _ _ HI' s) as Hsh. rewrite Ht0 in Hsh.
    destruct (tcs !! s) as [tc|] eqn:Hs; [|done].
    injection Hsh as Hsp. exists tc. split_and!; [done..|]. split.
    + by eapply inv_sound.
    + intros Hreach.
      destruct (fixed_point _ _ _ Hp _ HI' Hdone s Hreach) as (a & ? & ?).
      congruence.
  - intros s tc Hs. by eapply Inv_program.
Qed.

(** The programs left by a run without error, entry by entry. *)
Lemma remove_programs cs cs' :
  keyed_by_name cs ->
  removeUnreachableTailcalls cs = Some (cs', None) ->
  exists tcs,
    resolve_tailcalls cs = Some (tcs, None)
    /\ CollectionSpec.Maps cs' = CollectionSpec.Maps cs
    /\ CollectionSpec.Variables cs' = CollectionSpec.Variables cs
    /\ CollectionSpec.ByteOrder cs' = CollectionSpec.ByteOrder cs
    /\ forall k,
        CollectionSpec.Programs cs' !! k =
        match CollectionSpec.Programs cs !! k with
        | Some p =>
          match candidate p with
          | None => Some p
          | Some s =>
            match tcs !! s with
            | Some tc => if referenced tc then Some p else None
            | None => Some p
            end
          end
        | None => None
        end.
Proof.
  intros Hkey. unfold removeUnreachableTailcalls.
  destruct (resolve_tailcalls cs) as [[tcs [e|]]|] eqn:Hres; [done| |done].
  destruct (for_each delete_body _ _) as [progs o] eqn:Hdel.
  intros [= <-]. exists tcs. split_and!; [done..|].
  destruct (resolve_ok _ _ Hres) as (Hd & Hcand & Hentry).
  cbn [CollectionSpec.set_Programs CollectionSpec.Programs].
  intros k.
  pose proof (delete_spec (range 170 0 tcs)
                (CollectionSpec.Programs cs) k) as (_ & Hgone & Hkept).
  cbv zeta in Hgone, Hkept. rewrite Hdel in Hgone, Hkept.
  cbn [fst] in *.
  assert (forall s' tc', (s', tc') ∈ range 170 0 tcs ->
            ProgramSpec.Name (spec tc') = k ->
            CollectionSpec.Programs cs !! k = Some (spec tc')
            /\ candidate (spec tc') = Some s') as Hnamed.
  { intros s' tc' Hin%range_lookup Hn.
    destruct (Hentry s' tc' Hin) as (k' & Hk' & Hc').
    assert (k' = k) as -> by (by rewrite <- (Hkey _ _ Hk')). done. }
  destruct (CollectionSpec.Programs cs !! k) as [p|] eqn:Hk.
  - destruct (candidate p) as [s|] eqn:Hc.
    + destruct (Hcand k p s Hk Hc) as (tc & Hs & Hsp & _). rewrite Hs.
      destruct (referenced tc) eqn:Hr.
      * rewrite Hkept; [done|]. intros [s' tc'] Hin Hr' Hn.
        cbn [snd] in *. destruct (Hnamed s' tc' Hin Hn) as [Hp' Hc'].
        apply range_lookup in Hin.
        injection Hp' as Hp'. rewrite <- Hp' in Hc'.
        assert (s' = s) as -> by congruence. congruence.
      * apply Hgone. exists (s, tc). cbn [snd].
        split_and!; [by apply range_lookup|done|].
        rewrite Hsp. by apply Hkey.
    + rewrite Hkept; [done|]. intros [s' tc'] Hin Hr' Hn.
      cbn [snd] in *. destruct (Hnamed s' tc' Hin Hn) as [Hp' Hc'].
      congruence.
  - rewrite Hkept; [done|]. intros [s' tc'] Hin Hr' Hn.
    cbn [snd] in *. by destruct (Hnamed s' tc' Hin Hn).
Qed.

Lemma no_candidate_no_entry cs eps T0 s :
  for_each partition_body (range 65 0 (CollectionSpec.Programs cs))
           ([], ∅) = ((eps, T0), None) ->
  T0 !! s = None <->
  forall k p, CollectionSpec.Programs cs !! k = Some p ->
              candidate p <> Some s.
Proof.
  intros Hp. split.
  - intros Hn k p Hk Hc.
    by rewrite (table_candidate _ _ _ Hp _ _ _ Hk Hc) in Hn.
  - intros Hno. destruct (T0 !! s) as [tc|] eqn:Hs; [|done].
    apply (table_spec _ _ _ Hp) in Hs as (k & Hk & Hc & _).
    by destruct (Hno _ _ Hk).
Qed.

(** The errors of a run, once the slots are distinct. *)
Lemma resolve_err cs tcs e :
  resolve_tailcalls cs = Some (tcs, Some e) ->
  (exists s k1 p1 k2 p2,
      e = ErrDuplicateTailCall s /\ k1 <> k2
      /\ CollectionSpec.Programs cs !! k1 = Some p1
      /\ CollectionSpec.Programs cs !! k2 = Some p2
      /\ candidate p1 = Some s /\ candidate p2 = Some s)
  \/ (distinct_slots cs
      /\ exists k p i c s,
          e = ErrUnknownTailCall (ProgramSpec.SectionName p)
                                 (ProgramSpec.Name p) c i
          /\ CollectionSpec.Programs cs !! k = Some p /\ scanned cs p
          /\ calls_at p i c s
          /\ forall k' p', CollectionSpec.Programs cs !! k' = Some p' ->
                           candidate p' <> Some s).
Proof.
  unfold resolve_tailcalls.
  destruct (for_each partition_body _ _) as [[eps T0] [e0|]] eqn:Hp.
  - intros [= <- <-]. left.
    apply partition_err in Hp
      as (s & j & [k2 p2] & -> & Hj & Hc2
          & [[? [=]]|(i & [k1 p1] & Hij & Hi & Hc1)]).
    exists s, k1, p1, k2, p2. cbn [snd] in *.
    split_and!; [done| |
                 eapply range_lookup, list_elem_of_lookup_2, Hi
                 |eapply range_lookup, list_elem_of_lookup_2, Hj|done..].
    intros ->.
    pose proof (range_NoDup_fst 65 0 (CollectionSpec.Programs cs)) as Hnd.
    assert (i = j); [|lia].
    eapply NoDup_lookup; [exact Hnd|..];
      rewrite list_lookup_fmap; [by rewrite Hi|by rewrite Hj].
  - assert (distinct_slots cs) as Hd.
    { intros k1 p1 k2 p2 s H1 H2 Hc1 Hc2.
      by destruct (candidate_unique _ _ _ Hp _ _ _ _ _ H1 H2 Hc1 Hc2). }
    pose proof (entry_visits eps T0) as [_ Hen]. cbv zeta in Hen.
    destruct (for_each visit eps T0) as [T1 [e1|]] eqn:Hv;
      cbn [fst snd] in Hen.
    + intros [= <- <-]. right. split; [done|].
      destruct Hen as (p & i & c & s & Hin & Hcall & Hn & ->).
      apply (entrypoints_spec _ _ _ Hp) in Hin as (k & Hk & Hc).
      exists k, p, i, c, s. split_and!; [done|done|by left|done|].
      by apply (no_candidate_no_entry _ _ _ _ Hp).
    + intros Hr. right. split; [done|].
      pose proof (Inv_entry _ _ _ Hp _ Hv) as HI.
      pose proof (reset_spec _ _ _ Hp _ _ _ _ HI Hr) as Hspec.
      cbn [snd] in Hspec.
      destruct Hspec as (k & p & s0 & i & c & s & ? & ? & ? & ? & ? & ->).
      exists k, p, i, c, s. split_and!; [done|done| |done|].
      * right. eauto.
      * by apply (no_candidate_no_entry _ _ _ _ Hp).
Qed.

(** C1. When removeUnreachableTailcalls returns without error on a
    specification whose programs are filed under their names, the
    programs left are the entrypoints and the candidates whose slot is
    reachable from an entrypoint by static tail calls.  The entry of a
    candidate is referenced exactly when its slot is reachable, every
    candidate whose entry is not referenced is gone, no entrypoint is
    deleted, and nothing else of the specification changes. *)
Theorem removeUnreachableTailcalls_prunes cs cs' :
  keyed_by_name cs ->
  removeUnreachableTailcalls cs = Some (cs', None) ->
  exists tailcalls,
    resolve_tailcalls cs = Some (tailcalls, None)
    /\ (forall k p,
          CollectionSpec.Programs cs' !! k = Some p <->
          CollectionSpec.Programs cs !! k = Some p /\ scanned cs p)
    /\ (forall k p s,
          CollectionSpec.Programs cs !! k = Some p ->
          candidate p = Some s ->
          exists tc,
            tailcalls !! s = Some tc /\ spec tc = p
            /\ (referenced tc = true <-> reachable cs s)
            /\ (referenced tc = false ->
                CollectionSpec.Programs cs' !! k = None))
    /\ (forall k p,
          CollectionSpec.Programs cs !! k = Some p -> candidate p = None ->
          CollectionSpec.Programs cs' !! k = Some p)
    /\ CollectionSpec.Maps cs' = CollectionSpec.Maps cs
    /\ CollectionSpec.Variables cs' = CollectionSpec.Variables cs
    /\ CollectionSpec.ByteOrder cs' = CollectionSpec.ByteOrder cs.
Proof.
  intros Hkey Hrun.
  destruct (remove_programs _ _ Hkey Hrun)
    as (tcs & Hres & HM & HV & HB & Hprogs).
  destruct (resolve_ok _ _ Hres) as (_ & Hcand & _).
  exists tcs. split_and!; [done| | | |done..].
  - intros k p. rewrite Hprogs. unfold scanned.
    destruct (CollectionSpec.Programs cs !! k) as [q|] eqn:Hk;
      [|naive_solver].
    destruct (candidate q) as [s|] eqn:Hc.
    + destruct (Hcand k q s Hk Hc) as (tc & Hs & Hsp & Href). rewrite Hs.
      destruct (referenced tc) eqn:Hr.
      * split; [|naive_solver]. intros [= <-]. split; [done|].
        right. exists s. split; [done|]. by apply Href.
      * split; [done|]. intros [[= <-] [?|(s' & ? & Hreach)]];
          [congruence|].
        assert (s' = s) as -> by congruence.
        apply Href in Hreach. congruence.
    + split; [|naive_solver]. intros [= <-]. auto.
  - intros k p s Hk Hc.
    destruct (Hcand k p s Hk Hc) as (tc & Hs & Hsp & Href).
    exists tc. split_and!; [done..|]. intros Hr.
    by rewrite Hprogs, Hk, Hc, Hs, Hr.
  - intros k p Hk Hc. by rewrite Hprogs, Hk, Hc.
Qed.

(** C3. The loop at [reset] terminates on every input.  The call returns
    for every specification; the loop returns as soon as its bound is
    above the number of entries not yet visited, which the number of
    entries bounds; every pass that ends in [goto reset] takes one
    entry that was referenced and not visited, marks it visited, so that
    the number of entries not yet visited goes down by one, and clears
    no flag of any entry. *)
Theorem reset_loop_terminates :
  (forall cs, is_Some (removeUnreachableTailcalls cs))
  /\ (forall fuel round tcs,
        (size tcs < fuel)%nat -> is_Some (reset_loop fuel round tcs))
  /\ (forall fuel fuel' round tcs r,
        reset_loop fuel round tcs = Some r -> (fuel <= fuel')%nat ->
        reset_loop fuel' round tcs = Some r)
  /\ (forall round tcs tcs',
        reset_step round tcs tcs' ->
        exists slot tc,
          tcs !! slot = Some tc
          /\ referenced tc = true /\ visited tc = false
          /\ unvisited tcs' = unvisited tcs ∖ {[slot]}
          /\ (size (unvisited tcs') < size (unvisited tcs))%nat
          /\ forall s a, tcs !! s = Some a ->
               exists a', tcs' !! s = Some a' /\ spec a' = spec a
                 /\ (referenced a = true -> referenced a' = true)
                 /\ (visited a = true -> visited a' = true)).
Proof.
  split_and!.
  - intros cs. unfold removeUnreachableTailcalls.
    destruct (resolve_terminates cs) as [[tcs [e|]] ->]; [done|].
    by destruct (for_each delete_body _ _).
  - intros fuel round tcs Hlt. apply reset_terminates.
    pose proof (unvisited_size tcs). lia.
  - intros. by eapply reset_fuel.
  - apply reset_step_spec.
Qed.

(** C8. If two programs of a specification are candidates for the same
    slot, removeUnreachableTailcalls returns the error "duplicate tail
    call index", with an index that two programs are candidates for, and
    leaves the specification as it was: no program is deleted. *)
Theorem duplicate_slot_is_error cs k1 p1 k2 p2 s :
  CollectionSpec.Programs cs !! k1 = Some p1 ->
  CollectionSpec.Programs cs !! k2 = Some p2 ->
  k1 <> k2 -> candidate p1 = Some s -> candidate p2 = Some s ->
  exists s' k1' p1' k2' p2',
    removeUnreachableTailcalls cs
    = Some (cs, Some (ErrDuplicateTailCall s'))
    /\ k1' <> k2'
    /\ CollectionSpec.Programs cs !! k1' = Some p1'
    /\ CollectionSpec.Programs cs !! k2' = Some p2'
    /\ candidate p1' = Some s' /\ candidate p2' = Some s'.
Proof.
  intros H1 H2 Hne Hc1 Hc2. unfold removeUnreachableTailcalls.
  destruct (resolve_terminates cs) as [[tcs [e|]] Hres]; rewrite Hres.
  - apply resolve_err in Hres
      as [(s' & a & pa & b & pb & -> & ?)|[Hd _]].
    + exists s', a, pa, b, pb. done.
    + destruct Hne. by eapply Hd.
  - apply resolve_ok in Hres as [Hd _]. destruct Hne. by eapply Hd.
Qed.

(** C9. If no two programs are candidates for the same slot and a
    program that the scan looks at (an entrypoint, or a candidate whose
    slot is reachable) makes a static tail call into the calls map to a
    slot no program is a candidate for, removeUnreachableTailcalls
    returns the error "executes tail call to unknown index": it names the
    section and the name of a scanned program, the constant and the
    instruction index of a call of that program to a slot without
    candidate.  The specification is left as it was. *)
Theorem unknown_slot_is_error cs k p i c s :
  distinct_slots cs ->
  CollectionSpec.Programs cs !! k = Some p -> scanned cs p ->
  calls_at p i c s ->
  (forall k' p', CollectionSpec.Programs cs !! k' = Some p' ->
                 candidate p' <> Some s) ->
  exists k' p' i' c' s',
    removeUnreachableTailcalls cs
    = Some (cs, Some (ErrUnknownTailCall (ProgramSpec.SectionName p')
                                         (ProgramSpec.Name p') c' i'))
    /\ CollectionSpec.Programs cs !! k' = Some p' /\ scanned cs p'
    /\ calls_at p' i' c' s'
    /\ forall k'' p'', CollectionSpec.Programs cs !! k'' = Some p'' ->
                       candidate p'' <> Some s'.
Proof.
  intros Hd Hk Hsc Hcall Hno. unfold removeUnreachableTailcalls.
  destruct (resolve_terminates cs) as [[tcs [e|]] Hres]; rewrite Hres.
  - apply resolve_err in Hres
      as [(s' & a & pa & b & pb & _ & Hne & Ha & Hb & Hca & Hcb)
         |[_ (k' & p' & i' & c' & s' & -> & ?)]].
    + destruct Hne. by eapply Hd.
    + exists k', p', i', c', s'. done.
  - exfalso.
    assert (reachable cs s) as Hreach.
    { destruct Hsc as [Hc|(s0 & Hc & Hr)].
      - eapply reach_entry; [done..|]. by exists i, c.
      - eapply reach_step; [done..|]. by exists i, c. }
    (* the slot would be in the table *)
    unfold resolve_tailcalls in Hres.
    destruct (for_each partition_body _ _) as [[eps T0] [e|]] eqn:Hp;
      [done|].
    destruct (for_each visit eps T0) as [T1 [e|]] eqn:Hv; [done|].
    pose proof (Inv_entry _ _ _ Hp _ Hv) as HI.
    pose proof (reset_spec _ _ _ Hp _ _ _ _ HI Hres) as [HI' Hdone].
    cbn [fst snd] in *.
    destruct (fixed_point _ _ _ Hp _ HI' Hdone s Hreach) as (a & Ha & _).
    destruct (Inv_program _ _ _ Hp _ _ _ HI' Ha) as (k' & Hk' & Hc').
    by destruct (Hno _ _ Hk').
Qed.

(** C10. The scan starts at instruction 3.  Let an entrypoint hold a
    complete tail-call idiom that ends at its instruction 2 and targets
    the slot of a candidate, and let no program hold an idiom for that
    slot that ends at an instruction 3 or later.  Then, when
    removeUnreachableTailcalls returns without error, the slot is not
    reachable and the candidate is deleted. *)
Theorem tail_call_at_index_2_is_missed cs cs' ke e c k p :
  keyed_by_name cs ->
  removeUnreachableTailcalls cs = Some (cs', None) ->
  CollectionSpec.Programs cs !! ke = Some e -> candidate e = None ->
  tail_call_at e 2 = Some c ->
  CollectionSpec.Programs cs !! k = Some p ->
  candidate p = Some (c mod 2 ^ 32) ->
  (forall k' p' i c',
      CollectionSpec.Programs cs !! k' = Some p' -> (3 <= i)%nat ->
      tail_call_at p' i = Some c' -> c' mod 2 ^ 32 <> c mod 2 ^ 32) ->
  ~ calls e (c mod 2 ^ 32)
  /\ ~ reachable cs (c mod 2 ^ 32)
  /\ CollectionSpec.Programs cs' !! k = None.
Proof.
  intros Hkey Hrun Hke Hce Hidiom Hk Hc Hno.
  assert (forall k' p', CollectionSpec.Programs cs !! k' = Some p' ->
                        ~ calls p' (c mod 2 ^ 32)) as Hnocall.
  { intros k' p' Hk' (i & c' & (Hi & Ht & Heq)).
    by eapply (Hno k' p' i c'); [done|lia|done|]. }
  assert (~ reachable cs (c mod 2 ^ 32)) as Hnr.
  { intros Hr. inversion Hr; subst; by eapply Hnocall. }
  split_and!; [by eapply Hnocall|done|].
  destruct (remove_programs _ _ Hkey Hrun)
    as (tcs & Hres & _ & _ & _ & Hprogs).
  destruct (resolve_ok _ _ Hres) as (_ & Hcand & _).
  destruct (Hcand _ _ _ Hk Hc) as (tc & Hs & _ & Href).
  rewrite Hprogs, Hk, Hc, Hs.
  destruct (referenced tc); [|done]. destruct Hnr. by apply Href.
Qed.

End TailcallTheorems.

(* ===================================================================== *)
(** * classifyProgramTypes *)
(* ===================================================================== *)

Section Classify.

Context `{RT : GoRuntime}.

Lemma known_entrypoint_specified name ty :
  known_entrypoint name = Some ty -> ty <> UnspecifiedProgram.
Proof.
  unfold known_entrypoint.
  destruct (String.eqb name _); [by intros [= <-]|].
  destruct (existsb _ _); [by intros [= <-]|done].
Qed.

Lemma infer_type_spec l :
  (Forall undecided l
   /\ infer_type l UnspecifiedProgram = UnspecifiedProgram)
  \/ exists l1 k p l2,
      l = l1 ++ (k, p) :: l2 /\ Forall undecided l1
      /\ infer_type l UnspecifiedProgram <> UnspecifiedProgram
      /\ (ProgramSpec.Type_ p <> UnspecifiedProgram
          /\ infer_type l UnspecifiedProgram = ProgramSpec.Type_ p
          \/ ProgramSpec.Type_ p = UnspecifiedProgram
             /\ known_entrypoint k
                = Some (infer_type l UnspecifiedProgram)).
Proof.
  induction l as [|[k p] l IH]; [by left|]. cbn [infer_type].
  destruct (ProgramSpec.Type_ p =? UnspecifiedProgram) eqn:Hty;
    cbn [negb].
  - apply Z.eqb_eq in Hty.
    destruct (known_entrypoint k) as [ty|] eqn:Hk.
    + right. exists [], k, p, l. split_and!; [done|constructor| |].
      * by eapply known_entrypoint_specified.
      * right. done.
    + destruct IH as [[Hall Ht]|(l1 & k' & p' & l2 & -> & Hall & Ht & Hd)].
      * left. split; [|done]. constructor; [done|done].
      * right. exists ((k, p) :: l1), k', p', l2.
        split_and!; [done| |done..]. constructor; [done|done].
  - apply Z.eqb_neq in Hty. right. exists [], k, p, l.
    split_and!; [done|constructor|done|]. left. done.
Qed.

Lemma assign_loop t (l : list (string * ProgramSpec.t))
      (progs : gmap string ProgramSpec.t) :
  NoDup l.*1 ->
  (forall k p, (k, p) ∈ l -> progs !! k = Some p) ->
  let r := for_each (E := Error) (assign_body t) l progs in
  r.2 = None
  /\ forall k, r.1 !! k =
               if decide (k ∈ l.*1) then with_default t <$> progs !! k
               else progs !! k.
Proof.
  revert progs. induction l as [|[k p] l IH]; intros progs Hnd Hl r;
    subst r.
  - cbn [for_each fst snd]. split; [done|]. intros k.
    destruct (decide (k ∈ [].*1)) as [Hk|]; [|done].
    by apply elem_of_nil in Hk.
  - cbn [for_each]. apply NoDup_cons in Hnd as [Hk Hnd].
    assert (progs !! k = Some p) as Hp by (apply Hl; left).
    unfold assign_body at 1 3. cbn [fst snd].
    destruct (ProgramSpec.Type_ p =? UnspecifiedProgram) eqn:Hty.
    + destruct (IH (<[k := ProgramSpec.set_Type t p]> progs) Hnd)
        as [Hn Hlook].
      { intros k' p' Hin. rewrite lookup_insert_ne; [apply Hl; by right|].
        intros ->. apply Hk. apply list_elem_of_fmap.
        by exists (k', p'). }
      split; [done|]. intros k'. rewrite Hlook. cbn [fmap list_fmap fst].
      destruct (decide (k' = k)) as [->|Hne].
      * rewrite decide_False by done. rewrite decide_True by left.
        rewrite lookup_insert_eq, Hp. simpl. unfold with_default.
        by rewrite Hty.
      * rewrite lookup_insert_ne by done.
        case_decide as Hin.
        -- rewrite decide_True; [done|by right].
        -- rewrite decide_False; [done|].
           by intros [?|?]%elem_of_cons.
    + destruct (IH progs Hnd) as [Hn Hlook].
      { intros k' p' Hin. apply Hl. by right. }
      split; [done|]. intros k'. rewrite Hlook. cbn [fmap list_fmap fst].
      destruct (decide (k' = k)) as [->|Hne].
      * rewrite decide_False by done. rewrite decide_True by left.
        rewrite Hp. simpl. unfold with_default. by rewrite Hty.
      * case_decide as Hin.
        -- rewrite decide_True; [done|by right].
        -- rewrite decide_False; [done|].
           by intros [?|?]%elem_of_cons.
Qed.

(** C4, amended.  The default type is decided by the first program, in
    the order in which the runtime ranges over the programs, that is
    classified or named in the table: it is that program's type if it
    is classified, and the type the table gives for its name otherwise.
    Every program of unspecified type receives the default and no other
    program changes.  The call fails exactly when no program is
    classified and no name is in the table; after success no program has
    the unspecified type.  When no program is classified, the default is
    the one the claim describes. *)
Theorem classifyProgramTypes_spec (cs : CollectionSpec.t) :
  let l := range 375 0 (CollectionSpec.Programs cs) in
  let t := infer_type l UnspecifiedProgram in
  let r := classifyProgramTypes cs in
  r.1 = CollectionSpec.set_Programs
          (with_default t <$> CollectionSpec.Programs cs) cs
  /\ (Forall undecided l /\ t = UnspecifiedProgram
      \/ exists l1 k p l2,
          l = l1 ++ (k, p) :: l2 /\ Forall undecided l1
          /\ t <> UnspecifiedProgram
          /\ (ProgramSpec.Type_ p <> UnspecifiedProgram
              /\ t = ProgramSpec.Type_ p
              \/ ProgramSpec.Type_ p = UnspecifiedProgram
                 /\ known_entrypoint k = Some t))
  /\ (r.2 = Some ErrUnclassified <->
      forall k p, CollectionSpec.Programs cs !! k = Some p ->
                  undecided (k, p))
  /\ (r.2 = None \/ r.2 = Some ErrUnclassified)
  /\ (r.2 = None ->
      forall k p, CollectionSpec.Programs r.1 !! k = Some p ->
                  ProgramSpec.Type_ p <> UnspecifiedProgram)
  /\ ((forall k p, CollectionSpec.Programs cs !! k = Some p ->
                   ProgramSpec.Type_ p = UnspecifiedProgram) ->
      t = infer_type_as_claimed l).
Proof.
  intros l t r.
  assert (r.1 = CollectionSpec.set_Programs
                  (with_default t <$> CollectionSpec.Programs cs) cs
          /\ r.2 = if t =? UnspecifiedProgram
                   then Some ErrUnclassified else None) as [H1 H2].
  { subst r. unfold classifyProgramTypes. fold l. fold t.
    pose proof (assign_loop t (range 406 0 (CollectionSpec.Programs cs))
                  (CollectionSpec.Programs cs)
                  (range_NoDup_fst _ _ _)) as [_ Hlook].
    { intros k p. by rewrite range_lookup. }
    destruct (for_each _ _ _) as [progs o]. cbn [fst snd] in *.
    split; [|done]. f_equal. apply map_eq. intros k.
    rewrite Hlook, lookup_fmap. case_decide as Hin; [done|].
    destruct (CollectionSpec.Programs cs !! k) as [p|] eqn:Hk; [|done].
    destruct Hin. apply list_elem_of_fmap. exists (k, p).
    split; [done|]. by apply range_lookup. }
  pose proof (infer_type_spec l) as Hspec. fold t in Hspec.
  assert (Forall undecided l <->
          forall k p, CollectionSpec.Programs cs !! k = Some p ->
                      undecided (k, p)) as Hall.
  { rewrite Forall_forall. split.
    - intros H k p Hk. apply H. by apply range_lookup.
    - intros H [k p] Hin. apply H. by apply range_lookup in Hin. }
  split_and!; [done|done|..].
  - rewrite H2, <- Hall.
    destruct Hspec as [[? ->]|(l1 & k & p & l2 & El & Hl1 & Ht & Hd)].
    + done.
    + apply Z.eqb_neq in Ht as Ht'. rewrite Ht'. split; [done|].
      intros Hu. exfalso. rewrite El in Hu.
      apply Forall_app in Hu as [_ Hu]. apply Forall_cons in Hu as [Hu _].
      destruct Hu as [Hu1 Hu2]. cbn [fst snd] in *.
      destruct Hd as [[? _]|[_ ?]]; congruence.
  - rewrite H2. destruct (t =? UnspecifiedProgram); auto.
  - rewrite H1, H2. destruct (t =? UnspecifiedProgram) eqn:Ht; [done|].
    apply Z.eqb_neq in Ht. intros _ k p. cbn.
    rewrite lookup_fmap. destruct (_ !! k) as [q|]; [|done].
    intros [= <-]. unfold with_default.
    destruct (ProgramSpec.Type_ q =? UnspecifiedProgram) eqn:Hq; [done|].
    by apply Z.eqb_neq in Hq.
  - intros Hnone. subst t.
    assert (Forall (fun np : string * ProgramSpec.t =>
              ProgramSpec.Type_ np.2 = UnspecifiedProgram) l) as Hl.
    { apply Forall_forall. intros [k p] Hin%range_lookup. by eapply Hnone. }
    clear -Hl. unfold infer_type_as_claimed.
    assert (find (fun np : string * ProgramSpec.t =>
              negb (ProgramSpec.Type_ np.2 =? UnspecifiedProgram)) l
            = None) as ->.
    { induction Hl as [|[k p] l Hp _ IH]; [done|]. simpl in *.
      by rewrite Hp. }
    induction Hl as [|[k p] l Hp _ IH]; [done|]. simpl in *.
    rewrite Hp. simpl. destruct (known_entrypoint k); done.
Qed.

End Classify.

(** C4 as stated does not hold: the bundle has a classified program (a
    socket filter), so the default would be the type 1, but the loop meets
    the unclassified "cil_xdp_entry" first and takes XDP from the table. *)
Lemma classifyProgramTypes_counterexample :
  infer_type_as_claimed
    (@range key_order_runtime _ _ _ _ 375 0
       (CollectionSpec.Programs Example.bundle_types)) = 1
  /\ infer_type
       (@range key_order_runtime _ _ _ _ 375 0
          (CollectionSpec.Programs Example.bundle_types))
       UnspecifiedProgram = XDP
  /\ @classifyProgramTypes key_order_runtime Example.bundle_types
     = (Example.bundle_of
          [ProgramSpec.mk "cil_xdp_entry" "prog" XDP [Example.exit_];
           ProgramSpec.mk "handle_policy" "socket" 1 [Example.exit_]],
        None).
Proof. split_and!; vm_compute; reflexivity. Qed.

(* ===================================================================== *)
(** * The scanner on numerals *)
(* ===================================================================== *)

Lemma decode_ascii rs fuel :
  Forall (fun r => 0 <= r < 128) rs -> (length rs <= fuel)%nat ->
  utf8.decode fuel rs = rs.
Proof.
  revert fuel. induction rs as [|r rs IH]; intros fuel Hall Hlen.
  - by destruct fuel.
  - destruct fuel as [|fuel]; [simpl in Hlen; lia|].
    apply Forall_cons in Hall as [Hr Hall]. cbn [utf8.decode].
    unfold utf8.DecodeRune.
    assert ((r <? 128) = true) as -> by (apply Z.ltb_lt; lia).
    cbn [drop]. f_equal. apply IH; [done|simpl in Hlen; lia].
Qed.

Lemma runes_ascii rs :
  Forall (fun r => 0 <= r < 128) rs -> utf8.runes (string_of_runes rs) = rs.
Proof.
  intros Hall. unfold utf8.runes, utf8.bytes, string_of_runes.
  rewrite list_ascii_of_string_of_list_ascii, map_map.
  assert (map (fun x => Z.of_N (N_of_ascii (ascii_of_N (Z.to_N x)))) rs = rs)
    as ->.
  { induction Hall as [|r rs Hr _ IH]; [done|]. cbn [map]. rewrite IH.
    f_equal. rewrite N_ascii_embedding by lia. lia. }
  by apply decode_ascii.
Qed.

Lemma below (k : nat) (P : Z -> bool) :
  forallb P (map Z.of_nat (seq 0 k)) = true ->
  forall d, 0 <= d < Z.of_nat k -> P d = true.
Proof.
  intros H d Hd. rewrite forallb_forall in H. apply H.
  apply in_map_iff. exists (Z.to_nat d). split; [lia|].
  apply in_seq. lia.
Qed.

Lemma digit_rune_ascii d : 0 <= d < 16 -> 0 <= digit_rune d < 128.
Proof. unfold digit_rune. destruct (d <? 10); lia. Qed.

Lemma digit_rune_decimal d :
  0 <= d < 10 ->
  fmt.indexRune fmt.decimalDigits (digit_rune d) = true
  /\ fmt.indexRune (fmt.decimalDigits ++ "_") (digit_rune d) = true.
Proof.
  intros Hd. split.
  - by apply (below 10 (fun d => fmt.indexRune _ (digit_rune d))).
  - by apply (below 10 (fun d => fmt.indexRune _ (digit_rune d))).
Qed.

Lemma digit_rune_hex d :
  0 <= d < 16 ->
  fmt.indexRune (fmt.hexadecimalDigits ++ "_") (digit_rune d) = true.
Proof.
  intros Hd. by apply (below 16 (fun d => fmt.indexRune _ (digit_rune d))).
Qed.

Lemma SkipSpace_digit d rest :
  0 <= d < 16 ->
  fmt.SkipSpace (digit_rune d :: rest) = Some (digit_rune d :: rest).
Proof.
  intros Hd. cbn [fmt.SkipSpace].
  pose proof (below 16
    (fun d => negb (digit_rune d =? 13) && negb (digit_rune d =? 10)
              && negb (fmt.isSpace (digit_rune d))) eq_refl d Hd) as H.
  cbv beta in H.
  apply andb_true_iff in H as [[H1 H2]%andb_true_iff H3].
  apply negb_true_iff in H1, H2. by rewrite H1, H2, H3.
Qed.

Lemma accept_all_runes ok rs buf rest :
  Forall (fun r => fmt.indexRune ok r = true) rs ->
  match rest with
  | [] => True
  | r :: _ => fmt.indexRune ok r = false
  end ->
  fmt.accept_all ok buf (rs ++ rest) = (buf ++ rs, rest).
Proof.
  intros Hall Hrest. revert buf.
  induction Hall as [|r rs Hr _ IH]; intros buf.
  - rewrite app_nil_r. destruct rest as [|r rest]; [done|].
    cbn. by rewrite Hrest.
  - cbn. rewrite Hr, IH. by rewrite <- app_assoc.
Qed.

Lemma numeral_value_app base ds d :
  numeral_value base (ds ++ [d]) = numeral_value base ds * base + d.
Proof. unfold numeral_value. by rewrite fold_left_app. Qed.

Lemma fold_digits_ge base ds n :
  1 <= base -> 0 <= n -> Forall (fun d => 0 <= d < base) ds ->
  n <= fold_left (fun n d => n * base + d) ds n.
Proof.
  intros Hb Hn Hall. revert n Hn.
  induction Hall as [|d ds Hd _ IH]; intros n Hn; [done|]. cbn.
  etrans; [|apply IH; nia]. nia.
Qed.

(** The digit loop of ParseUint on the runes of a numeral in base 10 or
    16 whose value fits 32 bits. *)
Lemma digits_loop_numeral base0 base cutoff ds n :
  base = 10 \/ base = 16 -> 2 ^ 32 < cutoff ->
  Forall (fun d => 0 <= d < base) ds -> 0 <= n ->
  fold_left (fun n d => n * base + d) ds n < 2 ^ 32 ->
  strconv.digits_loop base0 base cutoff
                      strconv.maxUint64 (map digit_rune ds) n false
  = Some (fold_left (fun n d => n * base + d) ds n, false).
Proof.
  intros Hbase Hcut Hall. revert n.
  induction Hall as [|d ds Hd Hds IH]; intros n Hn Hlt; [done|].
  cbn [map strconv.digits_loop fold_left] in *.
  assert (0 <= d < 16) as Hd16 by (destruct Hbase; lia).
  pose proof (below 16
    (fun d => negb (digit_rune d =? 95)
              && bool_decide
                   ((if (48 <=? digit_rune d) && (digit_rune d <=? 57)
                     then Some (digit_rune d - 48)
                     else if (97 <=? strconv.lower (digit_rune d))
                             && (strconv.lower (digit_rune d) <=? 122)
                          then Some (strconv.lower (digit_rune d) - 97 + 10)
                          else None) = Some d)) eq_refl d Hd16) as H.
  cbv beta in H. apply andb_true_iff in H as [H1%negb_true_iff H2].
  apply bool_decide_eq_true in H2. rewrite H1. cbn [andb]. rewrite H2.
  assert (n * base + d <= fold_left (fun n d => n * base + d) ds
                                    (n * base + d)) as Hge.
  { apply fold_digits_ge; [destruct Hbase; lia|nia|done]. }
  assert ((base <=? d) = false) as -> by (apply Z.leb_gt; lia).
  assert ((cutoff <=? n) = false) as -> by (apply Z.leb_gt; nia).
  assert (n * base + d < 2 ^ 32) as Hsmall by lia.
  assert (0 <= n * base < 2 ^ 64) as Hnb.
  { split; [nia|]. assert (2 ^ 32 < 2 ^ 64) by (by vm_compute). nia. }
  rewrite (Z.mod_small (n * base)) by done.
  rewrite (Z.mod_small (n * base + d)).
  2:{ assert (2 ^ 32 < 2 ^ 64) by (by vm_compute). lia. }
  assert ((n * base + d <? n * base) = false) as -> by (apply Z.ltb_ge; lia).
  assert ((strconv.maxUint64 <? n * base + d) = false) as ->.
  { apply Z.ltb_ge. assert (2 ^ 32 < strconv.maxUint64) by (by vm_compute).
    lia. }
  cbn [orb]. apply IH; [nia|done].
Qed.


Lemma ParseUint_decimal base ds :
  base = 0 \/ base = 10 ->
  numeral 10 ds -> (base = 0 -> hd 0 ds <> 0) ->
  numeral_value 10 ds < 2 ^ 32 ->
  strconv.ParseUint (map digit_rune ds) base = Some (numeral_value 10 ds).
Proof.
  intros Hbase [Hne Hall] Hhd Hlt. destruct ds as [|d ds]; [done|].
  assert (0 <= d < 10) as Hd by (by apply Forall_cons in Hall as [? _]).
  unfold strconv.ParseUint.
  change (map digit_rune (d :: ds))
    with (digit_rune d :: map digit_rune ds) at 1.
  cbv iota beta.
  assert ((if base =? 0
           then strconv.base_prefix (map digit_rune (d :: ds))
           else (base, map digit_rune (d :: ds)))
          = (10, map digit_rune (d :: ds))) as ->.
  { destruct Hbase as [-> | ->]; [|done]. cbn [Z.eqb].
    unfold strconv.base_prefix. cbn [map nth].
    assert ((digit_rune d =? 48) = false) as ->; [|done].
    apply Z.eqb_neq. specialize (Hhd eq_refl). cbn in Hhd.
    unfold digit_rune. destruct (d <? 10); lia. }
  rewrite (digits_loop_numeral _ 10); [done|by left|by vm_compute|done|done|].
  done.
Qed.

Lemma ParseUint_hex ds :
  numeral 16 ds -> numeral_value 16 ds < 2 ^ 32 ->
  strconv.ParseUint (48 :: 120 :: map digit_rune ds) 0
  = Some (numeral_value 16 ds).
Proof.
  intros [Hne Hall] Hlt. destruct ds as [|d ds]; [done|].
  unfold strconv.ParseUint, strconv.base_prefix.
  cbn [length nth drop Nat.leb andb map].
  change (0 =? 0) with true. change (48 =? 48) with true.
  change (strconv.lower 120 =? 98) with false.
  change (strconv.lower 120 =? 111) with false.
  change (strconv.lower 120 =? 120) with true.
  cbv iota beta.
  change (digit_rune d :: map digit_rune ds) with (map digit_rune (d :: ds)).
  rewrite (digits_loop_numeral _ 16); [done|by right|by vm_compute|done|done|].
  done.
Qed.

Lemma scanNumber_digits ok ds buf rest (have : bool) :
  ds <> [] ->
  Forall (fun d => fmt.indexRune ok (digit_rune d) = true) ds ->
  not_in ok rest ->
  (have = true \/ buf = []) ->
  fmt.scanNumber ok have buf (map digit_rune ds ++ rest)
  = Some (buf ++ map digit_rune ds, rest).
Proof.
  intros Hne Hall Hrest Hhave.
  assert (Forall (fun r => fmt.indexRune ok r = true) (map digit_rune ds))
    as Hall' by (by apply (proj2 (Forall_map _ _ _))).
  unfold fmt.scanNumber. destruct have.
  - by rewrite accept_all_runes.
  - destruct Hhave as [?| ->]; [done|].
    destruct ds as [|d ds]; [done|]. cbn [map app fmt.accept].
    apply Forall_cons in Hall' as [Hd Hds]. rewrite Hd.
    by rewrite accept_all_runes.
Qed.

Lemma scanUint_decimal (isV : bool) ds rest :
  numeral 10 ds -> (isV = true -> hd 0 ds <> 0) ->
  numeral_value 10 ds < 2 ^ 32 ->
  not_in (if isV then fmt.decimalDigits ++ "_" else fmt.decimalDigits)%string
         rest ->
  fmt.scanUint isV (map digit_rune ds ++ rest)
  = Some (numeral_value 10 ds, rest).
Proof.
  intros Hnum Hhd Hlt Hrest. pose proof Hnum as [Hne Hall].
  destruct ds as [|d ds]; [done|].
  assert (0 <= d < 10) as Hd by (by apply Forall_cons in Hall as [? _]).
  unfold fmt.scanUint. cbn [map app].
  rewrite SkipSpace_digit by lia.
  change (digit_rune d :: map digit_rune ds ++ rest)
    with (map digit_rune (d :: ds) ++ rest).
  assert (numeral_value 10 (d :: ds) mod 2 ^ 32 = numeral_value 10 (d :: ds))
    as Hmod.
  { apply Z.mod_small. split; [|done].
    apply (fold_digits_ge 10 (d :: ds) 0); [lia|lia|done]. }
  destruct isV.
  - assert (fmt.scanBasePrefix (map digit_rune (d :: ds) ++ rest)
            = ((fmt.decimalDigits ++ "_")%string, false, [],
               map digit_rune (d :: ds) ++ rest)) as ->.
    { unfold fmt.scanBasePrefix. cbn [map app fmt.peek].
      assert (fmt.indexRune "0" (digit_rune d) = false) as ->; [|done].
      specialize (Hhd eq_refl). cbn in Hhd.
      pose proof (below 10
        (fun d => (d =? 0) || negb (fmt.indexRune "0" (digit_rune d)))
        eq_refl d Hd) as H. cbv beta in H.
      apply orb_true_iff in H as [H%Z.eqb_eq|H%negb_true_iff]; [lia|].
      exact H. }
    rewrite scanNumber_digits; [|done| |done|by right].
    2:{ eapply Forall_impl; [exact Hall|]. intros x Hx.
        by apply digit_rune_decimal. }
    cbn [app].
    rewrite ParseUint_decimal; [|by left|done|intros _; by apply Hhd|done].
    by rewrite Hmod, Z.eqb_refl.
  - rewrite scanNumber_digits; [|done| |done|by right].
    2:{ eapply Forall_impl; [exact Hall|]. intros x Hx.
        by apply digit_rune_decimal. }
    cbn [app]. rewrite ParseUint_decimal; [|by right|done|done|done].
    by rewrite Hmod, Z.eqb_refl.
Qed.

Lemma scanUint_hex ds rest :
  numeral 16 ds -> numeral_value 16 ds < 2 ^ 32 ->
  not_in (fmt.hexadecimalDigits ++ "_")%string rest ->
  fmt.scanUint true (48 :: 120 :: map digit_rune ds ++ rest)
  = Some (numeral_value 16 ds, rest).
Proof.
  intros Hnum Hlt Hrest. pose proof Hnum as [Hne Hall].
  unfold fmt.scanUint.
  change (fmt.SkipSpace (48 :: ?l)) with (Some (48 :: l)).
  cbv iota beta.
  change (fmt.scanBasePrefix (48 :: 120 :: ?l))
    with ((fmt.hexadecimalDigits ++ "_")%string, true, [48; 120], l).
  cbv iota beta.
  rewrite scanNumber_digits; [|done| |done|by left].
  2:{ eapply Forall_impl; [exact Hall|]. intros x Hx.
      by apply digit_rune_hex. }
  cbn [app]. rewrite ParseUint_hex; [|done..].
  assert (numeral_value 16 ds mod 2 ^ 32 = numeral_value 16 ds) as ->.
  { apply Z.mod_small. split; [|done].
    apply (fold_digits_ge 16 ds 0); [lia|lia|done]. }
  by rewrite Z.eqb_refl.
Qed.

Lemma Forall_digit_ascii base ds :
  base <= 16 -> Forall (fun d => 0 <= d < base) ds ->
  Forall (fun r => 0 <= r < 128) (map digit_rune ds).
Proof.
  intros Hb Hall. apply (proj2 (Forall_map _ _ _)).
  eapply Forall_impl; [exact Hall|].
  intros d Hd. cbv beta in Hd. apply digit_rune_ascii. lia.
Qed.

(** The scanner accepts a section name whose id is a decimal numeral and
    whose slot is a decimal numeral without leading zero, or a hexadecimal
    numeral after "0x", and reads the values the numerals stand for. *)
Lemma Sscanf_decimal_or_hex (id slot : list Z) :
  numeral 10 id -> numeral_value 10 id < 2 ^ 32 ->
  (numeral 10 slot -> hd 0 slot <> 0 -> numeral_value 10 slot < 2 ^ 32 ->
   fmt.Sscanf_d_slash_v (decimal_section id slot)
   = Some (numeral_value 10 id, numeral_value 10 slot))
  /\ (numeral 16 slot -> numeral_value 16 slot < 2 ^ 32 ->
      fmt.Sscanf_d_slash_v (hex_section id slot)
      = Some (numeral_value 10 id, numeral_value 16 slot)).
Proof.
  intros Hid Hidlt. pose proof Hid as [Hidne Hidall].
  assert (forall rest,
    fmt.SkipSpace (map digit_rune id ++ rest)
    = Some (map digit_rune id ++ rest))
    as Hskip.
  { intros rest. destruct id as [|d id]; [done|]. cbn [map app].
    apply SkipSpace_digit. apply Forall_cons in Hidall as [? _]. lia. }
  split.
  - intros Hslot Hhd Hlt. pose proof Hslot as [Hne Hall].
    unfold fmt.Sscanf_d_slash_v, decimal_section.
    rewrite runes_ascii.
    2:{ apply Forall_app. split; [by apply (Forall_digit_ascii 10)|].
        apply Forall_cons. split; [lia|by apply (Forall_digit_ascii 10)]. }
    rewrite Hskip, (scanUint_decimal false); [|done|done|done|done].
    change (negb (47 =? 47)) with false. cbv iota beta.
    rewrite <- (app_nil_r (map digit_rune slot)).
    assert (fmt.SkipSpace (map digit_rune slot ++ [])
            = Some (map digit_rune slot ++ [])) as ->.
    { destruct slot as [|d slot]; [done|]. cbn [map app].
      apply SkipSpace_digit. apply Forall_cons in Hall as [? _]. lia. }
    by rewrite (scanUint_decimal true).
  - intros Hslot Hlt. pose proof Hslot as [Hne Hall].
    unfold fmt.Sscanf_d_slash_v, hex_section.
    rewrite runes_ascii.
    2:{ apply Forall_app. split; [by apply (Forall_digit_ascii 10)|].
        repeat (apply Forall_cons; split; [lia|]).
        by apply (Forall_digit_ascii 16). }
    rewrite Hskip, (scanUint_decimal false); [|done|done|done|done].
    change (negb (47 =? 47)) with false. cbv iota beta.
    change (fmt.SkipSpace (48 :: ?l)) with (Some (48 :: l)).
    cbv iota beta.
    rewrite <- (app_nil_r (map digit_rune slot)).
    by rewrite scanUint_hex.
Qed.


Example Sscanf_ex1 : fmt.Sscanf_d_slash_v "2/14" = Some (2, 14).
Proof. reflexivity. Qed.
Example Sscanf_ex2 : fmt.Sscanf_d_slash_v "1/0x0515" = Some (1, 1301).
Proof. reflexivity. Qed.
Example Sscanf_ex3 : fmt.Sscanf_d_slash_v "tc" = None.
Proof. reflexivity. Qed.
Example Sscanf_ex4 : fmt.Sscanf_d_slash_v "2/4294967296" = None.
Proof. reflexivity. Qed.
Example Sscanf_ex5 : fmt.Sscanf_d_slash_v "2/012" = Some (2, 10).
Proof. reflexivity. Qed.
Example Sscanf_ex6 : fmt.Sscanf_d_slash_v " 2/ 1_0tail" = Some (2, 10).
Proof. reflexivity. Qed.
Example Sscanf_ex7 : fmt.Sscanf_d_slash_v "2/0x" = None.
Proof. reflexivity. Qed.
Example Sscanf_ex8 : fmt.Sscanf_d_slash_v "2 /7" = None.
Proof. reflexivity. Qed.
Example Sscanf_ex9 : fmt.Sscanf_d_slash_v "-2/7" = None.
Proof. reflexivity. Qed.

(* ===================================================================== *)
(** * iproute2Compat *)
(* ===================================================================== *)

Section Compat.

Context `{RT : GoRuntime}.

Implicit Types (Maps : gmap string MapSpec.t) (maps : gmap Z string).

Lemma trailer_body_ok order key m Maps maps Maps' maps' :
  trailer_body order (key, m) (Maps, maps) = ((Maps', maps'), None) ->
  (Maps' = Maps /\ decoded order m = m
   \/ Maps' = <[key := decoded order m]> Maps)
  /\ maps' = match trailer_id order m with
             | Some id => <[id := key]> maps
             | None => maps
             end
  /\ (forall id, trailer_id order m = Some id -> maps !! id = None).
Proof.
  unfold trailer_body, trailer_id, decoded.
  destruct (MapSpec.Extra m) as [extra|] eqn:Hex;
    [|intros [= <- <-]; split_and!; [by left|done..]].
  destruct (0 <? length extra)%nat eqn:Hlen; cbn [negb andb];
    [|intros [= <- <-]; split_and!; [by left|done..]].
  destruct (length extra <? 16)%nat eqn:H16; [done|].
  apply Nat.ltb_ge in H16 as H16'. apply Nat.leb_le in H16'.
  rewrite H16'.
  destruct (binary.Uint32 order (take 4 extra) =? 0) eqn:Hid;
    cbn [negb].
  - intros [= <- <-]. split_and!; [by right|done..].
  - destruct (maps !! _) eqn:Hm; [done|].
    intros [= <- <-]. split_and!; [by right|done|].
    by intros id [= <-].
Qed.

Lemma trailer_loop order l Maps maps Maps' maps' :
  NoDup l.*1 ->
  (forall key m, (key, m) ∈ l -> Maps !! key = Some m) ->
  for_each (trailer_body order) l (Maps, maps) = ((Maps', maps'), None) ->
  (forall key m, (key, m) ∈ l -> Maps' !! key = Some (decoded order m))
  /\ (forall key, key ∉ l.*1 -> Maps' !! key = Maps !! key)
  /\ (forall key m id, (key, m) ∈ l -> trailer_id order m = Some id ->
                       maps' !! id = Some key)
  /\ (forall id key, maps !! id = Some key -> maps' !! id = Some key)
  /\ (forall id key, maps' !! id = Some key ->
                     maps !! id = Some key \/ key ∈ l.*1).
Proof.
  revert Maps maps.
  induction l as [|[key m] l IH]; intros Maps maps Hnd Hl.
  - simpl. intros [= <- <-]. split_and!; try done.
    + by intros ?? ?%elem_of_nil.
    + by intros ??? ?%elem_of_nil.
    + intros. by left.
  - cbn [for_each].
    destruct (trailer_body order (key, m) (Maps, maps))
      as [[Maps1 maps1] [e|]] eqn:Hb; [done|].
    apply NoDup_cons in Hnd as [Hkey Hnd].
    apply trailer_body_ok in Hb as (HMaps1 & Hmaps1 & Hfresh).
    assert (Maps !! key = Some m) as Hm by (apply Hl; left).
    assert (Maps1 !! key = Some (decoded order m)) as Hkey1.
    { destruct HMaps1 as [[-> ->]| ->]; [done|apply lookup_insert_eq]. }
    assert (forall key', key' <> key -> Maps1 !! key' = Maps !! key')
      as Hother.
    { intros key' Hne. destruct HMaps1 as [[-> _]| ->]; [done|].
      by rewrite lookup_insert_ne. }
    intros Hrec. apply IH in Hrec as (H1 & H2 & H3 & H4 & H5); [|done|].
    2:{ intros key' m' Hin. rewrite Hother; [apply Hl; by right|].
        intros ->. apply Hkey, list_elem_of_fmap. by exists (key, m'). }
    cbn [fmap list_fmap fst]. split_and!.
    + intros key' m' [[= -> ->]|Hin]%elem_of_cons; [|by apply H1].
      by rewrite H2.
    + intros key' Hnot. apply not_elem_of_cons in Hnot as [? ?].
      rewrite H2 by done. by apply Hother.
    + intros key' m' id [[= -> ->]|Hin]%elem_of_cons Hid; [|by eapply H3].
      apply H4. rewrite Hmaps1, Hid. apply lookup_insert_eq.
    + intros id key' Hid. apply H4. rewrite Hmaps1.
      destruct (trailer_id order m) as [id0|] eqn:Hid0; [|done].
      rewrite lookup_insert_ne; [done|]. intros <-.
      by rewrite (Hfresh _ eq_refl) in Hid.
    + intros id key' Hid. apply H5 in Hid as [Hid|?]; [|right; by right].
      rewrite Hmaps1 in Hid.
      destruct (trailer_id order m) as [id0|]; [|by left].
      rewrite lookup_insert in Hid. case_decide; [|by left].
      injection Hid as <-. right. left.
Qed.

Lemma grows_refl m : grows m m.
Proof. split_and!; [done..|]. exists []. by rewrite app_nil_r. Qed.

Lemma grows_trans m1 m2 m3 : grows m1 m2 -> grows m2 m3 -> grows m1 m3.
Proof.
  intros (? & ? & ? & more1 & E1) (? & ? & ? & more2 & E2).
  split_and!; [congruence..|]. exists (more1 ++ more2).
  by rewrite E2, E1, app_assoc.
Qed.

Lemma grows_append slot n m : grows m (append_content slot n m).
Proof. split_and!; [done..|]. by eexists. Qed.

Definition maps_grow Maps Maps' : Prop :=
  forall key,
    Maps !! key = None /\ Maps' !! key = None
    \/ exists m m', Maps !! key = Some m /\ Maps' !! key = Some m'
                    /\ grows m m'.

Lemma maps_grow_refl Maps : maps_grow Maps Maps.
Proof.
  intros key. destruct (Maps !! key) as [m|]; [|by left].
  right. exists m, m. split_and!; [done..|apply grows_refl].
Qed.

Lemma maps_grow_trans Maps1 Maps2 Maps3 :
  maps_grow Maps1 Maps2 -> maps_grow Maps2 Maps3 -> maps_grow Maps1 Maps3.
Proof.
  intros H12 H23 key.
  destruct (H12 key) as [[? ?]|(a & b & ? & Hb & ?)],
           (H23 key) as [[? ?]|(b' & c & Hb' & ? & ?)];
    [by left|congruence|congruence|].
  right. exists a, c. split_and!; [done..|].
  assert (b' = b) as -> by congruence. by eapply grows_trans.
Qed.

Lemma maps_grow_alter slot n key Maps :
  maps_grow Maps (alter (append_content slot n) key Maps).
Proof.
  intros key'. rewrite lookup_alter. case_decide; subst.
  - destruct (Maps !! key') as [m|] eqn:Hm; [|by left].
    right. simpl. eexists _, _.
    split_and!; [done|done|apply grows_append].
  - destruct (Maps !! key') as [m|] eqn:Hm; [|by left].
    right. eexists _, _. split_and!; [done|done|apply grows_refl].
Qed.

Lemma slot_loop maps (l : list (string * ProgramSpec.t)) Maps Maps' :
  for_each (slot_body maps) l Maps = (Maps', None) ->
  maps_grow Maps Maps'
  /\ forall n p id slot,
      (n, p) ∈ l ->
      fmt.Sscanf_d_slash_v (ProgramSpec.SectionName p) = Some (id, slot) ->
      exists key,
        maps !! id = Some key
        /\ forall m', Maps' !! key = Some m' ->
                      MapKV.mk (AnyUint32 slot) (AnyString n)
                      ∈ MapSpec.Contents m'.
Proof.
  revert Maps. induction l as [|[n p] l IH]; intros Maps.
  - simpl. intros [= <-]. split; [apply maps_grow_refl|].
    by intros ???? ?%elem_of_nil.
  - cbn [for_each]. unfold slot_body at 1.
    destruct (fmt.Sscanf_d_slash_v _) as [[id slot]|] eqn:Hscan.
    + destruct (maps !! id) as [key|] eqn:Hid; [|done].
      intros (Hg & Hrest)%IH. split.
      * eapply maps_grow_trans; [apply maps_grow_alter|done].
      * intros n' p' id' slot' [[= -> ->]|Hin]%elem_of_cons Hs;
          [|by eapply Hrest].
        rewrite Hscan in Hs. injection Hs as <- <-.
        exists key. split; [done|]. intros m' Hm'.
        destruct (Hg key) as [[_ ?]|(a & b & Ha & Hb & _ & _ & _ & more & E)];
          [congruence|].
        assert (b = m') as -> by congruence. rewrite E.
        rewrite lookup_alter in Ha. rewrite decide_True in Ha by done.
        destruct (Maps !! key) as [m0|]; [|done].
        injection Ha as <-. cbn. apply elem_of_app. left.
        apply elem_of_app. right. left.
    + intros (Hg & Hrest)%IH. split; [done|].
      intros n' p' id' slot' [[= -> ->]|Hin]%elem_of_cons Hs;
        [congruence|by eapply Hrest].
Qed.

Lemma range_singleton `{Countable K} {A} line round (k : K) (a : A) :
  range line round ({[k := a]} : gmap K A) = [(k, a)].
Proof.
  apply Permutation_singleton_r.
  by rewrite (range_permutation _ _ _ line round), map_to_list_singleton.
Qed.

Lemma has_trailer_id order m id pinning :
  has_trailer order m id pinning -> id <> 0 ->
  trailer_id order m = Some id
  /\ MapSpec.Pinning (decoded order m) = pinning.
Proof.
  intros (extra & Hex & Hlen & Hid & Hpin & _) Hne.
  unfold trailer_id, decoded. rewrite Hex.
  assert ((0 <? length extra)%nat = true) as -> by (apply Nat.ltb_lt; lia).
  assert ((16 <=? length extra)%nat = true) as ->
      by (apply Nat.leb_le; lia).
  cbn [andb]. rewrite Hid.
  apply Z.eqb_neq in Hne. rewrite Hne. done.
Qed.

(** The effect of a call that succeeds, for any id, pin type and slot. *)
Lemma iproute2Compat_ok cs cs' km m kp p id pinning slot :
  CollectionSpec.Maps cs !! km = Some m ->
  has_trailer (CollectionSpec.ByteOrder cs) m id pinning -> id <> 0 ->
  CollectionSpec.Programs cs !! kp = Some p ->
  fmt.Sscanf_d_slash_v (ProgramSpec.SectionName p) = Some (id, slot) ->
  iproute2Compat cs = (cs', None) ->
  exists m',
    CollectionSpec.Maps cs' !! km = Some m'
    /\ MapSpec.Pinning m' = pinning
    /\ MapSpec.Name m' = MapSpec.Name m
    /\ MapKV.mk (AnyUint32 slot) (AnyString kp) ∈ MapSpec.Contents m'.
Proof.
  intros Hkm Htr Hne Hkp Hscan. unfold iproute2Compat.
  destruct (for_each (trailer_body _) _ _) as [[Maps1 maps1] [e|]] eqn:H1;
    [done|].
  destruct (for_each (slot_body maps1) _ Maps1) as [Maps2 e] eqn:H2.
  intros [= <- ->]. cbn.
  apply trailer_loop in H1 as (Hdec & _ & Hreg & _ & _);
    [|apply range_NoDup_fst|by intros ?? ?%range_lookup].
  destruct (has_trailer_id _ _ _ _ Htr Hne) as [Hid Hpin].
  assert (Maps1 !! km = Some (decoded (CollectionSpec.ByteOrder cs) m))
    as Hkm1 by (by apply Hdec, range_lookup).
  assert (maps1 !! id = Some km) as Hreg1
      by (by eapply Hreg; [apply range_lookup|]).
  apply slot_loop in H2 as (Hg & Hslots).
  destruct (Hslots kp p id slot) as (key & Hkey & Hin);
    [by apply range_lookup|done|].
  assert (key = km) as -> by congruence.
  destruct (Hg km) as [[? _]|(a & m' & Ha & Hm' & Hn & _ & Hp & _)];
    [congruence|].
  assert (a = decoded (CollectionSpec.ByteOrder cs) m) as -> by congruence.
  exists m'. split_and!; [done|congruence| |by apply Hin].
  rewrite Hn. unfold decoded.
  destruct (MapSpec.Extra m) as [extra|]; [|done].
  by destruct (0 <? length extra)%nat.
Qed.

(** The call succeeds on the bundle made of one such map and one such
    program. *)
Lemma iproute2Compat_scenario cs km m kp p id pinning slot :
  CollectionSpec.Maps cs = {[km := m]} ->
  CollectionSpec.Programs cs = {[kp := p]} ->
  has_trailer (CollectionSpec.ByteOrder cs) m id pinning -> id <> 0 ->
  fmt.Sscanf_d_slash_v (ProgramSpec.SectionName p) = Some (id, slot) ->
  (iproute2Compat cs).2 = None.
Proof.
  intros HM HP Htr Hne Hscan. unfold iproute2Compat.
  rewrite HM, HP, !range_singleton. cbn [for_each].
  destruct (trailer_body _ _ _) as [[Maps1 maps1] [e|]] eqn:H1.
  - exfalso. unfold trailer_body in H1.
    destruct Htr as (extra & Hex & Hlen & Hid & _). rewrite Hex in H1.
    assert ((0 <? length extra)%nat = true) as Hl1
        by (apply Nat.ltb_lt; lia).
    assert ((length extra <? 16)%nat = false) as Hl2
        by (apply Nat.ltb_ge; lia).
    rewrite Hl1, Hl2, Hid in H1. cbn [negb] in H1.
    apply Z.eqb_neq in Hne. rewrite Hne in H1. cbn [negb] in H1.
    by rewrite lookup_empty in H1.
  - apply trailer_body_ok in H1 as (_ & -> & _).
    destruct (has_trailer_id _ _ _ _ Htr Hne) as [-> _].
    unfold slot_body. rewrite Hscan, lookup_insert_eq. done.
Qed.

(** C5, amended.  Let a bundle hold a map whose trailer decodes to
    {id: 3, pinning: 1, reserved: 0} and a program whose section name
    scans as id 3 and a slot, as "3/12" and "3/0xc" do for slot 12.
    Whenever iproute2Compat succeeds on it, the map has pin type 1 and its
    contents hold the entry (slot, the key the program is filed under);
    and it does succeed on the bundle that consists of that map and that
    program.  The slot is accepted as a decimal numeral and as a
    hexadecimal numeral after "0x". *)
Theorem iproute2Compat_assigns_slot cs km m kp p slot :
  CollectionSpec.Maps cs !! km = Some m ->
  has_trailer (CollectionSpec.ByteOrder cs) m 3 1 ->
  CollectionSpec.Programs cs !! kp = Some p ->
  fmt.Sscanf_d_slash_v (ProgramSpec.SectionName p) = Some (3, slot) ->
  ((iproute2Compat cs).2 = None ->
   exists m',
     CollectionSpec.Maps (iproute2Compat cs).1 !! km = Some m'
     /\ MapSpec.Pinning m' = 1
     /\ MapKV.mk (AnyUint32 slot) (AnyString kp) ∈ MapSpec.Contents m')
  /\ (CollectionSpec.Maps cs = {[km := m]} ->
      CollectionSpec.Programs cs = {[kp := p]} ->
      (iproute2Compat cs).2 = None)
  /\ fmt.Sscanf_d_slash_v "3/12" = Some (3, 12)
  /\ fmt.Sscanf_d_slash_v "3/0xc" = Some (3, 12)
  /\ (forall ds,
        numeral 10 ds -> hd 0 ds <> 0 -> numeral_value 10 ds < 2 ^ 32 ->
        fmt.Sscanf_d_slash_v (decimal_section [3] ds)
        = Some (3, numeral_value 10 ds))
  /\ (forall ds,
        numeral 16 ds -> numeral_value 16 ds < 2 ^ 32 ->
        fmt.Sscanf_d_slash_v (hex_section [3] ds)
        = Some (3, numeral_value 16 ds)).
Proof.
  intros Hkm Htr Hkp Hscan.
  assert (numeral 10 [3]) as H3 by (split; [done|repeat constructor; lia]).
  split_and!.
  - intros Hok. destruct (iproute2Compat cs) as [cs' e] eqn:Hrun.
    cbn [fst snd] in *. subst e.
    destruct (iproute2Compat_ok _ _ _ _ _ _ _ _ _ Hkm Htr ltac:(done)
                Hkp Hscan Hrun) as (m' & ? & ? & _ & ?).
    eauto.
  - intros. by eapply iproute2Compat_scenario.
  - reflexivity.
  - reflexivity.
  - intros ds. by apply (Sscanf_decimal_or_hex [3] ds H3).
  - intros ds. by apply (Sscanf_decimal_or_hex [3] ds H3).
Qed.

End Compat.

(** C5 on the bundle made of the map and of a program in section "3/12". *)
Lemma iproute2Compat_assigns_slot_witness :
  (exists m',
      CollectionSpec.Maps
        (@iproute2Compat key_order_runtime
           (Example.bundle_compat [Example.tail "tail_12" "3/12"])).1
      !! "cilium_calls_3" = Some m'
      /\ MapSpec.Pinning m' = 1
      /\ MapKV.mk (AnyUint32 12) (AnyString "tail_12")
         ∈ MapSpec.Contents m')
  /\ (@iproute2Compat key_order_runtime
        (Example.bundle_compat [Example.tail "tail_12" "3/12"])).2 = None.
Proof.
  destruct (@iproute2Compat_assigns_slot key_order_runtime
              (Example.bundle_compat [Example.tail "tail_12" "3/12"])
              "cilium_calls_3" Example.calls_map
              "tail_12" (Example.tail "tail_12" "3/12") 12)
    as (H1 & H2 & _).
  - vm_compute. reflexivity.
  - eexists. split; [reflexivity|].
    split; [simpl; lia|]. split; [vm_compute; reflexivity|].
    split; [vm_compute; reflexivity|].
    simpl. repeat constructor.
  - vm_compute. reflexivity.
  - vm_compute. reflexivity.
  - split; [apply H1|]; apply H2; vm_compute; reflexivity.
Defined.

(** C5 as stated does not hold: this bundle holds the map and a program
    with the section name "3/12", and a program "9/1" besides, for whose id
    there is no map; iproute2Compat fails. *)
Lemma iproute2Compat_counterexample :
  CollectionSpec.Maps
    (Example.bundle_compat
       [Example.tail "tail_12" "3/12"; Example.tail "other" "9/1"])
  !! "cilium_calls_3" = Some Example.calls_map
  /\ has_trailer binary.LittleEndian Example.calls_map 3 1
  /\ CollectionSpec.Programs
       (Example.bundle_compat
          [Example.tail "tail_12" "3/12"; Example.tail "other" "9/1"])
     !! "tail_12" = Some (Example.tail "tail_12" "3/12")
  /\ (@iproute2Compat key_order_runtime
        (Example.bundle_compat
           [Example.tail "tail_12" "3/12"; Example.tail "other" "9/1"])).2
     = Some (ErrNoMapWithID 9).
Proof.
  split_and!; [vm_compute; reflexivity| |vm_compute; reflexivity..].
  eexists. split; [reflexivity|].
  split; [simpl; lia|]. split; [vm_compute; reflexivity|].
  split; [vm_compute; reflexivity|]. simpl. repeat constructor.
Qed.

(* ===================================================================== *)
(** * applyConstants *)
(* ===================================================================== *)

Section Constants.

Context `{RT : GoRuntime} `{EXT : Externals}.

Implicit Types (vars : gmap string VariableSpec.t).






End Constants.



(* ===================================================================== *)
(** * LoadCollection *)
(* ===================================================================== *)

Section LoadTheorems.

Context `{RT : GoRuntime} `{EXT : Externals}.

Lemma writes_only_ret {A} l (a : A) : writes_only l (ret a).
Proof. done. Qed.

Lemma writes_only_fail {A} l e : writes_only l (fail (A := A) e).
Proof. done. Qed.

Lemma writes_only_bind {A B} l (m : M A) (f : A -> M B) :
  writes_only l m -> (forall a, writes_only l (f a)) ->
  writes_only l (bind m f).
Proof.
  intros Hm Hf w l' Hne. unfold bind. specialize (Hm w l' Hne).
  destruct (m w) as [[a|e] w1]; cbn [snd] in *; [|done].
  by rewrite (Hf a w1 l' Hne).
Qed.

Lemma writes_only_through {A} l
      (f : CollectionSpec.t -> CollectionSpec.t * A) :
  writes_only l (through l f).
Proof.
  intros w l' Hne. unfold through.
  destruct (heap w !! l) as [v|]; [|done]. destruct (f v) as [v' a].
  cbn. by rewrite lookup_insert_ne.
Qed.

Lemma writes_only_check l wrap (m : M (option Error)) :
  writes_only l m -> writes_only l (check wrap m).
Proof.
  intros Hm. apply writes_only_bind; [done|].
  intros [e|]; [apply writes_only_fail|apply writes_only_ret].
Qed.

Lemma writes_only_load l opts : writes_only l (load l opts).
Proof.
  intros w l' Hne. unfold load.
  destruct (heap w !! l) as [v|]; [|done].
  by destruct (NewCollectionWithOptions _ _ _).
Qed.

Lemma writes_only_find_incompatible l opts :
  writes_only l (find_incompatible l opts).
Proof.
  intros w l' Hne. unfold find_incompatible.
  destruct (heap w !! l) as [v|]; [|done].
  destruct (incompatibleMaps _ _ _). cbn. by rewrite lookup_insert_ne.
Qed.

Lemma writes_only_load_prepared l o toReplace :
  writes_only l (load_prepared l o toReplace).
Proof.
  unfold load_prepared.
  apply writes_only_bind; [apply writes_only_load|]. intros r.
  apply writes_only_bind.
  - destruct r as [c|err]; [apply writes_only_ret|].
    destruct (is_ErrMapIncompatible err); [|apply writes_only_ret].
    apply writes_only_bind; [apply writes_only_find_incompatible|].
    intros [inc|e]; [|apply writes_only_fail].
    apply writes_only_bind; [apply writes_only_load|].
    intros. apply writes_only_ret.
  - intros [[c|err] t]; [|apply writes_only_fail].
    destruct (mapsToReplace t c); [apply writes_only_ret
                                  |apply writes_only_fail].
Qed.

Lemma local_ret l {A} (a : A) : local l (ret a).
Proof. done. Qed.
Lemma local_fail l {A} e : local l (fail (A := A) e).
Proof. done. Qed.
Lemma local_bind l {A B} (m : M A) (f : A -> M B) :
  local l m -> (forall a, local l (f a)) -> local l (bind m f).
Proof.
  intros Hm Hf w. unfold bind. destruct (Hm w) as (H1 & H2 & H3).
  destruct (m w) as [[a|e] w1]; cbn [snd] in *; [|done].
  destruct (Hf a w1) as (H1' & H2' & H3').
  split_and!; [congruence..|auto].
Qed.
Lemma local_through l {A} (f : CollectionSpec.t -> CollectionSpec.t * A) :
  local l (through l f).
Proof.
  intros w. unfold through.
  destruct (heap w !! l) as [v|]; [|done]. destruct (f v).
  cbn. rewrite lookup_insert_eq. eauto.
Qed.
Lemma local_check l wrap (m : M (option Error)) :
  local l m -> local l (check wrap m).
Proof.
  intros Hm. apply local_bind; [done|].
  intros [e|]; [apply local_fail|apply local_ret].
Qed.

Lemma prepare_rest_spec l o :
  writes_only l (prepare_rest l o) /\ local l (prepare_rest l o)
  /\ forall w l' o' t, (prepare_rest l o w).1 = inl (l', o', t) ->
                       l' = l /\ o' = o.
Proof.
  unfold prepare_rest. split_and!.
  - apply writes_only_bind;
      [apply writes_only_check, writes_only_through|intros _].
    apply writes_only_bind;
      [apply writes_only_check, writes_only_through|intros _].
    apply writes_only_bind; [apply writes_only_through|intros t].
    apply writes_only_ret.
  - apply local_bind; [apply local_check, local_through|intros _].
    apply local_bind; [apply local_check, local_through|intros _].
    apply local_bind; [apply local_through|intros t]. apply local_ret.
  - intros w l' o' t. unfold bind.
    destruct (check id _ w) as [[[]|e] w1]; [|done].
    destruct (check ErrApplyingOverrides _ w1) as [[[]|e] w2]; [|done].
    destruct (through l consumePinReplace w2) as [[t'|e] w3]; [|done].
    cbn. by intros [= <- <- _].
Qed.

Lemma prepare_eq spec opts :
  prepare spec opts =
  match spec with
  | None => fail ErrNilCollectionSpec
  | Some spec =>
    bind (Copy spec)
         (fun l => prepare_rest l
            (default (mkCollectionOptions zero_options None ∅) opts))
  end.
Proof. done. Qed.

(** The steps before the load work on a new object and leave the kernel
    alone. *)
Lemma prepare_spec spec opts w :
  let r := prepare spec opts w in
  unchanged w r.2 /\ loads r.2 = loads w /\ kernel r.2 = kernel w
  /\ forall l o toReplace,
      r.1 = inl (l, o, toReplace) ->
      heap w !! l = None /\ is_Some (heap r.2 !! l)
      /\ o = default (mkCollectionOptions zero_options None ∅) opts.
Proof.
  assert (forall e,
    unchanged w w /\ loads w = loads w /\ kernel w = kernel w
    /\ forall l (o : CollectionOptions) (toReplace : list string),
        @inr (positive * CollectionOptions * list string) Error e
        = inl (l, o, toReplace) ->
        heap w !! l = None /\ is_Some (heap w !! l)
        /\ o = default (mkCollectionOptions zero_options None ∅) opts)
    as Hfail.
  { intros e. split_and!; [by intros ??|done..]. }
  rewrite prepare_eq. destruct spec as [l0|]; [|apply Hfail].
  set (o := default _ opts). unfold bind, Copy.
  destruct (heap w !! l0) as [v0|] eqn:Hl0; [|apply Hfail].
  set (l := fresh (dom (heap w))).
  assert (heap w !! l = None) as Hfresh.
  { apply not_elem_of_dom, is_fresh. }
  set (w0 := mkWorld _ _ _).
  destruct (prepare_rest_spec l o) as (Hw & Hloc & Hres).
  destruct (Hloc w0) as (Hk & Hlo & Hsome). cbv zeta.
  split_and!.
  - intros l' v' Hl'. rewrite Hw.
    + cbn. rewrite lookup_insert_ne; [done|]. intros <-. congruence.
    + intros ->. congruence.
  - by rewrite Hlo.
  - by rewrite Hk.
  - intros l' o' t Hr. destruct (Hres _ _ _ _ Hr) as [-> ->].
    split_and!; [done| |done]. apply Hsome. cbn.
    rewrite lookup_insert_eq. eauto.
Qed.

(** C7. LoadCollection leaves every object that exists when it is called
    as it was, the caller's specification among them: all it writes goes
    to the copy it makes. *)
Theorem LoadCollection_frame spec opts w l v :
  heap w !! l = Some v ->
  heap (LoadCollection spec opts w).2 !! l = Some v.
Proof.
  intros Hl. unfold LoadCollection, bind.
  pose proof (prepare_spec spec opts w) as (Hun & _ & _ & Hcopy).
  cbv zeta in Hun, Hcopy.
  destruct (prepare spec opts w) as [[[[l' o] t]|e] w1] eqn:Hp;
    cbn [fst snd] in *; [|by apply Hun].
  destruct (Hcopy l' o t eq_refl) as (Hfresh & _).
  rewrite writes_only_load_prepared; [by apply Hun|].
  intros ->. congruence.
Qed.

Lemma mapsToReplace_names toReplace (c : gmap string MapHandle) pins :
  mapsToReplace toReplace c = inl pins -> pins.*1 = toReplace.
Proof.
  revert pins. induction toReplace as [|key rest IH]; intros pins; simpl.
  - by intros [= <-].
  - destruct (c !! key); [|done].
    destruct (mapsToReplace rest c) as [ps|]; [|done].
    intros [= <-]. cbn. f_equal. by apply IH.
Qed.

(** The load, the retry and the pins, step by step. *)
Lemma load_prepared_eq l o toReplace w1 v :
  heap w1 !! l = Some v ->
  load_prepared l o toReplace w1 =
  let opts := CollectionOptions_ o in
  let finish (c : gmap string MapHandle) t w :=
    match mapsToReplace t c with
    | inl pins => (inl (mkLoaded c pins), w)
    | inr e => (inr e, w)
    end in
  let '(r1, k1) := NewCollectionWithOptions v opts (kernel w1) in
  let wa := mkWorld (heap w1) k1 (loads w1 ++ [v]) in
  match r1 with
  | inl c => finish c toReplace wa
  | inr err =>
    if is_ErrMapIncompatible err then
      let '(v', inc) := incompatibleMaps v opts k1 in
      let wb := mkWorld (<[l := v']> (heap w1)) k1 (loads w1 ++ [v]) in
      match inc with
      | inr e => (inr (ErrFindingIncompatible e), wb)
      | inl incompatible =>
        let '(r2, k2) := NewCollectionWithOptions v' opts k1 in
        let wc := mkWorld (<[l := v']> (heap w1)) k2
                          ((loads w1 ++ [v]) ++ [v']) in
        match r2 with
        | inl c => finish c (toReplace ++ incompatible) wc
        | inr err2 => (inr (ErrKernel err2), wc)
        end
      end
    else (inr (ErrKernel err), wa)
  end.
Proof.
  intros Hv. unfold load_prepared, bind, load at 1. rewrite Hv.
  destruct (NewCollectionWithOptions v _ _) as [[c|err] k1]; cbn.
  - by destruct (mapsToReplace toReplace c).
  - destruct (is_ErrMapIncompatible err); [|done].
    unfold find_incompatible. cbn. rewrite Hv.
    destruct (incompatibleMaps v _ k1) as [v' [inc|e]]; [|done].
    unfold load. cbn. rewrite lookup_insert_eq.
    destruct (NewCollectionWithOptions v' _ k1) as [[c|err2] k2]; cbn;
      [|done].
    by destruct (mapsToReplace _ c).
Qed.

(** C2, amended.  Let the steps before the load have produced the copy
    [v] and the set [toReplace], and let [r1] be the outcome of the first
    call to the kernel loader.  If it is an error other than the
    incompatibility of a map with its pin, that error is returned and the
    loader was called once.  If it is that incompatibility and
    [incompatibleMaps] fails, its error is returned and the loader was
    called once.  If it is that incompatibility and [incompatibleMaps]
    returns [incompatible], the loader is called exactly once more, on
    the specification [incompatibleMaps] left; an error of that call is
    returned, and on success the pins of the commit function are those of
    [toReplace ++ incompatible], every incompatible map among them. *)
Theorem LoadCollection_retry spec opts w l o toReplace w1 v r1 k1 :
  prepare spec opts w = (inl (l, o, toReplace), w1) ->
  heap w1 !! l = Some v ->
  NewCollectionWithOptions v (CollectionOptions_ o) (kernel w1)
  = (r1, k1) ->
  let res := (LoadCollection spec opts w).1 in
  let w' := (LoadCollection spec opts w).2 in
  loads w1 = loads w
  /\ (forall err,
        r1 = inr err -> is_ErrMapIncompatible err = false ->
        res = inr (ErrKernel err) /\ loads w' = loads w ++ [v])
  /\ (forall err v' e,
        r1 = inr err -> is_ErrMapIncompatible err = true ->
        incompatibleMaps v (CollectionOptions_ o) k1 = (v', inr e) ->
        res = inr (ErrFindingIncompatible e)
        /\ loads w' = loads w ++ [v])
  /\ (forall err v' incompatible r2 k2,
        r1 = inr err -> is_ErrMapIncompatible err = true ->
        incompatibleMaps v (CollectionOptions_ o) k1
        = (v', inl incompatible) ->
        NewCollectionWithOptions v' (CollectionOptions_ o) k1
        = (r2, k2) ->
        loads w' = loads w ++ [v; v']
        /\ match r2 with
           | inr err2 => res = inr (ErrKernel err2)
           | inl c =>
             res = match mapsToReplace (toReplace ++ incompatible) c with
                   | inl pins => inl (mkLoaded c pins)
                   | inr e => inr e
                   end
           end
        /\ forall loaded,
            res = inl loaded ->
            (pins loaded).*1 = toReplace ++ incompatible
            /\ forall name, name ∈ incompatible ->
                            name ∈ (pins loaded).*1).
Proof.
  intros Hp Hv H1 res w'.
  pose proof (prepare_spec spec opts w) as (_ & Hloads & _).
  cbv zeta in Hloads. rewrite Hp in Hloads. cbn [snd] in Hloads.
  split; [done|].
  assert (LoadCollection spec opts w = load_prepared l o toReplace w1) as E.
  { unfold LoadCollection, bind. by rewrite Hp. }
  subst res w'. rewrite E, (load_prepared_eq _ _ _ _ _ Hv). clear E.
  cbv zeta. rewrite H1, Hloads.
  split_and!.
  - intros err -> Hinc. by rewrite Hinc.
  - intros err v' e -> Hinc Hfind. by rewrite Hinc, Hfind.
  - intros err v' incompatible r2 k2 -> Hinc Hfind H2.
    rewrite Hinc, Hfind, H2, <- app_assoc.
    destruct r2 as [c|err2]; cbn [fst snd].
    + destruct (mapsToReplace _ c) as [ps|e] eqn:Hps; cbn [fst snd loads].
      * split; [done|]. split; [done|]. intros loaded [= <-]. cbn.
        apply mapsToReplace_names in Hps. rewrite Hps.
        split; [done|]. intros name Hin. apply elem_of_app. by right.
      * split; [done|]. split; [done|]. by intros loaded [=].
    + split; [done|]. split; [done|]. by intros loaded [=].
Qed.

End LoadTheorems.

(** C7 on the toy kernel: the load strips the pin type of the copy at
    location 2, and the caller's specification at location 1 keeps it. *)
Lemma LoadCollection_frame_witness :
  heap (@LoadCollection key_order_runtime Toy.externals
          (Some 1%positive) None (Toy.world true)).2 !! 1%positive
  = Some Toy.spec
  /\ (CollectionSpec.Maps <$>
      heap (@LoadCollection key_order_runtime Toy.externals
              (Some 1%positive) None (Toy.world true)).2 !! 2%positive)
     = Some {["cilium_policy"%string :=
                MapSpec.mk "cilium_policy" None 0 []]}.
Proof.
  split.
  - apply (@LoadCollection_frame key_order_runtime Toy.externals).
    reflexivity.
  - reflexivity.
Defined.

(** C2 on the toy kernel with readable pins: the first load fails, the
    second succeeds, and the map is among the pins to replace. *)
Lemma LoadCollection_retry_witness :
  exists loaded,
    (@LoadCollection key_order_runtime Toy.externals
       (Some 1%positive) None (Toy.world true)).1 = inl loaded
    /\ "cilium_policy"%string ∈ (pins loaded).*1
    /\ length (loads (@LoadCollection key_order_runtime Toy.externals
                        (Some 1%positive) None (Toy.world true)).2)
       = 2%nat.
Proof.
  pose (w1 := (@prepare key_order_runtime Toy.externals
                 (Some 1%positive) None (Toy.world true)).2).
  pose (o := @mkCollectionOptions Toy.externals tt None ∅).
  pose (k := Toy.mkKernel ["cilium_policy"%string] true).
  pose (v' := CollectionSpec.set_Maps
                {["cilium_policy"%string :=
                    MapSpec.mk "cilium_policy" None 0 []]} Toy.spec).
  pose (err := mkKernelError true "map incompatible with its pin").
  pose proof (@LoadCollection_retry key_order_runtime Toy.externals
                (Some 1%positive) None (Toy.world true)
                2%positive o [] w1 Toy.spec (inr err) k
                eq_refl eq_refl eq_refl) as H.
  cbv zeta in H. destruct H as (_ & _ & _ & H).
  pose proof (H err v' ["cilium_policy"%string]
                (inl {["cilium_policy"%string := "cilium_policy"%string]}) k
                eq_refl eq_refl eq_refl eq_refl) as (Hloads & _ & Hpins).
  exists (@mkLoaded Toy.externals
            {["cilium_policy"%string := "cilium_policy"%string]}
            [("cilium_policy"%string, "cilium_policy"%string)]).
  split; [reflexivity|]. split.
  - apply (Hpins _ eq_refl). left.
  - reflexivity.
Defined.

(** C2 as stated does not hold.  The first call to the kernel loader fails
    because a map is incompatible with its pin, but the pins cannot be
    opened, so that [incompatibleMaps] fails: its error is returned and the
    loader is not called again. *)
Lemma LoadCollection_retry_counterexample :
  (exists e,
      (@NewCollectionWithOptions Toy.externals Toy.spec tt
         (@kernel Toy.externals (Toy.world false))).1 = inr e
      /\ is_ErrMapIncompatible e = true)
  /\ (@LoadCollection key_order_runtime Toy.externals
        (Some 1%positive) None (Toy.world false)).1
     = inr (ErrFindingIncompatible
              (mkKernelError false "cannot open the pin"))
  /\ loads (@LoadCollection key_order_runtime Toy.externals
              (Some 1%positive) None (Toy.world false)).2
     = [Toy.spec].
Proof.
  split_and!; [|reflexivity..].
  eexists. split; reflexivity.
Qed.

(** ** The theorems about removeUnreachableTailcalls on the example
       bundles *)

Lemma NoDup_slots_distinct (cs : CollectionSpec.t) :
  NoDup (slots_of (map_to_list (CollectionSpec.Programs cs))) ->
  distinct_slots cs.
Proof.
  intros Hnd k1 p1 k2 p2 s H1 H2 Hc1 Hc2.
  assert ((k1, p1) = (k2, p2)) as [= -> ->]; [|done].
  eapply slots_of_NoDup_inj;
    [done|apply NoDup_fst_map_to_list|by apply elem_of_map_to_list..
     |done|done].
Qed.

(** C1 on the bundle with an entrypoint that calls slot 7 and candidates at
    the slots 7 and 9: the candidate at slot 9 goes. *)
Lemma removeUnreachableTailcalls_prunes_witness :
  keyed_by_name Example.bundle
  /\ @removeUnreachableTailcalls key_order_runtime ebpf_opcodes
       Example.bundle = Some (Example.bundle_pruned, None)
  /\ (forall k p,
        CollectionSpec.Programs Example.bundle_pruned !! k = Some p <->
        CollectionSpec.Programs Example.bundle !! k = Some p
        /\ @scanned ebpf_opcodes Example.bundle p).
Proof.
  assert (keyed_by_name Example.bundle) as H1.
  { refine (bool_decide_unpack _ _). vm_compute. exact I. }
  assert (@removeUnreachableTailcalls key_order_runtime ebpf_opcodes
            Example.bundle = Some (Example.bundle_pruned, None)) as H2.
  { vm_compute. reflexivity. }
  split; [exact H1|]. split; [exact H2|].
  destruct (@removeUnreachableTailcalls_prunes key_order_runtime
              ebpf_opcodes _ _ H1 H2) as (tcs & _ & H & _).
  exact H.
Defined.

(** The deletion is by the name of the program, not by the key of the map
    of programs: on a bundle that files a candidate under a key that is
    not its name, the program of that name goes, here an entrypoint. *)
Remark deletion_is_by_name :
  @removeUnreachableTailcalls key_order_runtime ebpf_opcodes
    Example.bundle_misfiled
  = Some (CollectionSpec.mk
            {["tail_9"%string := Example.tail "cil_to_host" "2/9"]}
            ∅ ∅ binary.LittleEndian, None).
Proof. vm_compute. reflexivity. Qed.

(** C8 on the bundle with the candidates "2/7" and "2/0x7". *)
Lemma duplicate_slot_is_error_witness :
  exists s' k1' p1' k2' p2',
    @removeUnreachableTailcalls key_order_runtime ebpf_opcodes
      Example.bundle_dup
    = Some (Example.bundle_dup, Some (ErrDuplicateTailCall s'))
    /\ k1' <> k2'
    /\ CollectionSpec.Programs Example.bundle_dup !! k1' = Some p1'
    /\ CollectionSpec.Programs Example.bundle_dup !! k2' = Some p2'
    /\ candidate p1' = Some s' /\ candidate p2' = Some s'.
Proof.
  apply (@duplicate_slot_is_error key_order_runtime ebpf_opcodes
           Example.bundle_dup
           "tail_7" (Example.tail "tail_7" "2/7")
           "tail_7x" (Example.tail "tail_7x" "2/0x7") 7).
  - vm_compute. reflexivity.
  - vm_compute. reflexivity.
  - discriminate.
  - vm_compute. reflexivity.
  - vm_compute. reflexivity.
Defined.

(** C9 on the bundle whose entrypoint calls slot 7 while the only
    candidate is at slot 9. *)
Lemma unknown_slot_is_error_witness :
  exists k' p' i' c' s',
    @removeUnreachableTailcalls key_order_runtime ebpf_opcodes
      Example.bundle_missing
    = Some (Example.bundle_missing,
            Some (ErrUnknownTailCall (ProgramSpec.SectionName p')
                                     (ProgramSpec.Name p') c' i'))
    /\ CollectionSpec.Programs Example.bundle_missing !! k' = Some p'
    /\ @scanned ebpf_opcodes Example.bundle_missing p'
    /\ @calls_at ebpf_opcodes p' i' c' s'
    /\ forall k'' p'',
        CollectionSpec.Programs Example.bundle_missing !! k'' = Some p'' ->
        candidate p'' <> Some s'.
Proof.
  apply (@unknown_slot_is_error key_order_runtime ebpf_opcodes
           Example.bundle_missing "cil_from_netdev" Example.entry
           3%nat 7 7).
  - apply NoDup_slots_distinct.
    refine (bool_decide_unpack _ _). vm_compute. exact I.
  - vm_compute. reflexivity.
  - left. vm_compute. reflexivity.
  - split; [simpl; lia|]. split; vm_compute; reflexivity.
  - refine (bool_decide_unpack _ _). vm_compute. exact I.
Defined.

(** C10 on the bundle whose entrypoint is the idiom for slot 9 and nothing
    else. *)
Lemma tail_call_at_index_2_is_missed_witness :
  @tail_call_at ebpf_opcodes Example.short_entry 2 = Some 9
  /\ @removeUnreachableTailcalls key_order_runtime ebpf_opcodes
       Example.bundle_short
     = Some (Example.bundle_of [Example.short_entry], None)
  /\ ~ @calls ebpf_opcodes Example.short_entry (9 mod 2 ^ 32)
  /\ ~ @reachable ebpf_opcodes Example.bundle_short (9 mod 2 ^ 32)
  /\ CollectionSpec.Programs (Example.bundle_of [Example.short_entry])
       !! "tail_9" = None.
Proof.
  split; [vm_compute; reflexivity|].
  split; [vm_compute; reflexivity|].
  apply (@tail_call_at_index_2_is_missed key_order_runtime ebpf_opcodes
           Example.bundle_short (Example.bundle_of [Example.short_entry])
           "cil_to_netdev" Example.short_entry 9
           "tail_9" (Example.tail "tail_9" "2/9")).
  - refine (bool_decide_unpack _ _). vm_compute. exact I.
  - vm_compute. reflexivity.
  - vm_compute. reflexivity.
  - vm_compute. reflexivity.
  - vm_compute. reflexivity.
  - vm_compute. reflexivity.
  - vm_compute. reflexivity.
  - intros k' p' i c' Hk' Hi Ht. exfalso.
    apply elem_of_map_to_list in Hk'.
    assert (p' = Example.short_entry
            \/ p' = Example.tail "tail_9" "2/9") as [-> | ->].
    { vm_compute in Hk'.
      apply elem_of_cons in Hk' as [Heq|Hk'];
        [injection Heq as _ ->; first [by left|by right]|].
      apply elem_of_cons in Hk' as [Heq|Hk'];
        [injection Heq as _ ->; first [by left|by right]|].
      by apply elem_of_nil in Hk'. }
    + destruct i as [|[|[|i]]]; [lia..|]. vm_compute in Ht. discriminate.
    + destruct i as [|[|[|i]]]; [lia..|]. vm_compute in Ht. discriminate.
Defined.

(* ===================================================================== *)
(** * removeUnreachableTailcalls: when it succeeds, and what it leaves *)
(* ===================================================================== *)


Section TailcallsMore.

Context `{RT : GoRuntime} `{OPS : asm.OpCodes}.

Implicit Types (tcs : gmap Z TailCall) (prog p : ProgramSpec.t).

(** After a scan without error, every reachable slot has its candidate. *)
Lemma reachable_candidate cs tcs s :
  resolve_tailcalls cs = Some (tcs, None) -> reachable cs s ->
  exists k p, CollectionSpec.Programs cs !! k = Some p
              /\ candidate p = Some s.
Proof.
  intros Hres Hreach. unfold resolve_tailcalls in Hres.
  destruct (for_each partition_body _ _) as [[eps T0] [e|]] eqn:Hp;
    [done|].
  destruct (for_each visit eps T0) as [T1 [e|]] eqn:Hv; [done|].
  pose proof (Inv_entry _ _ _ Hp _ Hv) as HI.
  pose proof (reset_spec _ _ _ Hp _ _ _ _ HI Hres) as [HI' Hdone].
  cbn [fst snd] in *.
  destruct (fixed_point _ _ _ Hp _ HI' Hdone s Hreach) as (a & Ha & _).
  destruct (Inv_program _ _ _ Hp _ _ _ HI' Ha) as (k' & Hk' & Hc').
  eauto.
Qed.

Lemma scanned_calls cs p i c s :
  forall k, CollectionSpec.Programs cs !! k = Some p -> scanned cs p ->
            calls_at p i c s -> reachable cs s.
Proof.
  intros k Hk [Hc|(s0 & Hc & Hr)] Hcall.
  - eapply reach_entry; [done..|]. by exists i, c.
  - eapply reach_step; [done..|]. by exists i, c.
Qed.

Lemma resolve_ok_conditions cs tcs :
  resolve_tailcalls cs = Some (tcs, None) ->
  distinct_slots cs /\ calls_resolve cs.
Proof.
  intros Hres. split; [by destruct (resolve_ok _ _ Hres)|].
  intros k p i c s Hk Hsc Hcall.
  eapply reachable_candidate; [done|].
  by apply (scanned_calls cs p i c s k).
Qed.

Lemma resolve_conditions_ok cs :
  distinct_slots cs -> calls_resolve cs ->
  exists tcs, resolve_tailcalls cs = Some (tcs, None).
Proof.
  intros Hd Hcalls.
  destruct (resolve_terminates cs) as [[tcs [e|]] Hres]; [|eauto].
  exfalso. apply resolve_err in Hres
    as [(s' & a & pa & b & pb & _ & Hne & Ha & Hb & Hca & Hcb)
       |[_ (k & p & i & c & s & _ & Hk & Hsc & Hcall & Hno)]].
  - destruct Hne. by eapply Hd.
  - destruct (Hcalls _ _ _ _ _ Hk Hsc Hcall) as (k' & p' & Hk' & Hc').
    by eapply Hno.
Qed.

Lemma remove_resolve cs :
  (exists cs', removeUnreachableTailcalls cs = Some (cs', None)) <->
  exists tcs, resolve_tailcalls cs = Some (tcs, None).
Proof.
  unfold removeUnreachableTailcalls.
  destruct (resolve_tailcalls cs) as [[tcs [e|]]|].
  - split; [by intros [? [=]]|by intros [? [=]]].
  - destruct (for_each delete_body _ _) as [progs o]. split; eauto.
  - split; [by intros [? [=]]|by intros [? [=]]].
Qed.

(** The programs a run without error leaves: those the scan looked at. *)
Lemma remove_scanned cs cs' :
  keyed_by_name cs ->
  removeUnreachableTailcalls cs = Some (cs', None) ->
  forall k p,
    CollectionSpec.Programs cs' !! k = Some p <->
    CollectionSpec.Programs cs !! k = Some p /\ scanned cs p.
Proof.
  intros Hkey Hrun.
  destruct (remove_programs _ _ Hkey Hrun)
    as (tcs & Hres & HM & HV & HB & Hprogs).
  destruct (resolve_ok _ _ Hres) as (_ & Hcand & _).
  intros k p. rewrite Hprogs. unfold scanned.
  destruct (CollectionSpec.Programs cs !! k) as [q|] eqn:Hk;
    [|naive_solver].
  destruct (candidate q) as [s|] eqn:Hc.
  - destruct (Hcand k q s Hk Hc) as (tc & Hs & Hsp & Href). rewrite Hs.
    destruct (referenced tc) eqn:Hr.
    + split; [|naive_solver]. intros [= <-]. split; [done|].
      right. exists s. split; [done|]. by apply Href.
    + split; [done|]. intros [[= <-] [?|(s' & ? & Hreach)]];
        [congruence|].
      assert (s' = s) as -> by congruence.
      apply Href in Hreach. congruence.
  - split; [|naive_solver]. intros [= <-]. auto.
Qed.

Lemma remove_frame cs cs' e :
  removeUnreachableTailcalls cs = Some (cs', e) ->
  CollectionSpec.Maps cs' = CollectionSpec.Maps cs
  /\ CollectionSpec.Variables cs' = CollectionSpec.Variables cs
  /\ CollectionSpec.ByteOrder cs' = CollectionSpec.ByteOrder cs.
Proof.
  unfold removeUnreachableTailcalls.
  destruct (resolve_tailcalls cs) as [[tcs [e0|]]|]; [|..|done].
  - by intros [= <- <-].
  - destruct (for_each delete_body _ _). by intros [= <- <-].
Qed.

Lemma CollectionSpec_eq (a b : CollectionSpec.t) :
  CollectionSpec.Programs a = CollectionSpec.Programs b ->
  CollectionSpec.Maps a = CollectionSpec.Maps b ->
  CollectionSpec.Variables a = CollectionSpec.Variables b ->
  CollectionSpec.ByteOrder a = CollectionSpec.ByteOrder b -> a = b.
Proof. destruct a, b. cbn. by intros -> -> -> ->. Qed.

(** X3. removeUnreachableTailcalls returns without error exactly when no
    two programs are candidates for the same slot and every static tail
    call into the calls map made by a program the scan looks at goes to a
    slot that has a candidate.  A call to a missing slot made by a
    candidate that is not reachable is no error. *)
Theorem removeUnreachableTailcalls_succeeds_iff cs :
  (exists cs', removeUnreachableTailcalls cs = Some (cs', None)) <->
  distinct_slots cs /\ calls_resolve cs.
Proof.
  rewrite remove_resolve. split.
  - intros [tcs Hres]. by eapply resolve_ok_conditions.
  - intros [Hd Hc]. by apply resolve_conditions_ok.
Qed.

(** X5. Running removeUnreachableTailcalls a second time changes nothing:
    on the specification a first run without error leaves, the function
    returns without error and deletes no program. *)
Theorem removeUnreachableTailcalls_idempotent cs cs' :
  keyed_by_name cs ->
  removeUnreachableTailcalls cs = Some (cs', None) ->
  removeUnreachableTailcalls cs' = Some (cs', None).
Proof.
  intros Hkey Hrun.
  pose proof (remove_scanned _ _ Hkey Hrun) as Hprogs.
  assert (exists tcs, resolve_tailcalls cs = Some (tcs, None))
    as [tcs Hres] by (apply remove_resolve; eauto).
  destruct (resolve_ok_conditions _ _ Hres) as [Hd Hcalls].
  assert (forall s, reachable cs s -> reachable cs' s) as Hreach.
  { intros s Hs. induction Hs as [k p s Hk Hc Hcall
                                 |k p s' s Hk Hc Hs' IH Hcall].
    - apply (reach_entry cs' k p s); [|done..].
      apply Hprogs. split; [done|by left].
    - apply (reach_step cs' k p s' s); [|done..].
      apply Hprogs. split; [done|]. right. eauto. }
  assert (forall p, scanned cs p -> scanned cs' p) as Hscan.
  { intros p [?|(s & ? & ?)]; [by left|]. right. eauto. }
  assert (keyed_by_name cs') as Hkey'.
  { intros k p [Hk _]%Hprogs. by apply Hkey. }
  assert (exists cs'', removeUnreachableTailcalls cs' = Some (cs'', None))
    as [cs'' Hrun'].
  { apply remove_resolve, resolve_conditions_ok.
    - intros k1 p1 k2 p2 s [H1 _]%Hprogs [H2 _]%Hprogs. by apply Hd.
    - intros k p i c s [Hk Hsc]%Hprogs _ Hcall.
      destruct (Hcalls _ _ _ _ _ Hk Hsc Hcall) as (k' & p' & Hk' & Hc').
      exists k', p'. split; [|done]. apply Hprogs. split; [done|].
      right. exists s. split; [done|].
      by apply (scanned_calls cs p i c s k). }
  rewrite Hrun'. do 2 f_equal.
  pose proof (remove_scanned _ _ Hkey' Hrun') as Hprogs'.
  destruct (remove_frame _ _ _ Hrun') as (? & ? & ?).
  apply CollectionSpec_eq; [|done..].
  apply map_eq. intros k. apply option_eq. intros p.
  rewrite Hprogs'. split; [by intros [? _]|].
  intros Hk. split; [done|]. apply Hscan. by apply Hprogs in Hk as [_ ?].
Qed.

(** X4. The function returns for every specification, and whatever the
    outcome it only deletes programs: the programs it leaves are programs
    it found, unchanged and under their keys, and the maps, the variables
    and the byte order are as they were.  Its only errors are "duplicate
    tail call index" and "executes tail call to unknown index", and with
    either the specification is as it was. *)
Theorem removeUnreachableTailcalls_only_deletes cs :
  exists cs' e,
    removeUnreachableTailcalls cs = Some (cs', e)
    /\ CollectionSpec.Programs cs' ⊆ CollectionSpec.Programs cs
    /\ CollectionSpec.Maps cs' = CollectionSpec.Maps cs
    /\ CollectionSpec.Variables cs' = CollectionSpec.Variables cs
    /\ CollectionSpec.ByteOrder cs' = CollectionSpec.ByteOrder cs
    /\ match e with
       | None => True
       | Some (ErrDuplicateTailCall _)
       | Some (ErrUnknownTailCall _ _ _ _) => cs' = cs
       | Some _ => False
       end.
Proof.
  unfold removeUnreachableTailcalls.
  destruct (resolve_terminates cs) as [[tcs [e|]] Hres]; rewrite Hres.
  - exists cs, (Some e). split_and!; [done..|].
    apply resolve_err in Hres
      as [(? & ? & ? & ? & ? & -> & _)|[_ (? & ? & ? & ? & ? & -> & _)]];
      done.
  - pose proof (for_each_ind (E := Error) delete_body
                  (fun progs => progs ⊆ CollectionSpec.Programs cs)
                  (fun _ => True) (range 170 0 tcs)
                  (CollectionSpec.Programs cs)) as [Hsub _]; [done|..].
    { intros a progs s' e _ HP Hb. unfold delete_body in Hb.
      destruct (negb _); injection Hb as <- <-; split; try done.
      etrans; [apply delete_subseteq|done]. }
    destruct (for_each delete_body _ _) as [progs o]. cbn [fst] in Hsub.
    eexists _, None. split_and!; done.
Qed.

End TailcallsMore.

(** X6. The outcome of a run without error does not depend on the order
    in which the runtime ranges over the programs and the table: any two
    runtimes leave the same specification. *)
Theorem removeUnreachableTailcalls_order_independent
        (RT1 RT2 : GoRuntime) `{OPS : asm.OpCodes} cs cs' :
  keyed_by_name cs ->
  @removeUnreachableTailcalls RT1 OPS cs = Some (cs', None) ->
  @removeUnreachableTailcalls RT2 OPS cs = Some (cs', None).
Proof.
  intros Hkey Hrun.
  assert (exists tcs, @resolve_tailcalls RT1 OPS cs = Some (tcs, None))
    as [tcs Hres] by (apply remove_resolve; eauto).
  destruct (@resolve_ok_conditions RT1 OPS _ _ Hres) as [Hd Hcalls].
  destruct (@resolve_conditions_ok RT2 OPS cs Hd Hcalls) as [tcs2 Hres2].
  assert (exists cs2, @removeUnreachableTailcalls RT2 OPS cs
                      = Some (cs2, None)) as [cs2 Hrun2]
      by (apply remove_resolve; eauto).
  rewrite Hrun2. do 2 f_equal.
  pose proof (@remove_scanned RT1 OPS _ _ Hkey Hrun) as H1.
  pose proof (@remove_scanned RT2 OPS _ _ Hkey Hrun2) as H2.
  destruct (@remove_frame RT1 OPS _ _ _ Hrun) as (? & ? & ?).
  destruct (@remove_frame RT2 OPS _ _ _ Hrun2) as (? & ? & ?).
  apply CollectionSpec_eq; [|congruence..].
  apply map_eq. intros k. apply option_eq. intros p.
  by rewrite H1, H2.
Qed.

(** X5 on the bundle of the entrypoint and the candidates at the slots 7
    and 9: on what the first run leaves, a second run deletes nothing. *)
Lemma removeUnreachableTailcalls_idempotent_witness :
  @removeUnreachableTailcalls key_order_runtime ebpf_opcodes
    Example.bundle_pruned = Some (Example.bundle_pruned, None).
Proof.
  apply (@removeUnreachableTailcalls_idempotent key_order_runtime
           ebpf_opcodes Example.bundle Example.bundle_pruned).
  - refine (bool_decide_unpack _ _). vm_compute. exact I.
  - vm_compute. reflexivity.
Defined.

(** X6 on the same bundle: the runtime that ranges in reverse order leaves
    what the runtime that ranges in key order leaves. *)
Lemma removeUnreachableTailcalls_order_independent_witness :
  @removeUnreachableTailcalls reverse_order_runtime ebpf_opcodes
    Example.bundle = Some (Example.bundle_pruned, None).
Proof.
  apply (removeUnreachableTailcalls_order_independent
           key_order_runtime reverse_order_runtime).
  - refine (bool_decide_unpack _ _). vm_compute. exact I.
  - vm_compute. reflexivity.
Defined.

(* ===================================================================== *)
(** * visit *)
(* ===================================================================== *)

Section VisitMore.

Context `{OPS : asm.OpCodes}.

Implicit Types (tcs : gmap Z TailCall) (prog : ProgramSpec.t).

(** X7. [visit] fails exactly when the program makes a static tail call
    into the calls map to a slot that is not in the table.  When it
    succeeds, the entry of every slot the program calls is referenced and
    every other entry is as it was; whatever the outcome, no entry is
    added or removed, none loses a flag, and none changes its program. *)
Theorem visit_spec prog tcs :
  ((visit prog tcs).2 = None <->
   forall s, calls prog s -> is_Some (tcs !! s))
  /\ ((visit prog tcs).2 = None ->
      forall s,
        (calls prog s ->
         (visit prog tcs).1 !! s = set_referenced <$> tcs !! s)
        /\ (~ calls prog s -> (visit prog tcs).1 !! s = tcs !! s))
  /\ forall s,
      match tcs !! s with
      | None => (visit prog tcs).1 !! s = None
      | Some tc =>
        (visit prog tcs).1 !! s = Some tc
        \/ (visit prog tcs).1 !! s = Some (set_referenced tc)
      end.
Proof.
  pose proof (visit_marks prog tcs) as Hm.
  destruct (visit prog tcs) as [tcs' e] eqn:Hv. cbn [fst snd] in *.
  split_and!.
  - split.
    + intros -> s Hs.
      destruct (visit_ok _ _ _ Hv s Hs) as (tc & Htc & _).
      destruct (tcs !! s) eqn:E; [done|].
      apply (marks_None _ _ _ s Hm) in E. congruence.
    + intros Hall. destruct e as [e|]; [exfalso|done].
      apply visit_err in Hv as (i & c & s & Hcall & Hn & _).
      destruct (Hall s) as [tc Htc]; [by exists i, c|congruence].
  - intros -> s. split.
    + intros Hs. destruct (visit_ok _ _ _ Hv s Hs) as (tc' & Htc' & Hr).
      destruct (Hm s) as [E|(tc & -> & -> & _)]; [|done].
      rewrite <- E, Htc'. cbn. f_equal. destruct tc'. cbn in *. by subst.
    + intros Hs. by destruct (Hm s) as [E|(tc & _ & _ & ?)].
  - intros s. destruct (Hm s) as [E|(tc & -> & -> & _)]; [|by right].
    rewrite E. destruct (tcs !! s); [by left|done].
Qed.

End VisitMore.

(* ===================================================================== *)
(** * Section names *)
(* ===================================================================== *)

(** The first rune of a string that begins with an ASCII character. *)
Lemma runes_ascii_head (c : ascii) (rest : string) :
  Z.of_N (N_of_ascii c) < 128 ->
  exists rs, utf8.runes (String c rest) = Z.of_N (N_of_ascii c) :: rs.
Proof.
  intros Hc. unfold utf8.runes, utf8.bytes.
  cbn [list_ascii_of_string map length utf8.decode].
  unfold utf8.DecodeRune. apply Z.ltb_lt in Hc. rewrite Hc. eauto.
Qed.

(** A name that begins with neither white space nor a digit does not
    scan. *)
Lemma Sscanf_no_digit (c : ascii) (rest : string) :
  let r := Z.of_N (N_of_ascii c) in
  r < 128 -> ~ 9 <= r <= 13 -> r <> 32 -> ~ 48 <= r <= 57 ->
  fmt.Sscanf_d_slash_v (String c rest) = None.
Proof.
  intros r Hr Hctl Hsp Hdig.
  destruct (runes_ascii_head c rest Hr) as [rs Hrs]. fold r in Hrs.
  assert (0 <= r) as H0 by (subst r; lia).
  assert (fmt.isSpace r = false) as Hspace.
  { unfold fmt.isSpace.
    repeat match goal with
           | |- context [?a <=? ?b] =>
             destruct (Z.leb_spec a b); try lia
           | |- context [?a =? ?b] =>
             destruct (Z.eqb_spec a b); try lia
           end; done. }
  assert (fmt.indexRune fmt.decimalDigits r = false) as Hnd.
  { unfold fmt.indexRune.
    change (utf8.runes fmt.decimalDigits)
      with [48; 49; 50; 51; 52; 53; 54; 55; 56; 57].
    cbn [existsb].
    repeat match goal with
           | |- context [?a =? ?b] =>
             destruct (Z.eqb_spec a b); try lia
           end; done. }
  assert (fmt.SkipSpace (r :: rs) = Some (r :: rs)) as Hskip.
  { cbn [fmt.SkipSpace]. rewrite Hspace.
    destruct (Z.eqb_spec r 13); [lia|]. destruct (Z.eqb_spec r 10); [lia|].
    done. }
  unfold fmt.Sscanf_d_slash_v. rewrite Hrs, Hskip.
  unfold fmt.scanUint. rewrite Hskip.
  unfold fmt.scanNumber, fmt.accept. by rewrite Hnd.
Qed.

(** X8. A program whose section name begins with an ASCII character that
    is neither white space nor a digit, as "tc", "xdp" and "classifier"
    do, does not follow the "<id>/<slot>" convention: the scanner rejects
    the name, so that the program is an entrypoint for
    removeUnreachableTailcalls. *)
Theorem section_name_entrypoint p (c : ascii) (rest : string) :
  ProgramSpec.SectionName p = String c rest ->
  Z.of_N (N_of_ascii c) < 128 ->
  ~ 9 <= Z.of_N (N_of_ascii c) <= 13 ->
  Z.of_N (N_of_ascii c) <> 32 ->
  ~ 48 <= Z.of_N (N_of_ascii c) <= 57 ->
  fmt.Sscanf_d_slash_v (ProgramSpec.SectionName p) = None
  /\ candidate p = None.
Proof.
  intros Hs Hr Hctl Hsp Hdig.
  assert (fmt.Sscanf_d_slash_v (ProgramSpec.SectionName p) = None) as Hn.
  { rewrite Hs. by apply Sscanf_no_digit. }
  split; [done|]. unfold candidate. by rewrite Hn.
Qed.

(** X9. A program whose section name is "<id>/<slot>", the id a decimal
    numeral and the slot a decimal numeral without leading zero or a
    hexadecimal numeral after "0x", both below 2^32, is a candidate tail
    call exactly when the id is 2, the id of the calls map; its slot is
    then the number the numeral stands for. *)
Theorem section_name_candidate p (id ds : list Z) slot :
  numeral 10 id -> numeral_value 10 id < 2 ^ 32 ->
  ProgramSpec.SectionName p = decimal_section id ds
  /\ numeral 10 ds /\ hd 0 ds <> 0 /\ numeral_value 10 ds < 2 ^ 32
  /\ slot = numeral_value 10 ds
  \/ ProgramSpec.SectionName p = hex_section id ds
     /\ numeral 16 ds /\ numeral_value 16 ds < 2 ^ 32
     /\ slot = numeral_value 16 ds ->
  fmt.Sscanf_d_slash_v (ProgramSpec.SectionName p)
  = Some (numeral_value 10 id, slot)
  /\ candidate p = if numeral_value 10 id =? 2 then Some slot else None.
Proof.
  intros Hid Hlt Hcase.
  destruct (Sscanf_decimal_or_hex id ds Hid Hlt) as [Hdec Hhex].
  assert (fmt.Sscanf_d_slash_v (ProgramSpec.SectionName p)
          = Some (numeral_value 10 id, slot)) as Hs.
  { destruct Hcase as [(-> & ? & ? & ? & ->)|(-> & ? & ? & ->)];
      [by apply Hdec|by apply Hhex]. }
  split; [done|]. unfold candidate. by rewrite Hs.
Qed.

(** X8 on the entrypoint of the example, whose section is "tc". *)
Lemma section_name_entrypoint_witness :
  fmt.Sscanf_d_slash_v (ProgramSpec.SectionName Example.entry) = None
  /\ candidate Example.entry = None.
Proof.
  apply (section_name_entrypoint Example.entry "t" "c").
  - reflexivity.
  - vm_compute. reflexivity.
  - vm_compute. intros [_ H]. by apply H.
  - discriminate.
  - vm_compute. intros [_ H]. by apply H.
Defined.

(** X9 on a program in section "2/0x7". *)
Lemma section_name_candidate_witness :
  fmt.Sscanf_d_slash_v
    (ProgramSpec.SectionName (Example.tail "tail_7" "2/0x7"))
  = Some (numeral_value 10 [2], 7)
  /\ candidate (Example.tail "tail_7" "2/0x7")
     = if numeral_value 10 [2] =? 2 then Some 7 else None.
Proof.
  apply (section_name_candidate (Example.tail "tail_7" "2/0x7") [2] [7] 7).
  - split; [done|]. repeat constructor; lia.
  - vm_compute. reflexivity.
  - right. split; [reflexivity|]. split.
    + split; [done|]. repeat constructor; lia.
    + split; [vm_compute; reflexivity|reflexivity].
Defined.

(* ===================================================================== *)
(** * iproute2Compat: when it succeeds, and what it leaves *)
(* ===================================================================== *)

Section CompatMore.

Context `{RT : GoRuntime}.

Implicit Types (Maps : gmap string MapSpec.t) (maps : gmap Z string).


Lemma decoded_Name order m :
  MapSpec.Name (decoded order m) = MapSpec.Name m.
Proof.
  unfold decoded. destruct (MapSpec.Extra m) as [extra|]; [|done].
  by destruct (0 <? length extra)%nat.
Qed.

Lemma decoded_Contents order m :
  MapSpec.Contents (decoded order m) = MapSpec.Contents m.
Proof.
  unfold decoded. destruct (MapSpec.Extra m) as [extra|]; [|done].
  by destruct (0 <? length extra)%nat.
Qed.

(** One step of the first loop, by the shape of the trailer. *)
Lemma trailer_body_cases order key m Maps maps :
  (~ short_trailer m /\ trailer_id order m = None
   /\ exists Maps',
       trailer_body order (key, m) (Maps, maps) = ((Maps', maps), None)
       /\ (Maps' = Maps \/ Maps' = <[key := decoded order m]> Maps))
  \/ (short_trailer m
      /\ exists Maps',
          trailer_body order (key, m) (Maps, maps)
          = ((Maps', maps), Some ErrReadingMapDefinition)
          /\ Maps' = <[key := MapSpec.set_Extra (Some []) m]> Maps)
  \/ (exists id,
        ~ short_trailer m /\ trailer_id order m = Some id
        /\ match maps !! id with
           | None =>
             trailer_body order (key, m) (Maps, maps)
             = ((<[key := decoded order m]> Maps, <[id := key]> maps), None)
           | Some key2 =>
             trailer_body order (key, m) (Maps, maps)
             = ((<[key := decoded order m]> Maps, maps),
                Some (ErrDuplicateMapID
                        (MapSpec.Name m)
                        (from_option MapSpec.Name ""
                           (<[key := decoded order m]> Maps !! key2)) id))
           end).
Proof.
  unfold trailer_body, trailer_id, decoded, short_trailer.
  destruct (MapSpec.Extra m) as [extra|] eqn:Hex.
  2:{ left. split_and!; [by intros (? & [=] & _)|done|eauto]. }
  destruct (0 <? length extra)%nat eqn:Hlen; cbn [negb andb].
  2:{ left. apply Nat.ltb_ge in Hlen.
      split_and!; [intros (? & [= <-] & ?); lia|done|eauto]. }
  apply Nat.ltb_lt in Hlen.
  destruct (length extra <? 16)%nat eqn:H16.
  { apply Nat.ltb_lt in H16. right. left. split; [|eauto].
    exists extra. split; [done|lia]. }
  apply Nat.ltb_ge in H16 as H16'. apply Nat.leb_le in H16' as ->.
  apply Nat.ltb_ge in H16.
  assert (~ (exists extra0, Some extra = Some extra0
                            /\ (0 < length extra0 < 16)%nat)) as Hns
      by (intros (? & [= <-] & ?); lia).
  destruct (binary.Uint32 order (take 4 extra) =? 0) eqn:Hid; cbn [negb].
  - left. split_and!; [done..|]. eauto.
  - right. right. eexists. split_and!; [done..|].
    by destruct (maps !! _).
Qed.

(** The names of the maps, which no step of the first loop changes. *)
Lemma trailer_body_names order key m Maps maps st e :
  Maps !! key = Some m ->
  trailer_body order (key, m) (Maps, maps) = (st, e) ->
  forall key', MapSpec.Name <$> st.1 !! key' = MapSpec.Name <$> Maps !! key'.
Proof.
  intros Hm Hb key'.
  assert (forall m', MapSpec.Name m' = MapSpec.Name m ->
            MapSpec.Name <$> <[key := m']> Maps !! key'
            = MapSpec.Name <$> Maps !! key') as Hins.
  { intros m' Hn. destruct (decide (key' = key)) as [->|Hne].
    - rewrite lookup_insert_eq, Hm. cbn. by rewrite Hn.
    - by rewrite lookup_insert_ne. }
  destruct (trailer_body_cases order key m Maps maps)
    as [(_ & _ & Maps' & E & [->| ->])
       |[(_ & Maps' & E & ->)|(id & _ & _ & E)]];
    try (rewrite E in Hb; injection Hb as <- <-; cbn [fst]);
    [done|apply Hins, decoded_Name|by apply Hins|].
  destruct (maps !! id); rewrite E in Hb; injection Hb as <- <-; cbn [fst];
    apply Hins, decoded_Name.
Qed.

(** When the first loop fails. *)
Lemma trailer_loop_err order l Maps maps st e :
  NoDup l.*1 ->
  (forall key m, (key, m) ∈ l -> Maps !! key = Some m) ->
  for_each (trailer_body order) l (Maps, maps) = (st, Some e) ->
  (e = ErrReadingMapDefinition
   /\ exists key m, (key, m) ∈ l /\ short_trailer m)
  \/ exists key m id key2,
      e = ErrDuplicateMapID (MapSpec.Name m)
            (from_option MapSpec.Name "" (Maps !! key2)) id
      /\ (key, m) ∈ l /\ trailer_id order m = Some id
      /\ (maps !! id = Some key2
          \/ exists m2, (key2, m2) ∈ l /\ key2 <> key
                        /\ trailer_id order m2 = Some id).
Proof.
  revert Maps maps.
  induction l as [|[key m] l IH]; intros Maps maps Hnd Hl; [done|].
  cbn [for_each].
  apply NoDup_cons in Hnd as [Hkey Hnd].
  assert (Maps !! key = Some m) as Hm by (apply Hl; left).
  destruct (trailer_body order (key, m) (Maps, maps))
    as [[Maps1 maps1] e1] eqn:Hb.
  pose proof (trailer_body_names _ _ _ _ _ _ _ Hm Hb) as Hnames.
  cbn [fst] in Hnames.
  assert (forall key' m', (key', m') ∈ l -> Maps1 !! key' = Some m') as Hl1.
  { intros key' m' Hin.
    assert (key' <> key) as Hne.
    { intros ->. apply Hkey, list_elem_of_fmap. by exists (key, m'). }
    assert (Maps !! key' = Some m') as Hm' by (apply Hl; by right).
    destruct (trailer_body_cases order key m Maps maps)
      as [(_ & _ & Maps' & E & [->| ->])
         |[(_ & Maps' & E & ->)|(id & _ & _ & E)]];
      try (rewrite E in Hb; injection Hb as <- <- <-);
      rewrite ?lookup_insert_ne by done; try done.
    destruct (maps !! id); rewrite E in Hb; injection Hb as <- <- <-;
      by rewrite lookup_insert_ne. }
  assert (forall key2, from_option MapSpec.Name "" (Maps1 !! key2)
                       = from_option MapSpec.Name "" (Maps !! key2))
    as Hfrom.
  { intros key2. specialize (Hnames key2).
    destruct (Maps1 !! key2), (Maps !! key2); cbn in *; congruence. }
  destruct (trailer_body_cases order key m Maps maps)
    as [(Hns & Hid & Maps' & E & _)
       |[(Hshort & Maps' & E & _)|(id & Hns & Hid & E)]].
  - rewrite E in Hb. injection Hb as <- <- <-. intros Hrec.
    apply IH in Hrec
      as [[-> (k & x & ? & ?)]
         |(k & x & id & k2 & -> & ? & ? & Hcase)]; [| |done|done].
    + left. split; [done|]. exists k, x. split; [by right|done].
    + right. exists k, x, id, k2. rewrite Hfrom.
      split_and!; [done|by right|done|].
      destruct Hcase as [?|(m2 & ? & ? & ?)]; [by left|].
      right. exists m2. split_and!; [by right|done..].
  - rewrite E in Hb. injection Hb as <- <- <-. intros [= <- <-].
    left. split; [done|]. exists key, m. split; [left|done].
  - destruct (maps !! id) as [key2|] eqn:Hmid.
    + rewrite E in Hb. injection Hb as <- <- <-. intros [= <- <-].
      right. exists key, m, id, key2. rewrite Hfrom.
      split_and!; [done|left|done|by left].
    + rewrite E in Hb. injection Hb as <- <- <-. intros Hrec.
      apply IH in Hrec
        as [[-> (k & x & ? & ?)]
           |(k & x & id' & k2 & -> & Hk & ? & Hcase)]; [| |done|done].
      * left. split; [done|]. exists k, x. split; [by right|done].
      * right. exists k, x, id', k2. rewrite Hfrom.
        split_and!; [done|by right|done|].
        destruct Hcase as [Hins|(m2 & ? & ? & ?)].
        -- rewrite lookup_insert in Hins. case_decide as Hd.
           ++ injection Hins as <-. subst id'. right. exists m.
              split_and!; [left| |done].
              intros <-. apply Hkey, list_elem_of_fmap. by exists (key, x).
           ++ by left.
        -- right. exists m2. split_and!; [by right|done..].
Qed.

(** What a first loop that succeeds has met and registered. *)
Lemma trailer_loop_table order l Maps maps Maps' maps' :
  for_each (trailer_body order) l (Maps, maps) = ((Maps', maps'), None) ->
  (forall key m, (key, m) ∈ l -> ~ short_trailer m)
  /\ forall id key, maps' !! id = Some key ->
       maps !! id = Some key
       \/ exists m, (key, m) ∈ l /\ trailer_id order m = Some id.
Proof.
  revert Maps maps.
  induction l as [|[key m] l IH]; intros Maps maps.
  - simpl. intros [= <- <-]. split; [by intros ?? ?%elem_of_nil|].
    intros. by left.
  - cbn [for_each].
    destruct (trailer_body_cases order key m Maps maps)
      as [(Hns & Hid & Maps1 & E & _)
         |[(Hshort & Maps1 & E & _)|(id & Hns & Hid & E)]].
    + rewrite E. intros [Hwf Htab]%IH. split.
      * by intros key' m' [[= -> ->]|Hin]%elem_of_cons; [|eapply Hwf].
      * intros id key' [?|(m' & ? & ?)]%Htab; [by left|].
        right. exists m'. split; [by right|done].
    + by rewrite E.
    + destruct (maps !! id) as [key2|] eqn:Hmid; rewrite E; [done|].
      intros [Hwf Htab]%IH. split.
      * by intros key' m' [[= -> ->]|Hin]%elem_of_cons; [|eapply Hwf].
      * intros id' key' [Hins|(m' & ? & ?)]%Htab.
        -- rewrite lookup_insert in Hins. case_decide; [|by left].
           injection Hins as <-. subst. right. exists m. split; [left|done].
        -- right. exists m'. split; [by right|done].
Qed.

(** The second loop, in every outcome: it fails at the first program whose
    id is not registered. *)
Lemma slot_loop_err maps (l : list (string * ProgramSpec.t)) Maps :
  match (for_each (slot_body maps) l Maps).2 with
  | None =>
    forall n p id slot, (n, p) ∈ l ->
      fmt.Sscanf_d_slash_v (ProgramSpec.SectionName p) = Some (id, slot) ->
      is_Some (maps !! id)
  | Some e =>
    exists n p id slot,
      e = ErrNoMapWithID id /\ (n, p) ∈ l
      /\ fmt.Sscanf_d_slash_v (ProgramSpec.SectionName p) = Some (id, slot)
      /\ maps !! id = None
  end.
Proof.
  revert Maps. induction l as [|[n p] l IH]; intros Maps.
  - simpl. by intros ???? ?%elem_of_nil.
  - cbn [for_each]. unfold slot_body at 1.
    destruct (fmt.Sscanf_d_slash_v _) as [[id slot]|] eqn:Hscan.
    + destruct (maps !! id) as [key|] eqn:Hid.
      * specialize (IH (alter (append_content slot n) key Maps)).
        destruct (for_each _ l _) as [M' [e|]]; cbn [snd] in *.
        -- destruct IH as (n' & p' & id' & slot' & ? & ? & ? & ?).
           exists n', p', id', slot'. split_and!; [done|by right|done..].
        -- intros n' p' id' slot' [[= -> ->]|Hin]%elem_of_cons Hs;
             [|by eapply IH].
           rewrite Hscan in Hs. injection Hs as <- <-. by rewrite Hid.
      * cbn [snd]. exists n, p, id, slot. split_and!; [done|left|done..].
    + specialize (IH Maps).
      destruct (for_each _ l _) as [M' [e|]]; cbn [snd] in *.
      * destruct IH as (n' & p' & id' & slot' & ? & ? & ? & ?).
        exists n', p', id', slot'. split_and!; [done|by right|done..].
      * intros n' p' id' slot' [[= -> ->]|Hin]%elem_of_cons Hs;
          [congruence|by eapply IH].
Qed.

End CompatMore.

Section CompatTheorems.

Context `{RT : GoRuntime}.

Implicit Types (Maps : gmap string MapSpec.t) (maps : gmap Z string).

(** The table of ids after a first loop that succeeds on the maps of a
    specification. *)
Lemma trailer_table cs Maps1 maps1 :
  for_each (trailer_body (CollectionSpec.ByteOrder cs))
           (range 198 0 (CollectionSpec.Maps cs))
           (CollectionSpec.Maps cs, ∅) = ((Maps1, maps1), None) ->
  (forall key m, CollectionSpec.Maps cs !! key = Some m ->
                 ~ short_trailer m)
  /\ (forall id key,
        maps1 !! id = Some key <->
        exists m, CollectionSpec.Maps cs !! key = Some m
                  /\ trailer_id (CollectionSpec.ByteOrder cs) m = Some id)
  /\ (forall key,
        Maps1 !! key
        = decoded (CollectionSpec.ByteOrder cs)
            <$> CollectionSpec.Maps cs !! key).
Proof.
  intros H1.
  pose proof (trailer_loop_table _ _ _ _ _ _ H1) as [Hwf Htab].
  apply trailer_loop in H1 as (Hdec & Hout & Hreg & _ & _);
    [|apply range_NoDup_fst|by intros ?? ?%range_lookup].
  split_and!.
  - intros key m Hk. by apply (Hwf key m), range_lookup.
  - intros id key. split.
    + intros [Hid|(m & Hin%range_lookup & ?)]%Htab; [|eauto].
      by rewrite lookup_empty in Hid.
    + intros (m & Hk & Hid). by eapply Hreg; [apply range_lookup|].
  - intros key. destruct (CollectionSpec.Maps cs !! key) as [m|] eqn:Hk.
    + by apply Hdec, range_lookup.
    + rewrite Hout; [done|].
      intros ([k m] & -> & Hin%range_lookup)%list_elem_of_fmap.
      cbn in Hk. congruence.
Qed.

(** The causes of the errors of iproute2Compat. *)
Lemma iproute2Compat_err cs e :
  (iproute2Compat cs).2 = Some e ->
  (e = ErrReadingMapDefinition
   /\ exists key m, CollectionSpec.Maps cs !! key = Some m
                    /\ short_trailer m)
  \/ (exists k1 m1 k2 m2 id,
        e = ErrDuplicateMapID (MapSpec.Name m1) (MapSpec.Name m2) id
        /\ k1 <> k2
        /\ CollectionSpec.Maps cs !! k1 = Some m1
        /\ CollectionSpec.Maps cs !! k2 = Some m2
        /\ trailer_id (CollectionSpec.ByteOrder cs) m1 = Some id
        /\ trailer_id (CollectionSpec.ByteOrder cs) m2 = Some id)
  \/ (exists kp p id slot,
        e = ErrNoMapWithID id
        /\ CollectionSpec.Programs cs !! kp = Some p
        /\ fmt.Sscanf_d_slash_v (ProgramSpec.SectionName p)
           = Some (id, slot)
        /\ (forall key m, CollectionSpec.Maps cs !! key = Some m ->
                          ~ short_trailer m)
        /\ forall km m,
            CollectionSpec.Maps cs !! km = Some m ->
            trailer_id (CollectionSpec.ByteOrder cs) m <> Some id).
Proof.
  unfold iproute2Compat.
  destruct (for_each (trailer_body _) _ _) as [[Maps1 maps1] [e1|]] eqn:H1.
  - cbn [snd]. intros [= ->].
    apply trailer_loop_err in H1
      as [[-> (key & m & Hin%range_lookup & ?)]
         |(key & m & id & key2 & -> & Hin%range_lookup & Hid & Hcase)];
      [| |apply range_NoDup_fst|by intros ?? ?%range_lookup].
    + left. eauto.
    + right. left.
      destruct Hcase as [Hemp|(m2 & Hin2%range_lookup & Hne & Hid2)];
        [by rewrite lookup_empty in Hemp|].
      exists key, m, key2, m2, id. rewrite Hin2. by split_and!.
  - pose proof (trailer_table _ _ _ H1) as (Hwf & Htab & _).
    pose proof (slot_loop_err maps1
                  (range 222 0 (CollectionSpec.Programs cs)) Maps1) as H2.
    destruct (for_each (slot_body maps1) _ Maps1) as [Maps2 e2].
    cbn [snd] in *. intros ->.
    destruct H2 as (n & p & id & slot & -> & Hin%range_lookup & Hs & Hno).
    right. right. exists n, p, id, slot. split_and!; [done..|].
    intros km m Hkm Hid.
    assert (maps1 !! id = Some km) as Hsome by (apply Htab; eauto).
    congruence.
Qed.

(** What a call that succeeds has found. *)
Lemma iproute2Compat_ok_conditions cs :
  (iproute2Compat cs).2 = None ->
  (forall key m, CollectionSpec.Maps cs !! key = Some m ->
                 ~ short_trailer m)
  /\ (forall k1 m1 k2 m2 id,
        CollectionSpec.Maps cs !! k1 = Some m1 ->
        CollectionSpec.Maps cs !! k2 = Some m2 ->
        trailer_id (CollectionSpec.ByteOrder cs) m1 = Some id ->
        trailer_id (CollectionSpec.ByteOrder cs) m2 = Some id -> k1 = k2)
  /\ (forall kp p id slot,
        CollectionSpec.Programs cs !! kp = Some p ->
        fmt.Sscanf_d_slash_v (ProgramSpec.SectionName p)
        = Some (id, slot) ->
        exists km m,
          CollectionSpec.Maps cs !! km = Some m
          /\ trailer_id (CollectionSpec.ByteOrder cs) m = Some id).
Proof.
  unfold iproute2Compat.
  destruct (for_each (trailer_body _) _ _) as [[Maps1 maps1] [e1|]] eqn:H1;
    [done|].
  pose proof (trailer_table _ _ _ H1) as (Hwf & Htab & _).
  pose proof (slot_loop_err maps1
                (range 222 0 (CollectionSpec.Programs cs)) Maps1) as H2.
  destruct (for_each (slot_body maps1) _ Maps1) as [Maps2 e2].
  cbn [snd] in *. intros ->. split_and!; [done| |].
  - intros k1 m1 k2 m2 id Hk1 Hk2 Hi1 Hi2.
    assert (maps1 !! id = Some k1) as E1 by (apply Htab; eauto).
    assert (maps1 !! id = Some k2) as E2 by (apply Htab; eauto).
    congruence.
  - intros kp p id slot Hkp Hs.
    destruct (H2 kp p id slot) as [km Hkm]; [by apply range_lookup|done|].
    apply Htab in Hkm as (m & ? & ?). eauto.
Qed.

(** X10. iproute2Compat succeeds exactly when no map carries a trailer of
    fewer than 16 bytes, no two maps carry the same non-zero id, and the id
    named by the section of every program that follows the "<id>/<slot>"
    convention is the id of a map. *)
Theorem iproute2Compat_succeeds_iff cs :
  (iproute2Compat cs).2 = None <->
  (forall key m, CollectionSpec.Maps cs !! key = Some m ->
                 ~ short_trailer m)
  /\ (forall k1 m1 k2 m2 id,
        CollectionSpec.Maps cs !! k1 = Some m1 ->
        CollectionSpec.Maps cs !! k2 = Some m2 ->
        trailer_id (CollectionSpec.ByteOrder cs) m1 = Some id ->
        trailer_id (CollectionSpec.ByteOrder cs) m2 = Some id -> k1 = k2)
  /\ (forall kp p id slot,
        CollectionSpec.Programs cs !! kp = Some p ->
        fmt.Sscanf_d_slash_v (ProgramSpec.SectionName p)
        = Some (id, slot) ->
        exists km m,
          CollectionSpec.Maps cs !! km = Some m
          /\ trailer_id (CollectionSpec.ByteOrder cs) m = Some id).
Proof.
  split; [apply iproute2Compat_ok_conditions|].
  intros (Hwf & Hdist & Hprog).
  destruct (iproute2Compat cs).2 as [e|] eqn:He; [exfalso|done].
  apply iproute2Compat_err in He
    as [[_ (key & m & Hk & Hs)]
       |[(k1 & m1 & k2 & m2 & id & _ & Hne & H1 & H2 & Hi1 & Hi2)
        |(kp & p & id & slot & _ & Hkp & Hs & _ & Hno)]].
  - by eapply Hwf.
  - apply Hne. by eapply Hdist.
  - destruct (Hprog _ _ _ _ Hkp Hs) as (km & m & Hkm & Hid).
    by eapply Hno.
Qed.

(** X11. Each error of iproute2Compat has its cause in the specification:
    "reading iproute2 map definition" a map with a trailer of fewer than 16
    bytes; "duplicate iproute2 map ID" two maps, named in the message,
    whose trailers carry the id of the message; "no map with iproute2 map
    .id" a program whose section names the id of the message, which is the
    id of no map, in a specification whose trailers were all read. *)
Theorem iproute2Compat_error_cause cs e :
  (iproute2Compat cs).2 = Some e ->
  (e = ErrReadingMapDefinition
   /\ exists key m, CollectionSpec.Maps cs !! key = Some m
                    /\ short_trailer m)
  \/ (exists k1 m1 k2 m2 id,
        e = ErrDuplicateMapID (MapSpec.Name m1) (MapSpec.Name m2) id
        /\ k1 <> k2
        /\ CollectionSpec.Maps cs !! k1 = Some m1
        /\ CollectionSpec.Maps cs !! k2 = Some m2
        /\ trailer_id (CollectionSpec.ByteOrder cs) m1 = Some id
        /\ trailer_id (CollectionSpec.ByteOrder cs) m2 = Some id)
  \/ (exists kp p id slot,
        e = ErrNoMapWithID id
        /\ CollectionSpec.Programs cs !! kp = Some p
        /\ fmt.Sscanf_d_slash_v (ProgramSpec.SectionName p)
           = Some (id, slot)
        /\ (forall key m, CollectionSpec.Maps cs !! key = Some m ->
                          ~ short_trailer m)
        /\ forall km m,
            CollectionSpec.Maps cs !! km = Some m ->
            trailer_id (CollectionSpec.ByteOrder cs) m <> Some id).
Proof. apply iproute2Compat_err. Qed.

End CompatTheorems.

Section CompatContents.

Context `{RT : GoRuntime}.

Implicit Types (Maps : gmap string MapSpec.t) (maps : gmap Z string).

Lemma set_Contents_append slot n m more :
  MapSpec.set_Contents
    (MapSpec.Contents (append_content slot n m) ++ more)
    (append_content slot n m)
  = MapSpec.set_Contents
      (MapSpec.Contents m
       ++ MapKV.mk (AnyUint32 slot) (AnyString n) :: more) m.
Proof.
  unfold append_content, MapSpec.set_Contents. cbn.
  by rewrite <- app_assoc.
Qed.

(** The entries a second loop that succeeds has appended to each map: one
    for every program whose id is registered for the map. *)
Lemma slot_loop_contents maps (l : list (string * ProgramSpec.t))
      Maps Maps' :
  NoDup l.*1 ->
  for_each (slot_body maps) l Maps = (Maps', None) ->
  forall key,
    match Maps !! key with
    | None => Maps' !! key = None
    | Some m =>
      exists more,
        Maps' !! key
        = Some (MapSpec.set_Contents (MapSpec.Contents m ++ more) m)
        /\ NoDup more
        /\ forall kv,
            kv ∈ more <->
            exists n p id slot,
              (n, p) ∈ l
              /\ fmt.Sscanf_d_slash_v (ProgramSpec.SectionName p)
                 = Some (id, slot)
              /\ maps !! id = Some key
              /\ kv = MapKV.mk (AnyUint32 slot) (AnyString n)
    end.
Proof.
  revert Maps. induction l as [|[n p] l IH]; intros Maps Hnd.
  - simpl. intros [= <-] key. destruct (Maps !! key) as [m|]; [|done].
    exists []. rewrite app_nil_r. split_and!; [by destruct m|constructor|].
    intros kv. split; [by intros ?%elem_of_nil|].
    by intros (? & ? & ? & ? & ?%elem_of_nil & _).
  - apply NoDup_cons in Hnd as [Hn Hnd].
    cbn [for_each]. unfold slot_body at 1.
    destruct (fmt.Sscanf_d_slash_v _) as [[id slot]|] eqn:Hscan.
    + destruct (maps !! id) as [key0|] eqn:Hid; [|done].
      intros Hrec key. specialize (IH _ Hnd Hrec key).
      rewrite lookup_alter in IH.
      destruct (decide (key0 = key)) as [->|Hne].
      * destruct (Maps !! key) as [m|] eqn:Hm;
          cbn [fmap option_fmap option_map] in IH; [|done].
        destruct IH as (more & E & Hnd' & Hiff).
        exists (MapKV.mk (AnyUint32 slot) (AnyString n) :: more).
        rewrite E, set_Contents_append. split_and!; [done| |].
        -- apply NoDup_cons. split; [|done].
           intros (n' & p' & id' & slot' & Hin & _ & _ & [= _ <-])%Hiff.
           apply Hn, list_elem_of_fmap. by exists (n, p').
        -- intros kv. rewrite elem_of_cons, Hiff. split.
           ++ intros [->|(n' & p' & id' & slot' & ? & ? & ? & ?)].
              ** exists n, p, id, slot. split_and!; [left|done..].
              ** exists n', p', id', slot'. split_and!; [by right|done..].
           ++ intros (n' & p' & id' & slot' & Hin & Hs & Hm' & ->).
              apply elem_of_cons in Hin as [[= -> ->]|Hin].
              ** left. congruence.
              ** right. exists n', p', id', slot'. done.
      * destruct (Maps !! key) as [m|] eqn:Hm; [|done].
        destruct IH as (more & E & Hnd' & Hiff).
        exists more. split_and!; [done..|].
        intros kv. rewrite Hiff. split.
        -- intros (n' & p' & id' & slot' & ? & ? & ? & ?).
           exists n', p', id', slot'. split_and!; [by right|done..].
        -- intros (n' & p' & id' & slot' & Hin & Hs & Hm' & ->).
           apply elem_of_cons in Hin as [[= -> ->]|Hin].
           ++ congruence.
           ++ exists n', p', id', slot'. done.
    + intros Hrec key. specialize (IH _ Hnd Hrec key).
      destruct (Maps !! key) as [m|] eqn:Hm; [|done].
      destruct IH as (more & E & Hnd' & Hiff).
      exists more. split_and!; [done..|].
      intros kv. rewrite Hiff. split.
      * intros (n' & p' & id' & slot' & ? & ? & ? & ?).
        exists n', p', id', slot'. split_and!; [by right|done..].
      * intros (n' & p' & id' & slot' & Hin & Hs & Hm' & ->).
        apply elem_of_cons in Hin as [[= -> ->]|Hin].
        -- congruence.
        -- exists n', p', id', slot'. done.
Qed.

(** The maps of a specification after a call that succeeds. *)
Lemma iproute2Compat_maps cs km m :
  (iproute2Compat cs).2 = None ->
  CollectionSpec.Maps cs !! km = Some m ->
  exists more,
    CollectionSpec.Maps (iproute2Compat cs).1 !! km
    = Some (MapSpec.set_Contents
              (MapSpec.Contents m ++ more)
              (decoded (CollectionSpec.ByteOrder cs) m))
    /\ NoDup more
    /\ forall kv,
        kv ∈ more <->
        exists n p id slot,
          CollectionSpec.Programs cs !! n = Some p
          /\ fmt.Sscanf_d_slash_v (ProgramSpec.SectionName p)
             = Some (id, slot)
          /\ trailer_id (CollectionSpec.ByteOrder cs) m = Some id
          /\ kv = MapKV.mk (AnyUint32 slot) (AnyString n).
Proof.
  unfold iproute2Compat.
  destruct (for_each (trailer_body _) _ _) as [[Maps1 maps1] [e1|]] eqn:H1;
    [done|].
  pose proof (trailer_table _ _ _ H1) as (_ & Htab & Hdec).
  destruct (for_each (slot_body maps1) _ Maps1) as [Maps2 e2] eqn:H2.
  cbn [fst snd]. intros -> Hkm.
  pose proof (slot_loop_contents _ _ _ _ (range_NoDup_fst _ _ _) H2 km)
    as Hc.
  rewrite Hdec, Hkm in Hc. cbn in Hc.
  destruct Hc as (more & E & Hnd & Hiff).
  exists more. cbn. rewrite E, decoded_Contents. split_and!; [done..|].
  intros kv. rewrite Hiff. split.
  - intros (n & p & id & slot & Hin%range_lookup & Hs & Hid & ->).
    exists n, p, id, slot. split_and!; [done..| |done].
    apply Htab in Hid as (m0 & Hm0 & ?). congruence.
  - intros (n & p & id & slot & Hin & Hs & Hid & ->).
    exists n, p, id, slot. split_and!; [by apply range_lookup|done| |done].
    apply Htab. eauto.
Qed.

(** X12. After a call of iproute2Compat that succeeds, every map is as its
    trailer decodes, with new entries at the end of its contents: one entry
    (slot, key of the program) for each program whose section names the id
    of the map, and no other. *)
Theorem iproute2Compat_contents cs km m :
  (iproute2Compat cs).2 = None ->
  CollectionSpec.Maps cs !! km = Some m ->
  exists more,
    CollectionSpec.Maps (iproute2Compat cs).1 !! km
    = Some (MapSpec.set_Contents
              (MapSpec.Contents m ++ more)
              (decoded (CollectionSpec.ByteOrder cs) m))
    /\ NoDup more
    /\ forall kv,
        kv ∈ more <->
        exists n p id slot,
          CollectionSpec.Programs cs !! n = Some p
          /\ fmt.Sscanf_d_slash_v (ProgramSpec.SectionName p)
             = Some (id, slot)
          /\ trailer_id (CollectionSpec.ByteOrder cs) m = Some id
          /\ kv = MapKV.mk (AnyUint32 slot) (AnyString n).
Proof. apply iproute2Compat_maps. Qed.


Lemma extends_refl m : extends m m.
Proof. split; [done|]. exists []. by rewrite app_nil_r. Qed.

Lemma maps_extend_insert Maps0 Maps key m m' :
  maps_extend Maps0 Maps -> Maps0 !! key = Some m -> extends m m' ->
  maps_extend Maps0 (<[key := m']> Maps).
Proof.
  intros H Hm Hext key'. specialize (H key').
  destruct (decide (key' = key)) as [->|Hne].
  - rewrite Hm, lookup_insert_eq. eauto.
  - by rewrite lookup_insert_ne.
Qed.

Lemma maps_extend_alter Maps0 Maps key slot n :
  maps_extend Maps0 Maps ->
  maps_extend Maps0 (alter (append_content slot n) key Maps).
Proof.
  intros H key'. specialize (H key'). rewrite lookup_alter.
  destruct (Maps0 !! key') as [m|].
  - destruct H as (m' & Hm' & Hext). case_decide; [|eauto].
    destruct Hext as (Hn & more & E). subst. rewrite Hm'.
    eexists. split; [done|]. split; [done|]. cbn.
    exists (more ++ [MapKV.mk (AnyUint32 slot) (AnyString n)]).
    by rewrite E, app_assoc.
  - case_decide; subst; by rewrite H.
Qed.

(** X13. Whatever its outcome, iproute2Compat leaves the programs, the
    variables and the byte order of the specification alone, adds and
    removes no map, renames none, and takes no entry out of the contents
    of a map: the contents it leaves begin with the contents it found. *)
Theorem iproute2Compat_frame cs :
  CollectionSpec.Programs (iproute2Compat cs).1 = CollectionSpec.Programs cs
  /\ CollectionSpec.Variables (iproute2Compat cs).1
     = CollectionSpec.Variables cs
  /\ CollectionSpec.ByteOrder (iproute2Compat cs).1
     = CollectionSpec.ByteOrder cs
  /\ forall key,
      match CollectionSpec.Maps cs !! key with
      | None => CollectionSpec.Maps (iproute2Compat cs).1 !! key = None
      | Some m =>
        exists m', CollectionSpec.Maps (iproute2Compat cs).1 !! key = Some m'
                   /\ MapSpec.Name m' = MapSpec.Name m
                   /\ exists more,
                       MapSpec.Contents m' = MapSpec.Contents m ++ more
      end.
Proof.
  unfold iproute2Compat.
  pose proof (for_each_ind (trailer_body (CollectionSpec.ByteOrder cs))
                (fun st => maps_extend (CollectionSpec.Maps cs) st.1)
                (fun _ => True)
                (range 198 0 (CollectionSpec.Maps cs))
                (CollectionSpec.Maps cs, ∅)) as [H1 _].
  { intros key. cbn. destruct (_ !! key) as [m|]; [|done].
    exists m. split; [done|apply extends_refl]. }
  { intros [key m] [Maps maps] s' e Hin%range_lookup HP Hb. cbn [fst] in HP.
    split; [|by destruct e].
    assert (forall m', extends m m' ->
              maps_extend (CollectionSpec.Maps cs) (<[key := m']> Maps))
      as Hins by (intros; by eapply maps_extend_insert).
    assert (extends m (decoded (CollectionSpec.ByteOrder cs) m)) as Hd.
    { split; [apply decoded_Name|]. exists [].
      by rewrite decoded_Contents, app_nil_r. }
    destruct (trailer_body_cases (CollectionSpec.ByteOrder cs)
                key m Maps maps)
      as [(_ & _ & Maps' & E & [->| ->])
         |[(_ & Maps' & E & ->)|(id & _ & _ & E)]];
      try (rewrite E in Hb; injection Hb as <- <-; cbn [fst]);
      [done|by apply Hins| |].
    - apply Hins. split; [done|]. exists []. by rewrite app_nil_r.
    - destruct (maps !! id); rewrite E in Hb; injection Hb as <- <-;
        cbn [fst]; by apply Hins. }
  destruct (for_each (trailer_body _) _ _) as [[Maps1 maps1] [e1|]];
    cbn [fst] in H1.
  - cbn. split_and!; [done..|]. intros key. specialize (H1 key).
    destruct (_ !! key); [|done]. destruct H1 as (m' & ? & Hext).
    destruct Hext as (? & ?). eauto.
  - pose proof (for_each_ind (slot_body maps1)
                  (maps_extend (CollectionSpec.Maps cs))
                  (fun _ => True)
                  (range 222 0 (CollectionSpec.Programs cs))
                  Maps1 H1) as [H2 _].
    { intros [n p] Maps s' e _ HP Hb. split; [|by destruct e].
      unfold slot_body in Hb.
      destruct (fmt.Sscanf_d_slash_v _) as [[id slot]|];
        [|by injection Hb as <- <-].
      destruct (maps1 !! id); injection Hb as <- <-; [|done].
      by apply maps_extend_alter. }
    destruct (for_each (slot_body maps1) _ Maps1) as [Maps2 e2].
    cbn in *. split_and!; [done..|]. intros key. specialize (H2 key).
    destruct (_ !! key); [|done]. destruct H2 as (m' & ? & Hext).
    destruct Hext as (? & ?). eauto.
Qed.

End CompatContents.

(** X11 on the bundle with a program in section "9/1" and no map of
    id 9. *)
Lemma iproute2Compat_error_cause_witness :
  exists kp p id slot,
    ErrNoMapWithID 9 = ErrNoMapWithID id
    /\ CollectionSpec.Programs
         (Example.bundle_compat
            [Example.tail "tail_12" "3/12"; Example.tail "other" "9/1"])
       !! kp = Some p
    /\ fmt.Sscanf_d_slash_v (ProgramSpec.SectionName p) = Some (id, slot).
Proof.
  destruct (@iproute2Compat_error_cause key_order_runtime
              (Example.bundle_compat
                 [Example.tail "tail_12" "3/12"; Example.tail "other" "9/1"])
              (ErrNoMapWithID 9))
    as [[H _]|[(? & ? & ? & ? & ? & H & _)
              |(kp & p & id & slot & ? & ? & ? & _)]].
  - vm_compute. reflexivity.
  - discriminate H.
  - discriminate H.
  - exists kp, p, id, slot. done.
Defined.

(** X12 on the bundle made of the map with id 3 and of a program in
    section "3/12". *)
Lemma iproute2Compat_contents_witness :
  exists more,
    CollectionSpec.Maps
      (@iproute2Compat key_order_runtime
         (Example.bundle_compat [Example.tail "tail_12" "3/12"])).1
    !! "cilium_calls_3"
    = Some (MapSpec.set_Contents
              (MapSpec.Contents Example.calls_map ++ more)
              (decoded binary.LittleEndian Example.calls_map))
    /\ NoDup more
    /\ forall kv,
        kv ∈ more <->
        exists n p id slot,
          CollectionSpec.Programs
            (Example.bundle_compat [Example.tail "tail_12" "3/12"]) !! n
          = Some p
          /\ fmt.Sscanf_d_slash_v (ProgramSpec.SectionName p)
             = Some (id, slot)
          /\ trailer_id binary.LittleEndian Example.calls_map = Some id
          /\ kv = MapKV.mk (AnyUint32 slot) (AnyString n).
Proof.
  apply (@iproute2Compat_contents key_order_runtime
           (Example.bundle_compat [Example.tail "tail_12" "3/12"])
           "cilium_calls_3" Example.calls_map).
  - vm_compute. reflexivity.
  - vm_compute. reflexivity.
Defined.

(* ===================================================================== *)
(** * classifyProgramTypes: idempotence and agreement *)
(* ===================================================================== *)

Section ClassifyMore.

Context `{RT : GoRuntime}.

(** The function in one equation: the default type, given to every
    program of unspecified type. *)
Lemma classifyProgramTypes_eq cs :
  classifyProgramTypes cs
  = let t := infer_type (range 375 0 (CollectionSpec.Programs cs))
                        UnspecifiedProgram in
    (CollectionSpec.set_Programs
       (with_default t <$> CollectionSpec.Programs cs) cs,
     if t =? UnspecifiedProgram then Some ErrUnclassified else None).
Proof.
  cbv zeta. unfold classifyProgramTypes.
  set (t := infer_type _ _).
  pose proof (assign_loop t (range 406 0 (CollectionSpec.Programs cs))
                (CollectionSpec.Programs cs)
                (range_NoDup_fst _ _ _)) as [_ Hlook].
  { intros k p. by rewrite range_lookup. }
  destruct (for_each _ _ _) as [progs o]. cbn [fst snd] in *.
  do 2 f_equal. apply map_eq. intros k.
  rewrite Hlook, lookup_fmap. case_decide as Hin; [done|].
  destruct (CollectionSpec.Programs cs !! k) as [p|] eqn:Hk; [|done].
  destruct Hin. apply list_elem_of_fmap. exists (k, p).
  split; [done|]. by apply range_lookup.
Qed.

Lemma with_default_classified t p :
  ProgramSpec.Type_ p <> UnspecifiedProgram -> with_default t p = p.
Proof.
  intros Hp. unfold with_default. apply Z.eqb_neq in Hp. by rewrite Hp.
Qed.

Lemma with_default_Type t p :
  t <> UnspecifiedProgram ->
  ProgramSpec.Type_ (with_default t p) <> UnspecifiedProgram.
Proof.
  intros Ht. unfold with_default.
  destruct (ProgramSpec.Type_ p =? UnspecifiedProgram) eqn:Hp; [done|].
  by apply Z.eqb_neq in Hp.
Qed.

(** X14. classifyProgramTypes changes a classified specification no
    further: on the specification a call that succeeds leaves, a second
    call succeeds and leaves every program as it is. *)
Theorem classifyProgramTypes_idempotent cs :
  (classifyProgramTypes cs).2 = None ->
  classifyProgramTypes (classifyProgramTypes cs).1
  = ((classifyProgramTypes cs).1, None).
Proof.
  rewrite (classifyProgramTypes_eq cs). cbv zeta.
  set (t := infer_type _ _). cbn [fst snd].
  destruct (t =? UnspecifiedProgram) eqn:Ht; [done|]. intros _.
  apply Z.eqb_neq in Ht.
  set (cs1 := CollectionSpec.set_Programs _ cs).
  assert (forall k p, CollectionSpec.Programs cs1 !! k = Some p ->
                      ProgramSpec.Type_ p <> UnspecifiedProgram) as Htyped.
  { intros k p. cbn. rewrite lookup_fmap.
    destruct (_ !! k) as [q|]; [|done]. intros [= <-].
    by apply with_default_Type. }
  rewrite (classifyProgramTypes_eq cs1). cbv zeta.
  set (t1 := infer_type _ _).
  assert (t1 <> UnspecifiedProgram) as Ht1.
  { subst t1.
    destruct (infer_type_spec (range 375 0 (CollectionSpec.Programs cs1)))
      as [[Hall _]|(_ & _ & _ & _ & _ & _ & ? & _)]; [|done].
    exfalso. destruct (range 375 0 (CollectionSpec.Programs cs1))
      as [|[k p] l] eqn:Hl.
    - apply Ht. subst t.
      assert (CollectionSpec.Programs cs = ∅) as ->; [|].
      { apply (fmap_empty_inv (with_default (infer_type
                 (range 375 0 (CollectionSpec.Programs cs))
                 UnspecifiedProgram))).
        apply map_size_empty_iff.
        change (size (CollectionSpec.Programs cs1) = 0%nat).
        by rewrite <- (range_length 375 0), Hl. }
      assert (range 375 0 (∅ : gmap string ProgramSpec.t) = []) as ->;
        [|done].
      apply length_zero_iff_nil. by rewrite range_length, map_size_empty.
    - apply Forall_cons in Hall as [[Hu _] _]. cbn in Hu.
      apply (Htyped k p); [|done]. apply (range_lookup 375 0).
      rewrite Hl. left. }
  apply Z.eqb_neq in Ht1 as ->. f_equal.
  clearbody t1. clearbody cs1. destruct cs1 as [P M V B].
  unfold CollectionSpec.set_Programs. cbn in *. f_equal.
  apply map_eq. intros k. rewrite lookup_fmap.
  destruct (P !! k) as [p|] eqn:Hk; [|done]. cbn. f_equal.
  apply with_default_classified. by eapply Htyped.
Qed.

(** X15. When the programs that decide agree, the iteration order does not
    matter.  If some program is classified or named in the table, every
    classified program has the type [T] and the table gives [T] for the
    name of every unclassified program it knows, then the call succeeds
    and gives [T] to every program of unspecified type. *)
Theorem classifyProgramTypes_unanimous cs T :
  (exists k p, CollectionSpec.Programs cs !! k = Some p
               /\ ~ undecided (k, p)) ->
  (forall k p,
      CollectionSpec.Programs cs !! k = Some p ->
      (ProgramSpec.Type_ p <> UnspecifiedProgram ->
       ProgramSpec.Type_ p = T)
      /\ (ProgramSpec.Type_ p = UnspecifiedProgram ->
          forall ty, known_entrypoint k = Some ty -> ty = T)) ->
  classifyProgramTypes cs
  = (CollectionSpec.set_Programs
       (with_default T <$> CollectionSpec.Programs cs) cs, None).
Proof.
  intros (k0 & p0 & Hk0 & Hdec) Hagree.
  rewrite classifyProgramTypes_eq. cbv zeta.
  set (l := range 375 0 (CollectionSpec.Programs cs)).
  destruct (infer_type_spec l)
    as [[Hall _]|(l1 & k & p & l2 & El & _ & Ht & Hcase)].
  - exfalso. apply Hdec.
    rewrite Forall_forall in Hall. apply Hall. by apply range_lookup.
  - assert (CollectionSpec.Programs cs !! k = Some p) as Hk.
    { apply (range_lookup 375 0). fold l. rewrite El.
      apply elem_of_app. right. left. }
    destruct (Hagree k p Hk) as [H1 H2].
    apply Z.eqb_neq in Ht. rewrite Ht.
    assert (infer_type l UnspecifiedProgram = T) as ->; [|done].
    destruct Hcase as [[Hp ->]|[Hp Hkn]]; [by apply H1|].
    by apply (H2 Hp).
Qed.

End ClassifyMore.

(** X14 on the bundle of a program named in the table and a socket
    filter. *)
Lemma classifyProgramTypes_idempotent_witness :
  @classifyProgramTypes key_order_runtime
    (@classifyProgramTypes key_order_runtime Example.bundle_types).1
  = ((@classifyProgramTypes key_order_runtime Example.bundle_types).1,
     None).
Proof.
  apply (@classifyProgramTypes_idempotent key_order_runtime
           Example.bundle_types).
  vm_compute. reflexivity.
Defined.

(** X15 on the bundle of an entrypoint of type SchedCLS and two tail calls
    of unspecified type, with the runtime that ranges in reverse order. *)
Lemma classifyProgramTypes_unanimous_witness :
  @classifyProgramTypes reverse_order_runtime Example.bundle
  = (CollectionSpec.set_Programs
       (with_default SchedCLS <$> CollectionSpec.Programs Example.bundle)
       Example.bundle, None).
Proof.
  apply (@classifyProgramTypes_unanimous reverse_order_runtime
           Example.bundle SchedCLS).
  - exists "cil_from_netdev"%string, Example.entry.
    split; [vm_compute; reflexivity|]. intros [H _]. discriminate H.
  - intros k p Hk. apply elem_of_map_to_list in Hk. vm_compute in Hk.
    repeat (apply elem_of_cons in Hk as [Heq|Hk];
            [injection Heq as -> ->; split;
             [intros H; first [reflexivity|by destruct H]
             |intros H ty Hty; first [discriminate H|discriminate Hty]]|]).
    by apply elem_of_nil in Hk.
Defined.

(* ===================================================================== *)
(** * LoadCollectionSpec *)
(* ===================================================================== *)

Section PipelineTheorems.

Context `{RT : GoRuntime} `{OPS : asm.OpCodes}.

Lemma with_default_fields t p :
  ProgramSpec.Name (with_default t p) = ProgramSpec.Name p
  /\ ProgramSpec.SectionName (with_default t p) = ProgramSpec.SectionName p
  /\ ProgramSpec.Instructions (with_default t p)
     = ProgramSpec.Instructions p.
Proof.
  unfold with_default. by destruct (ProgramSpec.Type_ p =? _).
Qed.

(** X1. The three steps of LoadCollectionSpec compose.  When the call
    succeeds on a specification whose programs are filed under their
    names, the programs it returns are the entrypoints and the reachable
    tail calls of the parsed specification, under their keys, each of a
    specified type and otherwise as parsed; every map is as its trailer
    decodes, with one new entry (slot, key of the program) for each of
    these programs whose section names the id of the map; so a tail call
    that was pruned is in no slot. *)
Theorem LoadCollectionSpec_normalises spec spec' :
  keyed_by_name spec ->
  LoadCollectionSpec (inl spec) = Some (inl spec') ->
  (forall k p',
      CollectionSpec.Programs spec' !! k = Some p' ->
      ProgramSpec.Type_ p' <> UnspecifiedProgram
      /\ exists p,
          CollectionSpec.Programs spec !! k = Some p /\ scanned spec p
          /\ ProgramSpec.Name p' = ProgramSpec.Name p
          /\ ProgramSpec.SectionName p' = ProgramSpec.SectionName p
          /\ ProgramSpec.Instructions p' = ProgramSpec.Instructions p
          /\ (ProgramSpec.Type_ p <> UnspecifiedProgram -> p' = p))
  /\ (forall k p,
        CollectionSpec.Programs spec !! k = Some p -> scanned spec p ->
        is_Some (CollectionSpec.Programs spec' !! k))
  /\ (forall km m,
        CollectionSpec.Maps spec !! km = Some m ->
        exists more,
          CollectionSpec.Maps spec' !! km
          = Some (MapSpec.set_Contents
                    (MapSpec.Contents m ++ more)
                    (decoded (CollectionSpec.ByteOrder spec) m))
          /\ forall kv,
              kv ∈ more <->
              exists n p id slot,
                CollectionSpec.Programs spec !! n = Some p
                /\ scanned spec p
                /\ fmt.Sscanf_d_slash_v (ProgramSpec.SectionName p)
                   = Some (id, slot)
                /\ trailer_id (CollectionSpec.ByteOrder spec) m = Some id
                /\ kv = MapKV.mk (AnyUint32 slot) (AnyString n))
  /\ CollectionSpec.Variables spec' = CollectionSpec.Variables spec
  /\ CollectionSpec.ByteOrder spec' = CollectionSpec.ByteOrder spec.
Proof.
  intros Hkey. unfold LoadCollectionSpec.
  destruct (removeUnreachableTailcalls spec) as [[cs1 [e|]]|] eqn:H1;
    [done| |done].
  pose proof (remove_scanned _ _ Hkey H1) as Hprogs.
  destruct (remove_frame _ _ _ H1) as (HM1 & HV1 & HB1).
  destruct (iproute2Compat_frame cs1) as (HP2 & HV2 & HB2 & _).
  pose proof (iproute2Compat_maps cs1) as Hmaps.
  destruct (iproute2Compat cs1) as [cs2 [e|]] eqn:H2; [done|].
  cbn [fst snd] in *.
  rewrite (classifyProgramTypes_eq cs2). cbv zeta.
  set (t := infer_type _ _).
  destruct (t =? UnspecifiedProgram) eqn:Ht; [done|].
  apply Z.eqb_neq in Ht. intros [= <-]. cbn. rewrite HP2.
  split_and!.
  - intros k p'. rewrite lookup_fmap.
    destruct (CollectionSpec.Programs cs1 !! k) as [p|] eqn:Hk; [|done].
    intros [= <-]. apply Hprogs in Hk as [Hk Hsc].
    split; [by apply with_default_Type|].
    exists p. destruct (with_default_fields t p) as (? & ? & ?).
    split_and!; [done..|]. apply with_default_classified.
  - intros k p Hk Hsc. rewrite lookup_fmap.
    assert (CollectionSpec.Programs cs1 !! k = Some p) as ->
        by (by apply Hprogs).
    by eexists.
  - intros km m Hkm. rewrite <- HM1 in Hkm.
    destruct (Hmaps km m eq_refl Hkm) as (more & E & _ & Hiff).
    exists more. rewrite <- HB1. split; [done|].
    intros kv. rewrite Hiff. split.
    + intros (n & p & id & slot & [Hn Hsc]%Hprogs & ? & ? & ?).
      exists n, p, id, slot. done.
    + intros (n & p & id & slot & Hn & Hsc & ? & ? & ?).
      exists n, p, id, slot. split; [by apply Hprogs|done].
  - congruence.
  - congruence.
Qed.

(** X2. LoadCollectionSpec returns for every outcome of the parser.  It
    fails with the error of the parser, or on a parsed specification with
    one of the errors of its three steps: "duplicate tail call index",
    "executes tail call to unknown index", "reading iproute2 map
    definition", "duplicate iproute2 map ID", "no map with iproute2 map
    .id" and "unable to classify program types"; and with no other. *)
Theorem LoadCollectionSpec_errors parsed :
  exists r,
    LoadCollectionSpec parsed = Some r
    /\ match r with
       | inl _ => exists spec, parsed = inl spec
       | inr (ErrKernel err) => parsed = inr err
       | inr (ErrDuplicateTailCall _)
       | inr (ErrUnknownTailCall _ _ _ _)
       | inr ErrReadingMapDefinition
       | inr (ErrDuplicateMapID _ _ _)
       | inr (ErrNoMapWithID _)
       | inr ErrUnclassified => exists spec, parsed = inl spec
       | inr _ => False
       end.
Proof.
  unfold LoadCollectionSpec. destruct parsed as [spec|err]; [|by eexists].
  unfold removeUnreachableTailcalls.
  destruct (resolve_terminates spec) as [[tcs [e|]] Hres]; rewrite Hres.
  { eexists. split; [done|].
    apply resolve_err in Hres
      as [(? & ? & ? & ? & ? & -> & _)|[_ (? & ? & ? & ? & ? & -> & _)]];
      by eexists. }
  destruct (for_each delete_body _ _) as [progs o].
  set (cs1 := CollectionSpec.set_Programs progs spec).
  pose proof (iproute2Compat_err cs1) as Herr.
  destruct (iproute2Compat cs1) as [cs2 [e|]]; cbn [snd] in Herr.
  { eexists. split; [done|].
    destruct (Herr e eq_refl)
      as [[-> _]|[(? & ? & ? & ? & ? & -> & _)|(? & ? & ? & ? & -> & _)]];
      by eexists. }
  rewrite (classifyProgramTypes_eq cs2). cbv zeta.
  destruct (_ =? UnspecifiedProgram); eexists; (split; [done|]);
    by eexists.
Qed.

End PipelineTheorems.

(** X1 on the bundle with the calls map: the candidate at slot 9 is
    pruned and gets no slot, the one at slot 7 is classified and entered at
    slot 7. *)
Lemma LoadCollectionSpec_normalises_witness :
  @LoadCollectionSpec key_order_runtime ebpf_opcodes
    (inl bundle_with_calls)
  = Some (inl bundle_normalised)
  /\ (forall k p',
        CollectionSpec.Programs bundle_normalised !! k = Some p' ->
        ProgramSpec.Type_ p' <> UnspecifiedProgram)
  /\ (forall k p,
        CollectionSpec.Programs bundle_with_calls !! k = Some p ->
        @scanned ebpf_opcodes bundle_with_calls p ->
        is_Some (CollectionSpec.Programs bundle_normalised !! k)).
Proof.
  assert (keyed_by_name bundle_with_calls) as Hkey.
  { refine (bool_decide_unpack _ _). vm_compute. exact I. }
  assert (@LoadCollectionSpec key_order_runtime ebpf_opcodes
            (inl bundle_with_calls) = Some (inl bundle_normalised)) as Hrun
      by (vm_compute; reflexivity).
  split; [exact Hrun|].
  destruct (@LoadCollectionSpec_normalises key_order_runtime ebpf_opcodes
              bundle_with_calls bundle_normalised Hkey Hrun)
    as (H1 & H2 & _).
  split; [|exact H2].
  intros k p' Hk. exact (proj1 (H1 k p' Hk)).
Defined.

(* ===================================================================== *)
(** * renameMaps and applyConstants in every outcome *)
(* ===================================================================== *)


Section RenameMore.

Context `{RT : GoRuntime}.

Implicit Types (Maps : gmap string MapSpec.t).

Lemma rename_loop (l : list (string * string)) Maps :
  NoDup l.*1 ->
  let r := for_each rename_body l Maps in
  (forall key, key ∉ l.*1 -> r.1 !! key = Maps !! key)
  /\ (forall key,
        match Maps !! key with
        | None => r.1 !! key = None
        | Some m => exists m', r.1 !! key = Some m' /\ renamed m m'
        end)
  /\ match r.2 with
     | None =>
       forall name rename, (name, rename) ∈ l ->
         exists m, Maps !! name = Some m
                   /\ r.1 !! name = Some (MapSpec.set_Name rename m)
     | Some e =>
       exists name rename,
         e = ErrUnknownMap name rename /\ (name, rename) ∈ l
         /\ Maps !! name = None
     end.
Proof.
  revert Maps. induction l as [|[name rename] l IH]; intros Maps Hnd r;
    subst r.
  - cbn [for_each fst snd]. split_and!; [done| |by intros ?? ?%elem_of_nil].
    intros key. destruct (Maps !! key) as [m|]; [|done]. by exists m.
  - apply NoDup_cons in Hnd as [Hname Hnd]. cbn [for_each].
    destruct (Maps !! name) as [m|] eqn:Hm.
    + assert (rename_body (name, rename) Maps
              = (<[name := MapSpec.set_Name rename m]> Maps, None)) as ->
          by (unfold rename_body; by rewrite Hm).
      specialize (IH (<[name := MapSpec.set_Name rename m]> Maps) Hnd).
      cbv zeta in IH. destruct IH as (Hout & Hall & Hres).
      split_and!.
      * intros key [Hne Hnot]%not_elem_of_cons.
        rewrite Hout by done. by rewrite lookup_insert_ne.
      * intros key. specialize (Hall key).
        rewrite lookup_insert in Hall. case_decide as Hk.
        -- subst. rewrite Hm. destruct Hall as (m' & ? & Hren).
           exists m'. split; [done|]. destruct Hren as (? & ? & ?).
           split_and!; done.
        -- done.
      * destruct (for_each rename_body l _).2 as [e|].
        -- destruct Hres as (n' & r' & -> & Hin & Hnone).
           exists n', r'. split_and!; [done|by right|].
           by apply lookup_insert_None in Hnone as [? _].
        -- intros n' r' [[= -> ->]|Hin]%elem_of_cons.
           ++ exists m. split; [done|]. rewrite Hout by done.
              apply lookup_insert_eq.
           ++ destruct (Hres n' r' Hin) as (m' & Hm' & ?).
              rewrite lookup_insert_ne in Hm'; [eauto|].
              intros ->. apply Hname, list_elem_of_fmap.
              by exists (n', r').
    + assert (rename_body (name, rename) Maps
              = (Maps, Some (ErrUnknownMap name rename))) as ->
          by (unfold rename_body; by rewrite Hm).
      cbn [fst snd]. split_and!; [done| |].
      * intros key. destruct (Maps !! key) as [m|]; [|done]. by exists m.
      * exists name, rename. split_and!; [done|left|done].
Qed.

(** X16. renameMaps fails exactly when a key of the renames is not the key
    of a map, and the error names such a key and its rename.  After a
    success the map at every renamed key carries the new name, under its
    old key, and every other map is as it was.  Whatever the outcome, the
    call touches nothing but names: no map is added or removed, every
    map keeps its trailer, pin type and contents, and the programs, the
    variables and the byte order are as they were. *)
Theorem renameMaps_spec coll renames :
  ((renameMaps coll renames).2 = None <->
   forall name, is_Some (renames !! name) ->
                is_Some (CollectionSpec.Maps coll !! name))
  /\ ((renameMaps coll renames).2 = None ->
      forall key,
        CollectionSpec.Maps (renameMaps coll renames).1 !! key
        = (fun m => match renames !! key with
                    | Some rename => MapSpec.set_Name rename m
                    | None => m
                    end) <$> CollectionSpec.Maps coll !! key)
  /\ (forall e,
        (renameMaps coll renames).2 = Some e ->
        exists name rename,
          e = ErrUnknownMap name rename
          /\ renames !! name = Some rename
          /\ CollectionSpec.Maps coll !! name = None)
  /\ (forall key,
        match CollectionSpec.Maps coll !! key with
        | None => CollectionSpec.Maps (renameMaps coll renames).1 !! key
                  = None
        | Some m =>
          exists m',
            CollectionSpec.Maps (renameMaps coll renames).1 !! key = Some m'
            /\ renamed m m'
        end)
  /\ CollectionSpec.Programs (renameMaps coll renames).1
     = CollectionSpec.Programs coll
  /\ CollectionSpec.Variables (renameMaps coll renames).1
     = CollectionSpec.Variables coll
  /\ CollectionSpec.ByteOrder (renameMaps coll renames).1
     = CollectionSpec.ByteOrder coll.
Proof.
  unfold renameMaps.
  pose proof (rename_loop (range 421 0 renames) (CollectionSpec.Maps coll)
                (range_NoDup_fst _ _ _)) as (Hout & Hall & Hres).
  cbv zeta in Hout, Hall, Hres.
  destruct (for_each rename_body _ _) as [Maps [e|]];
    cbn [fst snd CollectionSpec.Maps CollectionSpec.set_Maps
         CollectionSpec.Programs CollectionSpec.Variables
         CollectionSpec.ByteOrder] in *.
  - destruct Hres as (name & rename & -> & Hin%range_lookup & Hnone).
    split_and!; [|done| |done..].
    + split; [done|]. intros H. destruct (H name) as [m Hm]; [eauto|].
      congruence.
    + intros e [= <-]. eauto.
  - split_and!; [| |done..].
    + split; [|done]. intros _ name [rename Hr].
      destruct (Hres name rename) as (m & -> & _);
        [by apply range_lookup|eauto].
    + intros _ key. destruct (renames !! key) as [rename|] eqn:Hr.
      * destruct (Hres key rename) as (m & -> & ->);
          [by apply range_lookup|done].
      * rewrite Hout.
        -- by destruct (CollectionSpec.Maps coll !! key).
        -- intros ([n r] & -> & Hin%range_lookup)%list_elem_of_fmap.
           cbn in Hr. congruence.
Qed.

End RenameMore.

Section ConstantsMore.

Context `{RT : GoRuntime} `{EXT : Externals}.

Implicit Types (vars : gmap string VariableSpec.t).


Lemma constant_body_cases name value vars :
  (exists v,
      vars !! (ConstantPrefix ++ name)%string = Some v
      /\ constant_body (name, value) vars
         = (<[(ConstantPrefix ++ name)%string :=
                VariableSpec.mk (VariableSpec.Name v)
                                (VariableSpec.MapName v)
                                (VariableSpec.size v) value]> vars, None))
  \/ exists e, constant_body (name, value) vars = (vars, Some e)
               /\ refused vars name value e.
Proof.
  unfold constant_body, refused.
  destruct (vars !! _) as [v|] eqn:Hv; [|right; eauto].
  destruct (decide (VariableSpec.MapName v = Section_)) as [Hs|Hs].
  - apply String.eqb_eq in Hs as ->. cbn [negb]. unfold VariableSpec.Set_.
    destruct (Nat.eqb_spec (length value) (VariableSpec.size v)).
    + left. eauto.
    + right. eauto.
  - apply String.eqb_neq in Hs as ->. cbn [negb]. right. eauto.
Qed.

Lemma refused_insert vars cn v v' name value e :
  vars !! cn = Some v -> same_variable v v' ->
  refused (<[cn := v']> vars) name value e -> refused vars name value e.
Proof.
  intros Hv Hsv. destruct Hsv as (_ & Hm & Hs). unfold refused.
  destruct (decide (cn = (ConstantPrefix ++ name)%string)) as [->|Hne].
  - by rewrite lookup_insert_eq, Hv, Hm, Hs.
  - by rewrite lookup_insert_ne.
Qed.

(** The loop of applyConstants in every outcome. *)
Lemma constants_loop_frame (l : list (string * list Z)) vars :
  let r := for_each constant_body l vars in
  (forall k,
      match vars !! k with
      | None => r.1 !! k = None
      | Some v =>
        exists v', r.1 !! k = Some v' /\ same_variable v v'
                   /\ (VariableSpec.Value v' = VariableSpec.Value v
                       \/ exists name,
                           (name, VariableSpec.Value v') ∈ l
                           /\ k = (ConstantPrefix ++ name)%string)
      end)
  /\ forall e, r.2 = Some e ->
       exists name value, (name, value) ∈ l /\ refused vars name value e.
Proof.
  revert vars. induction l as [|[name value] l IH]; intros vars r; subst r.
  - cbn [for_each fst snd]. split; [|done]. intros k.
    destruct (vars !! k) as [v|]; [|done]. exists v.
    split_and!; [done..|by left].
  - cbn [for_each].
    destruct (constant_body_cases name value vars)
      as [(v & Hv & ->)|(e & -> & Href)].
    + set (cn := (ConstantPrefix ++ name)%string) in *.
      set (v' := VariableSpec.mk _ _ _ value).
      assert (same_variable v v') as Hsame by done.
      destruct (IH (<[cn := v']> vars)) as [Hall Herr]. split.
      * intros k. specialize (Hall k). rewrite lookup_insert in Hall.
        case_decide as Hk.
        -- subst k. rewrite Hv.
           destruct Hall as (x & Hx & Hsv & Hval).
           destruct Hsv as (? & ? & ?).
           exists x. split; [done|]. split.
           { subst v'. cbn in *. unfold same_variable. by split_and!. }
           right. destruct Hval as [Hval|(n & ? & ?)].
           ++ exists name. rewrite Hval. split; [left|done].
           ++ exists n. split; [by right|done].
        -- destruct (vars !! k) as [x|]; [|done].
           destruct Hall as (x' & ? & ? & Hval).
           exists x'. split_and!; [done..|].
           destruct Hval as [?|(n & ? & ?)]; [by left|].
           right. exists n. split; [by right|done].
      * intros e [n [x [Hin Href]]]%Herr. exists n, x.
        split; [by right|]. by eapply refused_insert.
    + cbn [fst snd]. split.
      * intros k. destruct (vars !! k) as [v|]; [|done]. exists v.
        split_and!; [done..|by left].
      * intros e' [= <-]. exists name, value. split; [left|done].
Qed.


(** X18. Each error of applyConstants names a field that cannot be set, and
    says why: "can't set non-existent Variable" when no variable carries
    the prefixed name of the field, "can only set Cilium config variables
    in section" when that variable lives in another section, which the
    message names, and "setting Variable" when it lives in the
    configuration section and has not the size of the value.  The one
    other error is the failure to flatten the object. *)
Theorem applyConstants_error_cause cs obj e :
  (applyConstants cs obj).2 = Some e ->
  exists o,
    obj = Some o
    /\ (StructToMap o = None /\ e = ErrStructToMap
        \/ exists constants name value,
            StructToMap o = Some constants
            /\ constants !! name = Some value
            /\ refused (CollectionSpec.Variables cs) name value e).
Proof.
  unfold applyConstants. destruct obj as [o|]; [|done]. intros He.
  exists o. split; [done|].
  destruct (StructToMap o) as [constants|] eqn:Hflat.
  - right.
    pose proof (constants_loop_frame (range 445 0 constants)
                  (CollectionSpec.Variables cs)) as [_ Herr].
    cbv zeta in Herr.
    destruct (for_each constant_body _ _) as [vars e']. cbn [fst snd] in *.
    destruct (Herr e He) as (name & value & Hin%range_lookup & Href).
    exists constants, name, value. done.
  - left. by injection He as <-.
Qed.

End ConstantsMore.


(** X18 on the toy specification: a value of eight bytes for the variable
    of four bytes. *)
Lemma applyConstants_error_cause_witness :
  exists o,
    Some {["mtu"%string := [1; 2; 3; 4; 5; 6; 7; 8]]} = Some o
    /\ (@StructToMap Toy.externals o = None
        /\ ErrSettingVariable "mtu" = ErrStructToMap
        \/ exists constants name value,
            @StructToMap Toy.externals o = Some constants
            /\ constants !! name = Some value
            /\ @refused Toy.externals (CollectionSpec.Variables Toy.spec)
                 name value (ErrSettingVariable "mtu")).
Proof.
  apply (@applyConstants_error_cause key_order_runtime Toy.externals
           Toy.spec (Some {["mtu"%string := [1; 2; 3; 4; 5; 6; 7; 8]]})
           (ErrSettingVariable "mtu")).
  reflexivity.
Defined.


(* ===================================================================== *)
(** * LoadCollection: validation, and the calls to the kernel loader *)
(* ===================================================================== *)

Section LoadMore.

Context `{RT : GoRuntime} `{EXT : Externals}.

(** The steps before the load, written out: the copy is renamed, then
    patched, then stripped of its CILIUM_PIN_REPLACE flags. *)
Lemma prepare_run l opts w v :
  heap w !! l = Some v ->
  prepare (Some l) opts w =
  let o := default (mkCollectionOptions zero_options None ∅) opts in
  let l' := fresh (dom (heap w)) in
  let at_ v' := mkWorld (<[l' := v']> (heap w)) (kernel w) (loads w) in
  match renameMaps v (MapRenames o) with
  | (v1, Some e) => (inr e, at_ v1)
  | (v1, None) =>
    match applyConstants v1 (Constants o) with
    | (v2, Some e) => (inr (ErrApplyingOverrides e), at_ v2)
    | (v2, None) =>
      let '(v3, toReplace) := consumePinReplace v2 in
      (inl (l', o, toReplace), at_ v3)
    end
  end.
Proof.
  intros Hl. cbv zeta.
  unfold prepare, bind, Copy, check, bind, through, ret, fail.
  rewrite Hl. cbn [heap kernel loads]. rewrite lookup_insert_eq.
  destruct (renameMaps v _) as [v1 [e|]]; cbn [heap kernel loads];
    rewrite ?insert_insert_eq; [done|].
  rewrite lookup_insert_eq.
  destruct (applyConstants v1 _) as [v2 [e|]]; cbn [heap kernel loads];
    rewrite ?insert_insert_eq; [done|].
  rewrite lookup_insert_eq.
  destruct (consumePinReplace v2) as [v3 t]. cbn [heap kernel loads].
  by rewrite insert_insert_eq.
Qed.

Lemma LoadCollection_eq spec opts w :
  LoadCollection spec opts w =
  match prepare spec opts w with
  | (inl (l, o, toReplace), w1) => load_prepared l o toReplace w1
  | (inr e, w1) => (inr e, w1)
  end.
Proof.
  unfold LoadCollection, bind.
  by destruct (prepare spec opts w) as [[[[l o] t]|e] w1].
Qed.

(** X20. LoadCollection validates before it loads.  A nil specification is
    refused at once.  When renameMaps fails on the copy, its error is
    returned, and when applyConstants fails on the renamed copy, its error
    is returned as "applying variable overrides"; in both cases the kernel
    loader has not been called and the kernel is as it was. *)
Theorem LoadCollection_validates_first l opts w v :
  heap w !! l = Some v ->
  let o := default (mkCollectionOptions zero_options None ∅) opts in
  LoadCollection None opts w = (inr ErrNilCollectionSpec, w)
  /\ (forall v1 e,
        renameMaps v (MapRenames o) = (v1, Some e) ->
        (LoadCollection (Some l) opts w).1 = inr e
        /\ loads (LoadCollection (Some l) opts w).2 = loads w
        /\ kernel (LoadCollection (Some l) opts w).2 = kernel w)
  /\ (forall v1 v2 e,
        renameMaps v (MapRenames o) = (v1, None) ->
        applyConstants v1 (Constants o) = (v2, Some e) ->
        (LoadCollection (Some l) opts w).1 = inr (ErrApplyingOverrides e)
        /\ loads (LoadCollection (Some l) opts w).2 = loads w
        /\ kernel (LoadCollection (Some l) opts w).2 = kernel w).
Proof.
  intros Hl o. split; [done|].
  rewrite LoadCollection_eq, (prepare_run _ _ _ _ Hl). cbv zeta. fold o.
  split.
  - intros v1 e ->. done.
  - intros v1 v2 e -> ->. done.
Qed.

(** X21. The kernel loader is called at most twice in a run of
    LoadCollection, whatever the specification, the options and the
    kernel; and at least once in a run that succeeds. *)
Theorem LoadCollection_loads_at_most_twice spec opts w :
  exists attempts,
    loads (LoadCollection spec opts w).2 = loads w ++ attempts
    /\ (length attempts <= 2)%nat
    /\ (forall loaded, (LoadCollection spec opts w).1 = inl loaded ->
                       (1 <= length attempts)%nat).
Proof.
  rewrite LoadCollection_eq.
  pose proof (prepare_spec spec opts w) as (_ & Hloads & _ & Hcopy).
  cbv zeta in Hloads, Hcopy.
  destruct (prepare spec opts w) as [[[[l o] t]|e] w1]; cbn [fst snd] in *.
  2:{ exists []. rewrite app_nil_r. split_and!; [done|simpl; lia|done]. }
  destruct (Hcopy l o t eq_refl) as (_ & [v Hv] & _).
  rewrite (load_prepared_eq _ _ _ _ _ Hv). cbv zeta. rewrite Hloads.
  destruct (NewCollectionWithOptions v _ _) as [[c|err] k1].
  - exists [v]. destruct (mapsToReplace t c); cbn;
      (split_and!; [done|lia|intros; lia]).
  - destruct (is_ErrMapIncompatible err).
    + destruct (incompatibleMaps v _ k1) as [v' [inc|e]].
      * destruct (NewCollectionWithOptions v' _ k1) as [[c|err2] k2].
        -- exists [v; v']. rewrite <- app_assoc.
           destruct (mapsToReplace _ c); cbn;
             (split_and!; [done|lia|intros; lia]).
        -- exists [v; v']. rewrite <- app_assoc. cbn.
           split_and!; [done|lia|intros; lia].
      * exists [v]. cbn. split_and!; [done|lia|intros; lia].
    + exists [v]. cbn. split_and!; [done|lia|intros; lia].
Qed.


End LoadMore.

(** X20 on the toy kernel: the rename of a map the specification does not
    hold is refused before any load. *)
Lemma LoadCollection_validates_first_witness :
  (@LoadCollection key_order_runtime Toy.externals (Some 1%positive)
     (Some (@mkCollectionOptions Toy.externals tt None
              {["cilium_ct"%string := "cilium_ct_2"%string]}))
     (Toy.world true)).1
  = inr (ErrUnknownMap "cilium_ct" "cilium_ct_2")
  /\ loads (@LoadCollection key_order_runtime Toy.externals
              (Some 1%positive)
              (Some (@mkCollectionOptions Toy.externals tt None
                       {["cilium_ct"%string := "cilium_ct_2"%string]}))
              (Toy.world true)).2 = [].
Proof.
  destruct (@LoadCollection_validates_first key_order_runtime
              Toy.externals 1%positive
              (Some (@mkCollectionOptions Toy.externals tt None
                       {["cilium_ct"%string := "cilium_ct_2"%string]}))
              (Toy.world true) Toy.spec eq_refl) as (_ & H & _).
  destruct (H Toy.spec (ErrUnknownMap "cilium_ct" "cilium_ct_2") eq_refl)
    as (H1 & H2 & _).
  split; [exact H1|exact H2].
Defined.

